(** * BSV script cost estimator: a shallow embedding of
      [libbsv_cost_estimator/src/cost_estimator.cpp] and
      [libbsv_cost_estimator/include/bsv/cost_estimator.h].

    Conventions of the embedding.
    - [uint64_t] and [uint32_t] values are [Z] with the wrap-around written
      out ([wrap64], [wrap32]) at every arithmetic operation of the source.
    - [double] is IEEE-754 binary64, taken from the Standard Library's
      executable specification [SpecFloat] ([prec = 53], [emax = 1024]);
      products and sums are the correctly rounded, unfused operations in the
      order the C++ expression grammar gives them.
    - [static_cast<uint64_t>] of a [double] truncates toward zero and is
      undefined when the truncated value does not fit; undefined behaviour is
      the outcome [Undefined].
    - [std::vector<uint8_t>] is [list byte]; the size stack
      [std::vector<uint64_t>] is a [list Z] whose head is [back()].
    - [std::map<OpCode, OpcodeCostModel>] is a [gmap] keyed by the opcode
      byte.
    - [size_t] is 64 bits wide.  The program counter and container sizes
      cannot exceed the address space; they are kept as [nat] without
      wrap-around.
    - [Impl::load_model] is embedded over the parsed document as the source
      sees it through the accessors it calls; the JSON library is not part
      of the sources.  A model is the three data members the loader fills
      in. *)

From Stdlib Require Import ZArith List String Strings.Byte Lia SpecFloat.
From stdpp Require Import base option list gmap strings.

Local Open Scope Z_scope.

(** ** Machine integers *)

Definition wrap64 (z : Z) : Z := z mod 2 ^ 64.
Definition wrap32 (z : Z) : Z := z mod 2 ^ 32.

Definition byte_val (b : byte) : Z := Z.of_N (Byte.to_N b).

(** ** IEEE-754 binary64 *)

Definition double : Type := spec_float.

Definition dadd : double -> double -> double := SFadd 53 1024.
Definition dmul : double -> double -> double := SFmul 53 1024.

(** Implicit conversion [uint64_t -> double] (round to nearest, ties to
    even). *)
Definition double_of_u64 (n : Z) : double := binary_normalize 53 1024 n 0 false.

(** [static_cast<uint64_t>(x)]: [None] is undefined behaviour. *)
Definition u64_of_double (x : double) : option Z :=
  match x with
  | S754_zero _ => Some 0
  | S754_finite s m e =>
      let t := Z.shiftl (Z.pos m) e in
      if s then (if t =? 0 then Some 0 else None)
      else if t <? 2 ^ 64 then Some t else None
  | S754_infinity _ | S754_nan => None
  end.

(** The literals [5.0], [0.8], [85000.0], [2.5], [150.0], [300.0] of the
    source. *)
Definition d_5_0 : double := S754_finite false 5629499534213120 (-50).
Definition d_0_8 : double := S754_finite false 7205759403792794 (-53).
Definition d_0_0 : double := S754_zero false.

(** ** Data model (cost_estimator.h) *)

Definition Script : Type := list byte.

Definition OP_DUP : Z := 0x76.
Definition OP_SWAP : Z := 0x7c.
Definition OP_CAT : Z := 0x7e.
Definition OP_SPLIT : Z := 0x7f.
Definition OP_SHA256 : Z := 0xa8.
Definition OP_HASH256 : Z := 0xaa.
Definition OP_CHECKSIG : Z := 0xac.
Definition OP_CHECKMULTISIG : Z := 0xae.
Definition OP_PUSHDATA1 : Z := 0x4c.
Definition OP_PUSHDATA2 : Z := 0x4d.
Definition OP_PUSHDATA4 : Z := 0x4e.

Definition SIGHASH_ALL : N := 0x01%N.
Definition SIGHASH_NONE : N := 0x02%N.
Definition SIGHASH_SINGLE : N := 0x03%N.
Definition SIGHASH_ANYONECANPAY : N := 0x80%N.

Record TxInput := {
  prevout_hash : list byte;
  prevout_index : Z;
  script_sig : Script;
  sequence : Z
}.

Record TxOutput := {
  value : Z;
  script_pubkey : Script
}.

Record Transaction := {
  version : Z;
  inputs : list TxInput;
  outputs : list TxOutput;
  locktime : Z
}.

Record Breakdown := {
  parsing : Z;
  dispatch : Z;
  stack_ops : Z;
  byte_ops : Z;
  hashing : Z;
  signatures : Z;
  control_flow : Z
}.

Record CostEstimate := {
  total_cycles : Z;
  breakdown : Breakdown;
  peak_stack_bytes : Z;
  peak_stack_items : Z;
  signature_count : Z;
  opcode_count : Z;
  warnings : list string
}.

Record EstimatorLimits := {
  max_script_size : Z;
  max_stack_items : Z;
  max_stack_item_size : Z;
  max_opcode_count : Z;
  max_total_cycles : Z
}.

(** The default member initialisers of [EstimatorLimits]. *)
Definition default_limits : EstimatorLimits := {|
  max_script_size := 100000000;
  max_stack_items := 10000;
  max_stack_item_size := 100000000;
  max_opcode_count := 1000000;
  max_total_cycles := 10000000000
|}.

(** ** Cost model (cost_estimator.cpp) *)

Inductive ModelType := CONSTANT | LINEAR | SIGNATURE | MULTISIG.

Record OpcodeCostModel := {
  type : ModelType;
  c0 : double;
  c1 : double;
  c_ecdsa : double;
  c_preimage_per_byte : double;
  c_keyscan : double;
  c_setup : double;
  c_alloc : double
}.

(** The data members of [CostEstimator::Impl] that [estimate] reads. *)
Record Impl := {
  c_dispatch : double;
  c_parse_per_byte : double;
  opcode_costs : gmap Z OpcodeCostModel
}.

(** The member initialisers of [Impl], with no opcode loaded. *)
Definition default_Impl : Impl := {|
  c_dispatch := d_5_0;
  c_parse_per_byte := d_0_8;
  opcode_costs := ∅
|}.

(** [params.size() > i ? params[i] : dflt] *)
Definition param (params : list Z) (i : nat) (dflt : Z) : Z :=
  default dflt (params !! i).

Definition calculate_opcode_cost (M : Impl) (op : Z) (params : list Z)
  : option Z :=
  match opcode_costs M !! op with
  | None => Some 100
  | Some model =>
      match type model with
      | CONSTANT => u64_of_double (c0 model)
      | LINEAR =>
          let n := param params 0 0 in
          u64_of_double
            (dadd (dadd (c0 model) (dmul (c1 model) (double_of_u64 n)))
                  (c_alloc model))
      | SIGNATURE =>
          let preimage_size := param params 0 1000 in
          u64_of_double
            (dadd (c_ecdsa model)
                  (dmul (c_preimage_per_byte model)
                        (double_of_u64 preimage_size)))
      | MULTISIG =>
          let m := param params 0 1 in
          let n := param params 1 3 in
          let preimage_size := param params 2 1000 in
          u64_of_double
            (dadd
               (dadd
                  (dmul (double_of_u64 m)
                        (dadd (c_ecdsa model)
                              (dmul (c_preimage_per_byte model)
                                    (double_of_u64 preimage_size))))
                  (dmul (double_of_u64 (wrap64 (n - m))) (c_keyscan model)))
               (c_setup model))
      end
  end.

(** ** Sighash preimage size *)

Definition input_bytes (i : TxInput) : Z :=
  36 + 1 + Z.of_nat (length (script_sig i)) + 4.

Definition output_bytes (o : TxOutput) : Z :=
  8 + 1 + Z.of_nat (length (script_pubkey o)).

(** [None] is the out-of-range [tx.inputs[input_index]]. *)
Definition calculate_sighash_size (tx : Transaction) (input_index : N)
    (sighash_type : N) : option Z :=
  let base_type := N.land sighash_type 0x1f in
  let anyone_can_pay :=
    negb (N.land sighash_type SIGHASH_ANYONECANPAY =? 0)%N in
  let size := 4 in
  size ←
    (if anyone_can_pay then
       i ← inputs tx !! N.to_nat input_index;
       Some (wrap64 (size
                     + wrap64 (1 + 36 + 1
                               + Z.of_nat (length (script_sig i)) + 4)))
     else
       Some (fold_left (fun size i => wrap64 (size + wrap64 (input_bytes i)))
                       (inputs tx) (wrap64 (size + 1))));
  let size :=
    if (base_type =? SIGHASH_SINGLE)%N then
      match outputs tx !! N.to_nat input_index with
      | Some o =>
          wrap64 (size
                  + wrap64 (1 + 8 + 1
                            + Z.of_nat (length (script_pubkey o))))
      | None => size
      end
    else if (base_type =? SIGHASH_NONE)%N then wrap64 (size + 1)
    else
      fold_left (fun size o => wrap64 (size + wrap64 (output_bytes o)))
                (outputs tx) (wrap64 (size + 1)) in
  let size := wrap64 (size + 4) in
  let size := wrap64 (size + 4) in
  Some size.

(** ** Symbolic executor ([CostEstimator::Impl::estimate]) *)

(** How a call ends: with a value, in undefined behaviour of the source (an
    out-of-range float-to-integer cast, an out-of-range vector index), or
    with the fuel of the embedding used up (shown below never to happen). *)
Inductive outcome (A : Type) : Type :=
  | Returned (a : A)
  | Undefined
  | OutOfFuel.
Arguments Returned {A} a.
Arguments Undefined {A}.
Arguments OutOfFuel {A}.

Definition with_total (f : Z -> Z) (r : CostEstimate) : CostEstimate := {|
  total_cycles := f (total_cycles r);
  breakdown := breakdown r;
  peak_stack_bytes := peak_stack_bytes r;
  peak_stack_items := peak_stack_items r;
  signature_count := signature_count r;
  opcode_count := opcode_count r;
  warnings := warnings r
|}.

Definition with_breakdown (f : Breakdown -> Breakdown) (r : CostEstimate)
  : CostEstimate := {|
  total_cycles := total_cycles r;
  breakdown := f (breakdown r);
  peak_stack_bytes := peak_stack_bytes r;
  peak_stack_items := peak_stack_items r;
  signature_count := signature_count r;
  opcode_count := opcode_count r;
  warnings := warnings r
|}.

(** [result.total_cycles += n] *)
Definition add_total (n : Z) : CostEstimate -> CostEstimate :=
  with_total (fun t => wrap64 (t + n)).

(** [result.breakdown.parsing = n] *)
Definition set_parsing (n : Z) : CostEstimate -> CostEstimate :=
  with_breakdown (fun b => {|
    parsing := n; dispatch := dispatch b; stack_ops := stack_ops b;
    byte_ops := byte_ops b; hashing := hashing b;
    signatures := signatures b; control_flow := control_flow b |}).

(** [result.breakdown.dispatch += n] and its siblings *)
Definition add_dispatch (n : Z) : CostEstimate -> CostEstimate :=
  with_breakdown (fun b => {|
    parsing := parsing b; dispatch := wrap64 (dispatch b + n);
    stack_ops := stack_ops b; byte_ops := byte_ops b; hashing := hashing b;
    signatures := signatures b; control_flow := control_flow b |}).

Definition add_stack_ops (n : Z) : CostEstimate -> CostEstimate :=
  with_breakdown (fun b => {|
    parsing := parsing b; dispatch := dispatch b;
    stack_ops := wrap64 (stack_ops b + n); byte_ops := byte_ops b;
    hashing := hashing b; signatures := signatures b;
    control_flow := control_flow b |}).

Definition add_byte_ops (n : Z) : CostEstimate -> CostEstimate :=
  with_breakdown (fun b => {|
    parsing := parsing b; dispatch := dispatch b; stack_ops := stack_ops b;
    byte_ops := wrap64 (byte_ops b + n); hashing := hashing b;
    signatures := signatures b; control_flow := control_flow b |}).

Definition add_hashing (n : Z) : CostEstimate -> CostEstimate :=
  with_breakdown (fun b => {|
    parsing := parsing b; dispatch := dispatch b; stack_ops := stack_ops b;
    byte_ops := byte_ops b; hashing := wrap64 (hashing b + n);
    signatures := signatures b; control_flow := control_flow b |}).

Definition add_signatures (n : Z) : CostEstimate -> CostEstimate :=
  with_breakdown (fun b => {|
    parsing := parsing b; dispatch := dispatch b; stack_ops := stack_ops b;
    byte_ops := byte_ops b; hashing := hashing b;
    signatures := wrap64 (signatures b + n);
    control_flow := control_flow b |}).

(** [result.opcode_count++] *)
Definition incr_opcode_count (r : CostEstimate) : CostEstimate := {|
  total_cycles := total_cycles r;
  breakdown := breakdown r;
  peak_stack_bytes := peak_stack_bytes r;
  peak_stack_items := peak_stack_items r;
  signature_count := signature_count r;
  opcode_count := wrap32 (opcode_count r + 1);
  warnings := warnings r
|}.

(** [result.signature_count++] *)
Definition incr_signature_count (r : CostEstimate) : CostEstimate := {|
  total_cycles := total_cycles r;
  breakdown := breakdown r;
  peak_stack_bytes := peak_stack_bytes r;
  peak_stack_items := peak_stack_items r;
  signature_count := wrap32 (signature_count r + 1);
  opcode_count := opcode_count r;
  warnings := warnings r
|}.

(** [result.warnings.push_back(w)] *)
Definition push_warning (w : string) (r : CostEstimate) : CostEstimate := {|
  total_cycles := total_cycles r;
  breakdown := breakdown r;
  peak_stack_bytes := peak_stack_bytes r;
  peak_stack_items := peak_stack_items r;
  signature_count := signature_count r;
  opcode_count := opcode_count r;
  warnings := warnings r ++ [w]
|}.

(** The two [std::max] updates after each opcode. *)
Definition track_peaks (bytes : Z) (items : nat) (r : CostEstimate)
  : CostEstimate := {|
  total_cycles := total_cycles r;
  breakdown := breakdown r;
  peak_stack_bytes := Z.max (peak_stack_bytes r) bytes;
  peak_stack_items := Z.max (peak_stack_items r) (wrap32 (Z.of_nat items));
  signature_count := signature_count r;
  opcode_count := opcode_count r;
  warnings := warnings r
|}.

(** The locals of the loop: [result], [stack_sizes] (head = top),
    [current_stack_bytes], [pc]. *)
Record ExecState := {
  result : CostEstimate;
  stack_sizes : list Z;
  current_stack_bytes : Z;
  pc : nat
}.

Definition with_result (f : CostEstimate -> CostEstimate) (st : ExecState)
  : ExecState := {|
  result := f (result st);
  stack_sizes := stack_sizes st;
  current_stack_bytes := current_stack_bytes st;
  pc := pc st
|}.

(** The body of both push branches, once [push_size] is known and [pc]
    stands after the length bytes. *)
Definition push_data (push_size : Z) (pc' : nat) (st : ExecState)
  : ExecState := {|
  result := result st;
  stack_sizes := push_size :: stack_sizes st;
  current_stack_bytes := wrap64 (current_stack_bytes st + push_size);
  pc := (pc' + Z.to_nat push_size)%nat
|}.

(** The [switch (op)] of the else branch, followed by
    [result.total_cycles += calculate_opcode_cost(op, params)]. *)
Definition execute_opcode (M : Impl) (tx : Transaction) (input_index : N)
    (op : Z) (pc' : nat) (st : ExecState) : option ExecState :=
  let r := result st in
  let stack := stack_sizes st in
  let csb := current_stack_bytes st in
  '(r, stack, csb, params) ←
    (if op =? OP_DUP then
       let '(stack, csb, params) :=
         match stack with
         | top_size :: _ =>
             (top_size :: stack, wrap64 (csb + top_size), [top_size])
         | [] => (stack, csb, [])
         end in
       c ← calculate_opcode_cost M op params;
       Some (add_stack_ops c r, stack, csb, params)
     else if op =? OP_SWAP then
       let stack :=
         match stack with
         | b :: a :: rest => a :: b :: rest
         | _ => stack
         end in
       c ← calculate_opcode_cost M op [];
       Some (add_stack_ops c r, stack, csb, [])
     else if op =? OP_CAT then
       let '(stack, csb, params) :=
         match stack with
         | size_b :: size_a :: rest =>
             let result_size := wrap64 (size_a + size_b) in
             (result_size :: rest,
              wrap64 (wrap64 (wrap64 (csb - size_a) - size_b) + result_size),
              [result_size])
         | _ => (stack, csb, [])
         end in
       c ← calculate_opcode_cost M op params;
       Some (add_byte_ops c r, stack, csb, params)
     else if (op =? OP_SHA256) || (op =? OP_HASH256) then
       let '(stack, csb, params) :=
         match stack with
         | input_size :: rest =>
             (32 :: rest, wrap64 (wrap64 (csb - input_size) + 32),
              [input_size])
         | [] => (stack, csb, [])
         end in
       c ← calculate_opcode_cost M op params;
       Some (add_hashing c r, stack, csb, params)
     else if op =? OP_CHECKSIG then
       preimage_size ← calculate_sighash_size tx input_index SIGHASH_ALL;
       c ← calculate_opcode_cost M op [preimage_size];
       let r := incr_signature_count (add_signatures c r) in
       let stack :=
         match stack with
         | _ :: _ :: rest => 1 :: rest
         | _ => stack
         end in
       Some (r, stack, csb, [])
     else
       Some (add_total 100 r, stack, csb, []));
  c ← calculate_opcode_cost M op params;
  Some {| result := add_total c r;
          stack_sizes := stack;
          current_stack_bytes := csb;
          pc := pc' |}.

(** One pass through the loop body after the opcode-count check, for the
    opcode byte [op_byte] read at [pc].  The flag is [true] when the pass
    leaves the loop through [break]. *)
Definition execute_step (M : Impl) (tx : Transaction) (input_index : N)
    (limits : EstimatorLimits) (combined : Script) (op_byte : byte)
    (st : ExecState) : option (bool * ExecState) :=
  let pc' := S (pc st) in
  let st := with_result incr_opcode_count st in
  d ← u64_of_double (c_dispatch M);
  let st := with_result (fun r => add_total d (add_dispatch d r)) st in
  let b := byte_val op_byte in
  st ←
    (if (0 <? b) && (b <? 0x4c) then
       Some (push_data b pc' st)
     else
       (* [op_byte == OP_PUSHDATA1 && pc < combined.size()], then
          [combined[pc++]] *)
       match (if b =? OP_PUSHDATA1 then combined !! pc' else None) with
       | Some len => Some (push_data (byte_val len) (S pc') st)
       | None => execute_opcode M tx input_index b pc' st
       end);
  let st :=
    with_result
      (track_peaks (current_stack_bytes st) (length (stack_sizes st))) st in
  if max_stack_item_size limits <? current_stack_bytes st then
    Some (true, with_result (push_warning "Stack byte limit exceeded") st)
  else if max_stack_items limits <? Z.of_nat (length (stack_sizes st)) then
    Some (true,
          with_result (push_warning "Stack item count limit exceeded") st)
  else Some (false, st).

(** The [while (pc < combined.size())] loop. *)
Fixpoint run (M : Impl) (tx : Transaction) (input_index : N)
    (limits : EstimatorLimits) (combined : Script) (fuel : nat)
    (st : ExecState) : outcome ExecState :=
  match combined !! pc st with
  | None => Returned st
  | Some op_byte =>
      if max_opcode_count limits <=? opcode_count (result st) then
        Returned
          (with_result (push_warning "Opcode count limit exceeded") st)
      else
        match fuel with
        | O => OutOfFuel
        | S fuel =>
            match execute_step M tx input_index limits combined op_byte st
            with
            | None => Undefined
            | Some (true, st) => Returned st
            | Some (false, st) => run M tx input_index limits combined fuel st
            end
        end
  end.

Definition empty_estimate : CostEstimate := {|
  total_cycles := 0;
  breakdown := {| parsing := 0; dispatch := 0; stack_ops := 0; byte_ops := 0;
                  hashing := 0; signatures := 0; control_flow := 0 |};
  peak_stack_bytes := 0;
  peak_stack_items := 0;
  signature_count := 0;
  opcode_count := 0;
  warnings := []
|}.

Definition result_of (st : ExecState) : CostEstimate := result st.

(** The locals on entry to the loop, after the parsing charge [p]. *)
Definition initial_state (p : Z) : ExecState := {|
  result := add_total p (set_parsing p empty_estimate);
  stack_sizes := [];
  current_stack_bytes := 0;
  pc := 0
|}.

Definition Impl_estimate (M : Impl) (unlocking_script locking_script : Script)
    (tx : Transaction) (input_index : N) (limits : EstimatorLimits)
  : outcome CostEstimate :=
  let result := empty_estimate in
  let combined := unlocking_script ++ locking_script in
  if max_script_size limits <? Z.of_nat (length combined) then
    Returned (push_warning "Script exceeds size limit" result)
  else
    match u64_of_double
            (dmul (c_parse_per_byte M)
                  (double_of_u64 (Z.of_nat (length combined)))) with
    | None => Undefined
    | Some p =>
        match run M tx input_index limits combined (length combined)
                  (initial_state p) with
        | Returned st => Returned (result_of st)
        | Undefined => Undefined
        | OutOfFuel => OutOfFuel
        end
    end.

(** ** Public API *)

Record CostEstimator := { pimpl_ : Impl }.

Definition estimate (self : CostEstimator)
    (unlocking_script locking_script : Script) (tx : Transaction)
    (input_index : N) : outcome CostEstimate :=
  let default_limits := default_limits in
  Impl_estimate (pimpl_ self) unlocking_script locking_script tx input_index
                default_limits.

Definition estimate_with_limits (self : CostEstimator)
    (unlocking_script locking_script : Script) (tx : Transaction)
    (input_index : N) (limits : EstimatorLimits) : outcome CostEstimate :=
  Impl_estimate (pimpl_ self) unlocking_script locking_script tx input_index
                limits.

(** ** Specification-side definitions for the sighash-size oracle *)

Definition sum_bytes {A : Type} (f : A -> Z) (l : list A) : Z :=
  fold_right (fun x acc => f x + acc) 0 l.

Definition anyone_can_pay (sighash_type : N) : bool :=
  negb (N.land sighash_type SIGHASH_ANYONECANPAY =? 0)%N.

Definition base_type (sighash_type : N) : N := N.land sighash_type 0x1f.

(** The inputs section of the preimage as the source sums it. *)
Definition inputs_section (tx : Transaction) (input_index : N)
    (sighash_type : N) : Z :=
  if anyone_can_pay sighash_type then
    1 + from_option input_bytes 0 (inputs tx !! N.to_nat input_index)
  else 1 + sum_bytes input_bytes (inputs tx).

(** The outputs section as the source sums it: under [SINGLE] the count
    byte is added together with the output, inside the bounds guard. *)
Definition outputs_section (tx : Transaction) (input_index : N)
    (sighash_type : N) : Z :=
  if (base_type sighash_type =? SIGHASH_SINGLE)%N then
    from_option (fun o => 1 + output_bytes o) 0
                (outputs tx !! N.to_nat input_index)
  else if (base_type sighash_type =? SIGHASH_NONE)%N then 1
  else 1 + sum_bytes output_bytes (outputs tx).

(** The outputs section in the words of the specification: under [SINGLE]
    the output at [input_index], if it exists, plus a one-byte count. *)
Definition spec_outputs_section (tx : Transaction) (input_index : N)
    (sighash_type : N) : Z :=
  if (base_type sighash_type =? SIGHASH_SINGLE)%N then
    1 + from_option output_bytes 0 (outputs tx !! N.to_nat input_index)
  else if (base_type sighash_type =? SIGHASH_NONE)%N then 1
  else 1 + sum_bytes output_bytes (outputs tx).

(** The preimage size in the words of the specification. *)
Definition spec_sighash_size (tx : Transaction) (input_index : N)
    (sighash_type : N) : Z :=
  4 + 4 + 4 + inputs_section tx input_index sighash_type
  + spec_outputs_section tx input_index sighash_type.

(** ** Sample inputs *)

Definition sample_input : TxInput := {|
  prevout_hash := repeat x00 32;
  prevout_index := 0;
  script_sig := [];
  sequence := 0xffffffff
|}.

Definition sample_output : TxOutput := {|
  value := 100000;
  script_pubkey := [x76; xa9; x14]
|}.

(** One input, no output. *)
Definition tx_no_output : Transaction := {|
  version := 1; inputs := [sample_input]; outputs := []; locktime := 0
|}.

(** One input, one output (the shape of the repository's tests). *)
Definition tx_simple : Transaction := {|
  version := 1; inputs := [sample_input]; outputs := [sample_output];
  locktime := 0
|}.

(** An estimator whose model file loaded no constants and no opcodes. *)
Definition default_estimator : CostEstimator := {| pimpl_ := default_Impl |}.

(** ** Specification-side definitions for the executor *)

(** The warnings the loop can emit, as opposed to the size check before
    it. *)
Definition loop_warnings : list string :=
  ["Opcode count limit exceeded"; "Stack byte limit exceeded";
   "Stack item count limit exceeded"].

(** [ScriptTooLarge] of the specification is this string in the source. *)
Definition ScriptTooLarge : string := "Script exceeds size limit".

(** The branch taken by an opcode byte [b] read just before position
    [pc']: one of the two push branches, a case of the [switch], or its
    [default]. *)
Definition takes_push_branch (combined : Script) (pc' : nat) (b : Z) : bool :=
  ((0 <? b) && (b <? 0x4c))
  || match (if b =? OP_PUSHDATA1 then combined !! pc' else None) with
     | Some _ => true
     | None => false
     end.

(** The [case] labels of the [switch]. *)
Definition handled_by_switch (b : Z) : bool :=
  (b =? OP_DUP) || (b =? OP_SWAP) || (b =? OP_CAT)
  || ((b =? OP_SHA256) || (b =? OP_HASH256)) || (b =? OP_CHECKSIG).

Definition reaches_default (combined : Script) (pc' : nat) (b : Z) : bool :=
  negb (takes_push_branch combined pc' b) && negb (handled_by_switch b).

(** The opcodes the loop executes, each with the state it is executed in. *)
Fixpoint executed (M : Impl) (tx : Transaction) (input_index : N)
    (limits : EstimatorLimits) (combined : Script) (fuel : nat)
    (st : ExecState) : list (byte * ExecState) :=
  match combined !! pc st with
  | None => []
  | Some op_byte =>
      if max_opcode_count limits <=? opcode_count (result st) then []
      else
        match fuel with
        | O => []
        | S fuel =>
            match execute_step M tx input_index limits combined op_byte st
            with
            | None => []
            | Some (true, _) => [(op_byte, st)]
            | Some (false, st') =>
                (op_byte, st)
                :: executed M tx input_index limits combined fuel st'
            end
        end
  end.

(** The opcodes executed by a call of [Impl::estimate]. *)
Definition executed_by (M : Impl) (unlocking locking : Script)
    (tx : Transaction) (input_index : N) (limits : EstimatorLimits)
  : list (byte * ExecState) :=
  let combined := unlocking ++ locking in
  if max_script_size limits <? Z.of_nat (length combined) then []
  else
    match u64_of_double
            (dmul (c_parse_per_byte M)
                  (double_of_u64 (Z.of_nat (length combined)))) with
    | None => []
    | Some p =>
        executed M tx input_index limits combined (length combined)
                 (initial_state p)
    end.

(** What the [default] case adds to [total_cycles] and to no category of
    the breakdown: the literal 100 and the model's figure for the opcode. *)
Definition fallback_charge (M : Impl) (combined : Script)
    (e : byte * ExecState) : Z :=
  if reaches_default combined (S (pc e.2)) (byte_val e.1) then
    100 + default 0 (calculate_opcode_cost M (byte_val e.1) [])
  else 0.

(** The pass goes through the [OP_CHECKSIG] case. *)
Definition runs_checksig (combined : Script) (e : byte * ExecState) : bool :=
  negb (takes_push_branch combined (S (pc e.2)) (byte_val e.1))
  && (byte_val e.1 =? OP_CHECKSIG).

Definition sum_list (l : list Z) : Z := fold_right Z.add 0 l.

(** The cycles of a call that no category of the breakdown holds. *)
Definition unattributed (M : Impl) (unlocking locking : Script)
    (tx : Transaction) (input_index : N) (limits : EstimatorLimits) : Z :=
  sum_list (map (fallback_charge M (unlocking ++ locking))
                (executed_by M unlocking locking tx input_index limits)).

Definition checksig_free (M : Impl) (unlocking locking : Script)
    (tx : Transaction) (input_index : N) (limits : EstimatorLimits) : bool :=
  forallb (fun e => negb (runs_checksig (unlocking ++ locking) e))
          (executed_by M unlocking locking tx input_index limits).

(** The right-hand side of the accounting identity, in [uint64_t]
    arithmetic before the final reduction. *)
Definition breakdown_sum (b : Breakdown) : Z :=
  parsing b + dispatch b + stack_ops b + byte_ops b + hashing b
  + signatures b + control_flow b.

(** The invariant behind the accounting identity: the total is the sum of
    the categories plus [G] cycles held by no category. *)
Definition accounted (G : Z) (st : ExecState) : Prop :=
  total_cycles (result st)
  = wrap64 (breakdown_sum (breakdown (result st)) + G).

(** The number of stack items the [switch] case of an opcode looks for. *)
Definition stack_demand (b : Z) : nat :=
  if b =? OP_DUP then 1
  else if b =? OP_SWAP then 2
  else if b =? OP_CAT then 2
  else if (b =? OP_SHA256) || (b =? OP_HASH256) then 1
  else if b =? OP_CHECKSIG then 2
  else 0.

(** The value of [params] at the trailing
    [result.total_cycles += calculate_opcode_cost(op, params)]. *)
Definition trailing_params (b : Z) (stack : list Z) : list Z :=
  if b =? OP_DUP then
    match stack with top_size :: _ => [top_size] | [] => [] end
  else if b =? OP_SWAP then []
  else if b =? OP_CAT then
    match stack with
    | size_b :: size_a :: _ => [wrap64 (size_a + size_b)]
    | _ => []
    end
  else if (b =? OP_SHA256) || (b =? OP_HASH256) then
    match stack with input_size :: _ => [input_size] | [] => [] end
  else [].

(** What one pass adds to [total_cycles], before reduction modulo
    [2^64]. *)
Definition step_charge (M : Impl) (combined : Script)
    (e : byte * ExecState) : Z :=
  default 0 (u64_of_double (c_dispatch M))
  + (if takes_push_branch combined (S (pc e.2)) (byte_val e.1) then 0
     else
       (if handled_by_switch (byte_val e.1) then 0 else 100)
       + default 0 (calculate_opcode_cost M (byte_val e.1)
                      (trailing_params (byte_val e.1) (stack_sizes e.2)))).

(** Everything in the loop state that no cost figure flows into. *)
Definition shape (st : ExecState)
  : list Z * Z * nat * Z * Z * Z * Z * list string :=
  (stack_sizes st, current_stack_bytes st, pc st,
   opcode_count (result st), signature_count (result st),
   peak_stack_bytes (result st), peak_stack_items (result st),
   warnings (result st)).

(** The total of a call before reduction modulo [2^64]: the parsing charge
    and the charges of every pass. *)
Definition exact_total (M : Impl) (unlocking locking : Script)
    (tx : Transaction) (input_index : N) (limits : EstimatorLimits) : Z :=
  let combined := unlocking ++ locking in
  if max_script_size limits <? Z.of_nat (length combined) then 0
  else
    default 0 (u64_of_double
                 (dmul (c_parse_per_byte M)
                       (double_of_u64 (Z.of_nat (length combined)))))
    + sum_list (map (step_charge M combined)
                    (executed_by M unlocking locking tx input_index limits)).

(** One model charges no more than another on every figure the executor
    asks for. *)
Definition figures_le (M1 M2 : Impl) : Prop :=
  (forall d1 d2,
     u64_of_double (c_dispatch M1) = Some d1 ->
     u64_of_double (c_dispatch M2) = Some d2 -> d1 <= d2) /\
  (forall n p1 p2,
     0 <= n ->
     u64_of_double (dmul (c_parse_per_byte M1) (double_of_u64 n)) = Some p1 ->
     u64_of_double (dmul (c_parse_per_byte M2) (double_of_u64 n)) = Some p2 ->
     p1 <= p2) /\
  (forall op ps c1 c2,
     Forall (fun p => 0 <= p) ps ->
     calculate_opcode_cost M1 op ps = Some c1 ->
     calculate_opcode_cost M2 op ps = Some c2 -> c1 <= c2).

(** ** Binary64 values: specification-side definitions *)

(** [m / 2^k] rounded to the nearest integer, ties to even. *)
Definition rne (m k : Z) : Z :=
  let q := m / 2 ^ k in
  let r := m mod 2 ^ k in
  match 2 * r ?= 2 ^ k with
  | Lt => q
  | Eq => if Z.even q then q else q + 1
  | Gt => q + 1
  end.

(** After [j] steps on [m]: the quotient, the round bit and the sticky
    bit. *)
Definition shr_inv (m j : Z) (mrs : shr_record) : Prop :=
  shr_m mrs = m / 2 ^ j /\
  shr_r mrs = (2 ^ j <=? 2 * (m mod 2 ^ j)) /\
  shr_s mrs = negb ((2 * (m mod 2 ^ j)) mod 2 ^ j =? 0).

(** Overflow to [+inf] past the largest exponent. *)
Definition finite_or_inf (q t : Z) : spec_float :=
  if t <=? 971 then S754_finite false (Z.to_pos q) t
  else S754_infinity false.

(** The float of mantissa [q <= 2^53] and exponent [t]. *)
Definition canon (q t : Z) : spec_float :=
  if q =? 0 then S754_zero false
  else if q =? 2 ^ 53 then finite_or_inf (2 ^ 52) (t + 1)
  else finite_or_inf q t.

(** The binary64 nearest to [v / 2^c], for an integer [v > 0]. *)
Definition round_pos (c v : Z) : spec_float :=
  let t := fexp 53 1024 (Zdigits2 v - c) in
  canon (rne v (t + c)) t.

(** Zero of either sign, or a positive finite number in canonical form. *)
Definition nnf (x : spec_float) : bool :=
  match x with
  | S754_zero _ => true
  | S754_finite false m e => bounded 53 1024 m e
  | _ => false
  end.

(** The value of a finite number in units of [2^-1074], the least positive
    binary64. *)
Definition V (x : spec_float) : Z :=
  match x with
  | S754_finite _ m e => Z.pos m * 2 ^ (e + 1074)
  | _ => 0
  end.

(** The scaled value of [round_pos c v] when the exponent range is
    unbounded above. *)
Definition W (c v : Z) : Z :=
  let t := fexp 53 1024 (Zdigits2 v - c) in
  rne v (t + c) * 2 ^ (t + 1074).

(** The status of a result [r] computed from the exact scaled value [v]. *)
Definition rounds_to (c : Z) (v : Z) (r : spec_float) : Prop :=
  (v = 0 /\ nnf r = true /\ V r = 0) \/
  (0 < v /\ W c v < 2 ^ 2098 /\ nnf r = true /\ V r = W c v) \/
  (0 < v /\ 2 ^ 2098 <= W c v /\ r = S754_infinity false).

(** Finite and non-negative, or not castable at all. *)
Definition nnb (x : spec_float) : Prop :=
  nnf x = true \/ x = S754_infinity false \/ x = S754_nan.

(** Two finite non-negative values in order. *)
Definition below (x y : spec_float) : Prop :=
  nnf x = true /\ nnf y = true /\ V x <= V y.

(** ** Ordering of cost models *)

(** [x <= y] as the IEEE comparison has it (false on NaN). *)
Definition dle (x y : double) : Prop := SFleb x y = true.

(** Every coefficient is a finite non-negative binary64 value. *)
Definition OpcodeCostModel_ok (m : OpcodeCostModel) : Prop :=
  nnf (c0 m) = true /\ nnf (c1 m) = true /\ nnf (c_ecdsa m) = true /\
  nnf (c_preimage_per_byte m) = true /\ nnf (c_keyscan m) = true /\
  nnf (c_setup m) = true /\ nnf (c_alloc m) = true.

Definition Impl_ok (M : Impl) : Prop :=
  nnf (c_dispatch M) = true /\ nnf (c_parse_per_byte M) = true /\
  forall op m, opcode_costs M !! op = Some m -> OpcodeCostModel_ok m.

(** Same formula, coefficients in order. *)
Definition OpcodeCostModel_le (m1 m2 : OpcodeCostModel) : Prop :=
  type m1 = type m2 /\
  dle (c0 m1) (c0 m2) /\ dle (c1 m1) (c1 m2) /\
  dle (c_ecdsa m1) (c_ecdsa m2) /\
  dle (c_preimage_per_byte m1) (c_preimage_per_byte m2) /\
  dle (c_keyscan m1) (c_keyscan m2) /\
  dle (c_setup m1) (c_setup m2) /\ dle (c_alloc m1) (c_alloc m2).

(** The same opcodes are loaded, and every coefficient is in order. *)
Definition Impl_le (M1 M2 : Impl) : Prop :=
  dle (c_dispatch M1) (c_dispatch M2) /\
  dle (c_parse_per_byte M1) (c_parse_per_byte M2) /\
  forall op,
    option_Forall2 OpcodeCostModel_le
      (opcode_costs M1 !! op) (opcode_costs M2 !! op).

(** ** Sample cost models *)

(** [2^62] and [2^63] as binary64. *)
Definition d_2p62 : double := S754_finite false 4503599627370496 10.
Definition d_2p63 : double := S754_finite false 4503599627370496 11.

Definition model_dispatch_2p62 : Impl := {|
  c_dispatch := d_2p62; c_parse_per_byte := d_0_8; opcode_costs := ∅
|}.

Definition model_dispatch_2p63 : Impl := {|
  c_dispatch := d_2p63; c_parse_per_byte := d_0_8; opcode_costs := ∅
|}.

(** [OP_DUP] at [5.0 + slope * n]. *)
Definition dup_linear (slope : double) : OpcodeCostModel := {|
  type := LINEAR; c0 := d_5_0; c1 := slope; c_ecdsa := d_0_0;
  c_preimage_per_byte := d_0_0; c_keyscan := d_0_0; c_setup := d_0_0;
  c_alloc := d_0_0
|}.

Definition model_dup (slope : double) : Impl := {|
  c_dispatch := d_5_0; c_parse_per_byte := d_0_8;
  opcode_costs := {[ OP_DUP := dup_linear slope ]}
|}.

(** [OP_DUP] at cost zero. *)
Definition dup_free : OpcodeCostModel := {|
  type := CONSTANT; c0 := d_0_0; c1 := d_0_0; c_ecdsa := d_0_0;
  c_preimage_per_byte := d_0_0; c_keyscan := d_0_0; c_setup := d_0_0;
  c_alloc := d_0_0
|}.

Definition model_dup_free : Impl := {|
  c_dispatch := d_5_0; c_parse_per_byte := d_0_8;
  opcode_costs := {[ OP_DUP := dup_free ]}
|}.

(** Pointwise order on the coefficients that both models have. *)
Definition Impl_le_common (M1 M2 : Impl) : Prop :=
  dle (c_dispatch M1) (c_dispatch M2) /\
  dle (c_parse_per_byte M1) (c_parse_per_byte M2) /\
  forall op m1 m2,
    opcode_costs M1 !! op = Some m1 -> opcode_costs M2 !! op = Some m2 ->
    OpcodeCostModel_le m1 m2.

(** Whatever the larger model can charge, the smaller model can charge too,
    and no more. *)
Definition figures_transfer (M1 M2 : Impl) : Prop :=
  (forall d2,
     u64_of_double (c_dispatch M2) = Some d2 ->
     exists d1, u64_of_double (c_dispatch M1) = Some d1 /\ d1 <= d2) /\
  (forall n p2,
     0 <= n ->
     u64_of_double (dmul (c_parse_per_byte M2) (double_of_u64 n)) = Some p2 ->
     exists p1,
       u64_of_double (dmul (c_parse_per_byte M1) (double_of_u64 n)) = Some p1
       /\ p1 <= p2) /\
  (forall op ps c2,
     Forall (fun p => 0 <= p) ps ->
     calculate_opcode_cost M2 op ps = Some c2 ->
     exists c1, calculate_opcode_cost M1 op ps = Some c1 /\ c1 <= c2).

(** [-5.0], and a model whose dispatch overhead is negative. *)
Definition d_m5_0 : double := S754_finite true 5629499534213120 (-50).

Definition model_dispatch_negative : Impl := {|
  c_dispatch := d_m5_0; c_parse_per_byte := d_0_8; opcode_costs := ∅
|}.

(** ** Further functions of the library *)

(** [Transaction::serialize_size], with its [size_t] accumulator. *)
Definition serialize_size (tx : Transaction) : Z :=
  let size := 4 in
  let size := wrap64 (size + 1) in
  let size :=
    fold_left
      (fun size input =>
         let size := wrap64 (size + 36) in
         let size :=
           wrap64 (size + wrap64 (1 + Z.of_nat (length (script_sig input)))) in
         wrap64 (size + 4))
      (inputs tx) size in
  let size := wrap64 (size + 1) in
  let size :=
    fold_left
      (fun size output =>
         let size := wrap64 (size + 8) in
         wrap64 (size
                 + wrap64 (1 + Z.of_nat (length (script_pubkey output)))))
      (outputs tx) size in
  wrap64 (size + 4).

Definition ddiv : double -> double -> double := SFdiv 53 1024.

(** [CostEstimate::to_fee]: [static_cast<double>(total_cycles) /
    cycles_per_unit], the divisor converted to [double] as well. *)
Definition to_fee (self : CostEstimate) (cycles_per_unit : Z) : double :=
  ddiv (double_of_u64 (total_cycles self)) (double_of_u64 cycles_per_unit).

(** [85000.0] and [2.5], the defaults [load_model] gives a signature
    model. *)
Definition d_85000_0 : double := S754_finite false 5841155522560000 (-36).
Definition d_2_5 : double := S754_finite false 5629499534213120 (-51).

(** The literals [150.0] and [300.0]. *)
Definition d_150_0 : double := S754_finite false 5277655813324800 (-45).
Definition d_300_0 : double := S754_finite false 5277655813324800 (-44).

(** The model file ([CostEstimator::Impl::load_model]).  The JSON library
    is not part of the sources.  A parsed document is taken as the source
    sees it through the four accessors it calls: [value(key, default)],
    [contains(key)], [operator[]] and [items()]. *)
(** What [j.value(key, default)] finds under [key] in the object [j]:
    nothing, a value of the type asked for, or a value that does not
    convert to it ([type_error]). *)
Inductive field (A : Type) : Type :=
  | Absent
  | Present (a : A)
  | Mistyped.
Arguments Absent {A}.
Arguments Present {A} a.
Arguments Mistyped {A}.

(** [j.value(key, dflt)]; [None] is the exception. *)
Definition json_value {A : Type} (f : field A) (dflt : A) : option A :=
  match f with
  | Absent => Some dflt
  | Present a => Some a
  | Mistyped => None
  end.

(** The keys read from the value of one item of ["opcodes"]. *)
Record OpcodeData := {
  od_model : field string;
  od_c0 : field double;
  od_c1 : field double;
  od_c_alloc : field double;
  od_c_ecdsa : field double;
  od_c_preimage_per_byte : field double;
  od_c_keyscan : field double;
  od_c_setup : field double
}.

(** The value of an item: [value] throws on anything but an object. *)
Inductive OpcodeEntry : Type :=
  | EntryNotObject
  | EntryObject (d : OpcodeData).

Record Constants := {
  k_c_dispatch : field double;
  k_c_parse_per_byte : field double
}.

(** The document, if it is an object: ["constants"] is [Mistyped] when
    present and not an object; ["opcodes"] is the sequence [items()]
    yields, [None] when the key is absent. *)
Record ModelObject := {
  j_profile_id : field string;
  j_constants : field Constants;
  j_opcodes : option (list (string * OpcodeEntry))
}.

Inductive ModelJson : Type :=
  | JNotObject
  | JObject (o : ModelObject).

(** What [std::ifstream file(path)] and [file >> model] give. *)
Inductive ModelFile : Type :=
  | Unopenable
  | Unparsable
  | Parsed (j : ModelJson).

Inductive LoadError : Type :=
  | runtime_error
  | parse_error
  | type_error.

(** How the constructor ends: the members set, an exception, or the copy
    of a [cost_model] whose [type] was never assigned. *)
Inductive LoadResult : Type :=
  | Loaded (profile_id : string) (M : Impl)
  | Thrown (e : LoadError)
  | LoadUndefined.

(** [OpcodeCostModel cost_model;]: the member initialisers, and a [type]
    that has none. *)
Record CostModelLocal := {
  l_type : option ModelType;
  l_c0 : double;
  l_c1 : double;
  l_c_ecdsa : double;
  l_c_preimage_per_byte : double;
  l_c_keyscan : double;
  l_c_setup : double;
  l_c_alloc : double
}.

(** The [if]/[else if] chain on [model_type]; [None] is [type_error]. *)
Definition read_cost_model (d : OpcodeData) : option CostModelLocal :=
  model_type ← json_value (od_model d) "constant"%string;
  if String.eqb model_type "constant" then
    c0 ← json_value (od_c0 d) d_0_0;
    Some {| l_type := Some CONSTANT; l_c0 := c0; l_c1 := d_0_0;
            l_c_ecdsa := d_0_0; l_c_preimage_per_byte := d_0_0;
            l_c_keyscan := d_0_0; l_c_setup := d_0_0; l_c_alloc := d_0_0 |}
  else if String.eqb model_type "linear" then
    c0 ← json_value (od_c0 d) d_0_0;
    c1 ← json_value (od_c1 d) d_0_0;
    c_alloc ← json_value (od_c_alloc d) d_0_0;
    Some {| l_type := Some LINEAR; l_c0 := c0; l_c1 := c1;
            l_c_ecdsa := d_0_0; l_c_preimage_per_byte := d_0_0;
            l_c_keyscan := d_0_0; l_c_setup := d_0_0; l_c_alloc := c_alloc |}
  else if String.eqb model_type "signature" then
    c_ecdsa ← json_value (od_c_ecdsa d) d_85000_0;
    c_pre ← json_value (od_c_preimage_per_byte d) d_2_5;
    Some {| l_type := Some SIGNATURE; l_c0 := d_0_0; l_c1 := d_0_0;
            l_c_ecdsa := c_ecdsa; l_c_preimage_per_byte := c_pre;
            l_c_keyscan := d_0_0; l_c_setup := d_0_0; l_c_alloc := d_0_0 |}
  else if String.eqb model_type "multisig" then
    c_ecdsa ← json_value (od_c_ecdsa d) d_85000_0;
    c_pre ← json_value (od_c_preimage_per_byte d) d_2_5;
    c_keyscan ← json_value (od_c_keyscan d) d_150_0;
    c_setup ← json_value (od_c_setup d) d_300_0;
    Some {| l_type := Some MULTISIG; l_c0 := d_0_0; l_c1 := d_0_0;
            l_c_ecdsa := c_ecdsa; l_c_preimage_per_byte := c_pre;
            l_c_keyscan := c_keyscan; l_c_setup := c_setup;
            l_c_alloc := d_0_0 |}
  else
    Some {| l_type := None; l_c0 := d_0_0; l_c1 := d_0_0;
            l_c_ecdsa := d_0_0; l_c_preimage_per_byte := d_0_0;
            l_c_keyscan := d_0_0; l_c_setup := d_0_0; l_c_alloc := d_0_0 |}.

(** The chain that maps an opcode name to the enumerator. *)
Definition opcode_of_name (opcode_name : string) : option Z :=
  if String.eqb opcode_name "OP_DUP" then Some OP_DUP
  else if String.eqb opcode_name "OP_SWAP" then Some OP_SWAP
  else if String.eqb opcode_name "OP_CAT" then Some OP_CAT
  else if String.eqb opcode_name "OP_SPLIT" then Some OP_SPLIT
  else if String.eqb opcode_name "OP_SHA256" then Some OP_SHA256
  else if String.eqb opcode_name "OP_HASH256" then Some OP_HASH256
  else if String.eqb opcode_name "OP_CHECKSIG" then Some OP_CHECKSIG
  else if String.eqb opcode_name "OP_CHECKMULTISIG" then
    Some OP_CHECKMULTISIG
  else None.

(** The opcodes a model file can set. *)
Definition loadable_opcodes : list Z :=
  [OP_DUP; OP_SWAP; OP_CAT; OP_SPLIT; OP_SHA256; OP_HASH256; OP_CHECKSIG;
   OP_CHECKMULTISIG].

(** [opcode_costs[op] = cost_model]; [None] is the copy of an unassigned
    [type]. *)
Definition store_cost_model (l : CostModelLocal)
  : option OpcodeCostModel :=
  ty ← l_type l;
  Some {| type := ty; c0 := l_c0 l; c1 := l_c1 l; c_ecdsa := l_c_ecdsa l;
          c_preimage_per_byte := l_c_preimage_per_byte l;
          c_keyscan := l_c_keyscan l; c_setup := l_c_setup l;
          c_alloc := l_c_alloc l |}.

(** The loop over ["opcodes"]. *)
Fixpoint load_opcodes (items : list (string * OpcodeEntry))
    (costs : gmap Z OpcodeCostModel)
  : LoadError + option (gmap Z OpcodeCostModel) :=
  match items with
  | [] => inr (Some costs)
  | (opcode_name, entry) :: items =>
      match entry with
      | EntryNotObject => inl type_error
      | EntryObject d =>
          match read_cost_model d with
          | None => inl type_error
          | Some cost_model =>
              match opcode_of_name opcode_name with
              | None => load_opcodes items costs
              | Some op =>
                  match store_cost_model cost_model with
                  | None => inr None
                  | Some m => load_opcodes items (<[op := m]> costs)
                  end
              end
          end
      end
  end.

(** [Impl::load_model] on a freshly constructed [Impl]. *)
Definition load_model (file : ModelFile) : LoadResult :=
  match file with
  | Unopenable => Thrown runtime_error
  | Unparsable => Thrown parse_error
  | Parsed JNotObject => Thrown type_error
  | Parsed (JObject model) =>
      match json_value (j_profile_id model) "unknown"%string with
      | None => Thrown type_error
      | Some profile_id =>
          match
            (match j_constants model with
             | Absent => Some (d_5_0, d_0_8)
             | Mistyped => None
             | Present k =>
                 c_dispatch ← json_value (k_c_dispatch k) d_5_0;
                 c_parse ← json_value (k_c_parse_per_byte k) d_0_8;
                 Some (c_dispatch, c_parse)
             end)
          with
          | None => Thrown type_error
          | Some (c_dispatch, c_parse) =>
              match j_opcodes model with
              | None =>
                  Loaded profile_id
                    {| c_dispatch := c_dispatch;
                       c_parse_per_byte := c_parse; opcode_costs := ∅ |}
              | Some items =>
                  match load_opcodes items ∅ with
                  | inl e => Thrown e
                  | inr None => LoadUndefined
                  | inr (Some costs) =>
                      Loaded profile_id
                        {| c_dispatch := c_dispatch;
                           c_parse_per_byte := c_parse;
                           opcode_costs := costs |}
                  end
              end
          end
      end
  end.

(** ** Auxiliary definitions for the executor *)

(** The counters of the loop: on entry to a pass, no more opcodes have been
    counted than bytes passed, and no more items stacked or signatures
    counted than opcodes counted. *)
Definition counters_ok (limits : EstimatorLimits) (combined : Script)
    (st : ExecState) : Prop :=
  0 <= opcode_count (result st) <= max_opcode_count limits /\
  opcode_count (result st) <= Z.of_nat (pc st) /\
  opcode_count (result st) <= Z.of_nat (length combined) /\
  Z.of_nat (length (stack_sizes st)) <= opcode_count (result st) /\
  0 <= peak_stack_items (result st) <= opcode_count (result st) /\
  0 <= signature_count (result st) <= opcode_count (result st).

(** One pass of the loop body up to and including the two [std::max]
    updates, before the stack limits are checked. *)
Definition pass_body (M : Impl) (tx : Transaction) (input_index : N)
    (combined : Script) (op_byte : byte) (st : ExecState)
  : option ExecState :=
  let pc' := S (pc st) in
  let st := with_result incr_opcode_count st in
  d ← u64_of_double (c_dispatch M);
  let st := with_result (fun r => add_total d (add_dispatch d r)) st in
  let b := byte_val op_byte in
  st ←
    (if (0 <? b) && (b <? 0x4c) then
       Some (push_data b pc' st)
     else
       match (if b =? OP_PUSHDATA1 then combined !! pc' else None) with
       | Some len => Some (push_data (byte_val len) (S pc') st)
       | None => execute_opcode M tx input_index b pc' st
       end);
  Some (with_result
          (track_peaks (current_stack_bytes st) (length (stack_sizes st)))
          st).

(** The two stack-limit checks that end a pass. *)
Definition check_stack_limits (limits : EstimatorLimits) (st : ExecState)
  : bool * ExecState :=
  if max_stack_item_size limits <? current_stack_bytes st then
    (true, with_result (push_warning "Stack byte limit exceeded") st)
  else if max_stack_items limits <? Z.of_nat (length (stack_sizes st)) then
    (true, with_result (push_warning "Stack item count limit exceeded") st)
  else (false, st).

(** Limits that differ in nothing the code reads. *)
Definition with_max_total_cycles (c : Z) (limits : EstimatorLimits)
  : EstimatorLimits := {|
  max_script_size := max_script_size limits;
  max_stack_items := max_stack_items limits;
  max_stack_item_size := max_stack_item_size limits;
  max_opcode_count := max_opcode_count limits;
  max_total_cycles := c
|}.

(** Every limit of [l1] is at most that of [l2]. *)
Definition limits_le (l1 l2 : EstimatorLimits) : Prop :=
  max_script_size l1 <= max_script_size l2 /\
  max_stack_items l1 <= max_stack_items l2 /\
  max_stack_item_size l1 <= max_stack_item_size l2 /\
  max_opcode_count l1 <= max_opcode_count l2.

(** An estimate with the [signatures] category blanked. *)
Definition without_signatures (r : CostEstimate) : CostEstimate :=
  with_breakdown
    (fun b => {|
       parsing := parsing b; dispatch := dispatch b;
       stack_ops := stack_ops b; byte_ops := byte_ops b;
       hashing := hashing b; signatures := 0;
       control_flow := control_flow b |}) r.

(** Loop states that differ in the [signatures] category at most. *)
Definition same_but_signatures (st1 st2 : ExecState) : Prop :=
  without_signatures (result st1) = without_signatures (result st2) /\
  stack_sizes st1 = stack_sizes st2 /\
  current_stack_bytes st1 = current_stack_bytes st2 /\
  pc st1 = pc st2.

(** The passes of a call that go through the [OP_CHECKSIG] case. *)
Definition checksig_passes (M : Impl) (unlocking locking : Script)
    (tx : Transaction) (input_index : N) (limits : EstimatorLimits)
  : list (byte * ExecState) :=
  List.filter (runs_checksig (unlocking ++ locking))
              (executed_by M unlocking locking tx input_index limits).

(** A push in one of the two encodings the executor decodes: the opcode
    is the length (1 to 75 bytes), or [OP_PUSHDATA1] and a length byte (0
    to 255 bytes). *)
Inductive PushOp : Type :=
  | Direct (data : list byte)
  | Pushdata1 (data : list byte).

Definition push_data_of (p : PushOp) : list byte :=
  match p with Direct data | Pushdata1 data => data end.

(** The byte of value [n], for [n < 256]. *)
Definition len_byte (n : nat) : byte :=
  default x00 (Byte.of_N (N.of_nat n)).

Definition encode_push (p : PushOp) : Script :=
  match p with
  | Direct data => len_byte (length data) :: data
  | Pushdata1 data => x4c :: len_byte (length data) :: data
  end.

Definition push_ok (p : PushOp) : Prop :=
  match p with
  | Direct data => (1 <= length data <= 75)%nat
  | Pushdata1 data => (length data <= 255)%nat
  end.

Definition push_size (p : PushOp) : Z := Z.of_nat (length (push_data_of p)).

(** The loop state after [n] passes that each push one item, of the sizes
    [sizes] (first pushed first), over [bytes] bytes of script, at a
    dispatch overhead of [d] cycles. *)
Definition after_pushes (d : Z) (sizes : list Z) (bytes : nat)
    (st : ExecState) : ExecState :=
  let n := Z.of_nat (length sizes) in
  let r := result st in
  {| result :=
       {| total_cycles := wrap64 (total_cycles r + n * d);
          breakdown :=
            {| parsing := parsing (breakdown r);
               dispatch := wrap64 (dispatch (breakdown r) + n * d);
               stack_ops := stack_ops (breakdown r);
               byte_ops := byte_ops (breakdown r);
               hashing := hashing (breakdown r);
               signatures := signatures (breakdown r);
               control_flow := control_flow (breakdown r) |};
          peak_stack_bytes :=
            Z.max (peak_stack_bytes r)
                  (current_stack_bytes st + sum_list sizes);
          peak_stack_items :=
            Z.max (peak_stack_items r)
                  (Z.of_nat (length (stack_sizes st)) + n);
          signature_count := signature_count r;
          opcode_count := opcode_count r + n;
          warnings := warnings r |};
     stack_sizes := rev sizes ++ stack_sizes st;
     current_stack_bytes := current_stack_bytes st + sum_list sizes;
     pc := (pc st + bytes)%nat |}.


(** ** Exact binary64 arithmetic: specification-side definitions *)

(** The binary64 nearest to [a / 2^s]. *)
Definition dyadic (a s : Z) : double :=
  binary_normalize 53 1024 a (- s) false.

(** [x] is finite, non-negative and worth exactly [a / 2^s]. *)
Definition exactly (s : Z) (x : double) (a : Z) : Prop :=
  nnf x = true /\ V x = a * 2 ^ (1074 - s).

(** A cost model whose seven coefficients are [k / 2^s] for the numerators
    given. *)
Definition dyadic_model (ty : ModelType) (s k0 k1 ke kp kk ks ka : Z)
  : OpcodeCostModel := {|
  type := ty; c0 := dyadic k0 s; c1 := dyadic k1 s; c_ecdsa := dyadic ke s;
  c_preimage_per_byte := dyadic kp s; c_keyscan := dyadic kk s;
  c_setup := dyadic ks s; c_alloc := dyadic ka s
|}.

(** The formula of each model type over the numerators, in exact integer
    arithmetic. *)
Definition cost_numerator (ty : ModelType) (k0 k1 ke kp kk ks ka : Z)
    (params : list Z) : Z :=
  match ty with
  | CONSTANT => k0
  | LINEAR => k0 + k1 * param params 0 0 + ka
  | SIGNATURE => ke + kp * param params 0 1000
  | MULTISIG =>
      let m := param params 0 1 in
      let n := param params 1 3 in
      let preimage_size := param params 2 1000 in
      m * (ke + kp * preimage_size) + wrap64 (n - m) * kk + ks
  end.

(** ** Further sample inputs *)

(** The default limits with [max_script_size] lowered to 3 bytes. *)
Definition limits_script_3 : EstimatorLimits := {|
  max_script_size := 3; max_stack_items := 10000;
  max_stack_item_size := 100000000; max_opcode_count := 1000000;
  max_total_cycles := 10000000000
|}.


(** A transaction of the same serialized size as [tx_simple] with other
    field values. *)
Definition tx_simple_v2 : Transaction := {|
  version := 2;
  inputs := [{| prevout_hash := repeat xff 32; prevout_index := 7;
                script_sig := []; sequence := 0 |}];
  outputs := [{| value := 1; script_pubkey := [x51; x51; x51] |}];
  locktime := 500000
|}.

Definition checksig_signature : OpcodeCostModel := {|
  type := SIGNATURE; c0 := d_0_0; c1 := d_0_0; c_ecdsa := d_85000_0;
  c_preimage_per_byte := d_2_5; c_keyscan := d_0_0; c_setup := d_0_0;
  c_alloc := d_0_0
|}.

(** [OP_CHECKSIG] at [85000.0 + 2.5 * preimage_size]. *)
Definition model_checksig : Impl := {|
  c_dispatch := d_5_0; c_parse_per_byte := d_0_8;
  opcode_costs := {[ OP_CHECKSIG := checksig_signature ]}
|}.

(** A loop state holding a 71-byte signature under a 33-byte key. *)
Definition state_sig_key : ExecState := {|
  result := empty_estimate; stack_sizes := [33; 71];
  current_stack_bytes := 104; pc := 0
|}.

(** The estimate of [[x01; xaa]] followed by [[x76]] under the default
    constants: a one-byte push and an [OP_DUP]. *)
Definition estimate_push_dup : CostEstimate := {|
  total_cycles := 112;
  breakdown := {| parsing := 2; dispatch := 10; stack_ops := 100;
                  byte_ops := 0; hashing := 0; signatures := 0;
                  control_flow := 0 |};
  peak_stack_bytes := 2;
  peak_stack_items := 2;
  signature_count := 0;
  opcode_count := 2;
  warnings := []
|}.

(** Two pushes against a limit of one item. *)
Definition limits_one_item : EstimatorLimits := {|
  max_script_size := 100000000; max_stack_items := 1;
  max_stack_item_size := 100000000; max_opcode_count := 1000000;
  max_total_cycles := 10000000000
|}.

(** A document with no constants and no opcodes. *)
Definition empty_document : ModelFile :=
  Parsed (JObject {| j_profile_id := Absent; j_constants := Absent;
                     j_opcodes := None |}).

(** A document that sets [OP_CHECKSIG] to the signature model with the
    default coefficients, after an item the loader skips. *)
Definition checksig_items : list (string * OpcodeEntry) :=
  [("OP_PICK"%string,
    EntryObject {| od_model := Absent; od_c0 := Absent; od_c1 := Absent;
                   od_c_alloc := Absent; od_c_ecdsa := Absent;
                   od_c_preimage_per_byte := Absent;
                   od_c_keyscan := Absent; od_c_setup := Absent |});
   ("OP_CHECKSIG"%string,
    EntryObject {| od_model := Present "signature"%string; od_c0 := Absent;
                   od_c1 := Absent; od_c_alloc := Absent;
                   od_c_ecdsa := Absent; od_c_preimage_per_byte := Absent;
                   od_c_keyscan := Absent; od_c_setup := Absent |})].

Definition checksig_document : ModelObject := {|
  j_profile_id := Absent; j_constants := Absent;
  j_opcodes := Some checksig_items
|}.

(** A 71-byte signature by direct push, then a 33-byte key by
    [OP_PUSHDATA1]. *)
Definition pushes_sig_key : list PushOp :=
  [Direct (repeat x00 71); Pushdata1 (repeat x00 33)].

(** * Properties *)

(** ** Machine arithmetic *)

Lemma wrap64_range (z : Z) : 0 <= wrap64 z < 2 ^ 64.
Proof. unfold wrap64. apply Z.mod_pos_bound. lia. Qed.

Lemma wrap64_small (z : Z) : 0 <= z < 2 ^ 64 -> wrap64 z = z.
Proof. unfold wrap64. intros. apply Z.mod_small. lia. Qed.

Lemma wrap64_add_l (a b : Z) : wrap64 (wrap64 a + b) = wrap64 (a + b).
Proof. unfold wrap64. apply Zplus_mod_idemp_l. Qed.

Lemma wrap64_add_r (a b : Z) : wrap64 (a + wrap64 b) = wrap64 (a + b).
Proof. unfold wrap64. apply Zplus_mod_idemp_r. Qed.

Lemma wrap64_idem (a : Z) : wrap64 (wrap64 a) = wrap64 a.
Proof. unfold wrap64. apply Zmod_mod. Qed.

(** Two 64-bit values that differ by a multiple of [2^64] are equal. *)
Lemma wrap64_congr (a b k : Z) : a = b + k * 2 ^ 64 -> wrap64 a = wrap64 b.
Proof. intros ->. unfold wrap64. apply Z_mod_plus_full. Qed.

(** ** The sighash-size oracle *)

Lemma fold_left_wrap {A : Type} (f : A -> Z) (l : list A) (acc : Z) :
  wrap64 (fold_left (fun size x => wrap64 (size + wrap64 (f x))) l
                    (wrap64 acc))
  = wrap64 (acc + sum_bytes f l).
Proof.
  revert acc. induction l as [|x l IH]; intros acc; simpl.
  - rewrite wrap64_idem. f_equal. lia.
  - rewrite wrap64_add_r, wrap64_add_l, IH. f_equal. lia.
Qed.

Lemma fold_left_wrapped {A : Type} (f : A -> Z) (l : list A) (acc : Z) :
  fold_left (fun size x => wrap64 (size + wrap64 (f x))) l (wrap64 acc)
  = wrap64 (acc + sum_bytes f l).
Proof.
  rewrite <- fold_left_wrap. symmetry.
  destruct l as [|x l] using rev_ind; simpl.
  - apply wrap64_idem.
  - rewrite fold_left_app. simpl. apply wrap64_idem.
Qed.

(** Equalities between 64-bit accumulations: every reduction is replaced by
    its quotient equation and the goal is left to linear arithmetic. *)
Ltac wrap64_solve :=
  unfold wrap64 in *; Z.div_mod_to_equations; lia.

(** What the function computes, with the [size_t] accumulation folded into
    one reduction modulo [2^64]. *)
Lemma calculate_sighash_size_unfold (tx : Transaction) (input_index ty : N) :
  calculate_sighash_size tx input_index ty =
  if anyone_can_pay ty then
    match inputs tx !! N.to_nat input_index with
    | Some _ =>
        Some (wrap64 (4 + 4 + 4 + inputs_section tx input_index ty
                      + outputs_section tx input_index ty))
    | None => None
    end
  else
    Some (wrap64 (4 + 4 + 4 + inputs_section tx input_index ty
                  + outputs_section tx input_index ty)).
Proof.
  unfold calculate_sighash_size, inputs_section, outputs_section.
  fold (anyone_can_pay ty). fold (base_type ty).
  destruct (anyone_can_pay ty).
  - destruct (inputs tx !! N.to_nat input_index) as [inp|]; [|reflexivity].
    cbn [mbind option_bind from_option]. f_equal.
    destruct (base_type ty =? SIGHASH_SINGLE)%N.
    + destruct (outputs tx !! N.to_nat input_index) as [o|];
        cbn [from_option]; unfold input_bytes, output_bytes; wrap64_solve.
    + destruct (base_type ty =? SIGHASH_NONE)%N.
      * unfold input_bytes. wrap64_solve.
      * rewrite fold_left_wrapped. unfold input_bytes.
        generalize (sum_bytes output_bytes (outputs tx)). intros.
        wrap64_solve.
  - cbn [mbind option_bind]. f_equal. rewrite fold_left_wrapped.
    generalize (sum_bytes input_bytes (inputs tx)). intros si.
    destruct (base_type ty =? SIGHASH_SINGLE)%N.
    + destruct (outputs tx !! N.to_nat input_index) as [o|];
        cbn [from_option]; unfold output_bytes; wrap64_solve.
    + destruct (base_type ty =? SIGHASH_NONE)%N.
      * wrap64_solve.
      * rewrite fold_left_wrapped.
        generalize (sum_bytes output_bytes (outputs tx)). intros.
        wrap64_solve.
Qed.

(** C4, as the code has it.  Whenever the [ANYONECANPAY] access is in range,
    [calculate_sighash_size] returns, as a 64-bit value, 4 (version) + 4
    (locktime) + 4 (sighash type) + the inputs section (a count byte plus
    [36 + 1 + len(script_sig) + 4] for input [input_index] alone under
    [ANYONECANPAY], for every input otherwise) + the outputs section (under
    [SINGLE]: a count byte and [8 + 1 + len(script_pubkey)] for the output
    at [input_index] when that output exists, nothing at all when it does
    not; under [NONE]: the count byte; under every other base type: a count
    byte plus every output). *)
Theorem sighash_size_formula (tx : Transaction) (input_index ty : N) :
  (anyone_can_pay ty = true ->
   (N.to_nat input_index < length (inputs tx))%nat) ->
  calculate_sighash_size tx input_index ty
  = Some (wrap64 (4 + 4 + 4 + inputs_section tx input_index ty
                  + outputs_section tx input_index ty)).
Proof.
  intros Hidx. rewrite calculate_sighash_size_unfold.
  destruct (anyone_can_pay ty) eqn:Hacp; [|reflexivity].
  destruct (lookup_lt_is_Some_2 (inputs tx) (N.to_nat input_index)
              (Hidx eq_refl)) as [inp ->].
  reflexivity.
Qed.

Lemma sighash_size_formula_witness :
  calculate_sighash_size tx_simple 0 (SIGHASH_SINGLE + SIGHASH_ANYONECANPAY)
  = Some 67.
Proof.
  rewrite (sighash_size_formula tx_simple 0
             (SIGHASH_SINGLE + SIGHASH_ANYONECANPAY)).
  - reflexivity.
  - intros _. simpl. lia.
Defined.

(** C4, as the specification words it, fails: with [SINGLE] and no output
    at [input_index] the source adds no count byte, so the size is one less
    than the specification's formula. *)
Lemma sighash_single_counterexample :
  calculate_sighash_size tx_no_output 0 SIGHASH_SINGLE = Some 54 /\
  spec_sighash_size tx_no_output 0 SIGHASH_SINGLE = 55.
Proof. split; reflexivity. Qed.

(** C10.  [calculate_sighash_size] is well defined exactly when
    [ANYONECANPAY] being set implies [input_index < inputs.size()]: the
    unchecked [tx.inputs[input_index]] is reached only under
    [ANYONECANPAY], and the [SINGLE] output access is guarded. *)
Theorem sighash_size_defined_iff (tx : Transaction) (input_index ty : N) :
  is_Some (calculate_sighash_size tx input_index ty) <->
  (anyone_can_pay ty = true ->
   (N.to_nat input_index < length (inputs tx))%nat).
Proof.
  rewrite calculate_sighash_size_unfold.
  destruct (anyone_can_pay ty).
  - destruct (inputs tx !! N.to_nat input_index) as [inp|] eqn:Hl.
    + split; [intros _ _|intros _; eexists; reflexivity].
      apply lookup_lt_is_Some_1. rewrite Hl. eexists; reflexivity.
    + split.
      * intros [x Hx]. discriminate.
      * intros H. apply lookup_ge_None_1 in Hl. specialize (H eq_refl). lia.
  - split; [intros _ H; discriminate|intros _; eexists; reflexivity].
Qed.

(** ** The executor: shape of one pass *)

(** Case analysis of one pass through the loop body: every conditional,
    every stack shape and every cast of [execute_step] and
    [execute_opcode] is split. *)
Ltac split_step H :=
  unfold execute_step, execute_opcode in H;
  repeat first
    [ progress cbn [mbind option_bind with_result push_data result
                    stack_sizes current_stack_bytes pc fst snd] in H
    | match goal with
      | E : ?c = _ |- _ =>
          match type of H with
          | context [c] =>
              tryif constr_eq E H then fail else rewrite E in H
          end
      end
    | match type of H with
      | context [if ?c then _ else _] =>
          let E := fresh "Econd" in destruct c eqn:E
      end
    | match type of H with
      | context [match ?l with [] => _ | _ :: _ => _ end] =>
          let E := fresh "Estack" in destruct l eqn:E
      end
    | match type of H with
      | context [u64_of_double ?x] =>
          let E := fresh "Ecast" in destruct (u64_of_double x) eqn:E
      end
    | match type of H with
      | context [match ?o with Some _ => _ | None => _ end] =>
          lazymatch o with
          | calculate_opcode_cost _ _ _ => fail
          | calculate_sighash_size _ _ _ => fail
          | _ => let E := fresh "Eopt" in destruct o eqn:E
          end
      end
    | match type of H with
      | context [calculate_sighash_size ?tx ?i ?t] =>
          let E := fresh "Esig" in
          destruct (calculate_sighash_size tx i t) eqn:E
      end
    | match type of H with
      | context [calculate_opcode_cost ?M ?op ?ps] =>
          let E := fresh "Ecost" in
          destruct (calculate_opcode_cost M op ps) eqn:E
      end ];
  try discriminate H.

Lemma execute_step_pc (M : Impl) (tx : Transaction) (input_index : N)
    (limits : EstimatorLimits) (combined : Script) (op_byte : byte)
    (st st' : ExecState) (brk : bool) :
  execute_step M tx input_index limits combined op_byte st = Some (brk, st') ->
  (pc st < pc st')%nat.
Proof.
  intros H. split_step H; inversion H; subst; cbn; lia.
Qed.

(** What a pass leaves alone: it only appends loop warnings (none unless it
    breaks), and never touches [parsing] or [control_flow]. *)
Lemma execute_step_frame (M : Impl) (tx : Transaction) (input_index : N)
    (limits : EstimatorLimits) (combined : Script) (op_byte : byte)
    (st st' : ExecState) (brk : bool) :
  execute_step M tx input_index limits combined op_byte st = Some (brk, st') ->
  (exists ws, warnings (result st') = warnings (result st) ++ ws /\
              Forall (fun w => In w loop_warnings) ws /\
              (brk = false -> ws = [])) /\
  parsing (breakdown (result st')) = parsing (breakdown (result st)) /\
  control_flow (breakdown (result st'))
  = control_flow (breakdown (result st)).
Proof.
  intros H. split_step H; inversion H; subst; cbn;
    (split; [|split; reflexivity]);
    first [ exists []; rewrite app_nil_r;
            split; [reflexivity|split; [constructor|reflexivity]]
          | eexists [_]; split; [reflexivity|];
            split; [|discriminate];
            constructor; [cbn; tauto|constructor] ].
Qed.

(** ** The executor: the loop *)

(** The fuel handed to [run] by [Impl_estimate] is never used up: every
    pass moves [pc] forward. *)
Lemma run_enough_fuel (M : Impl) (tx : Transaction) (input_index : N)
    (limits : EstimatorLimits) (combined : Script) (fuel : nat)
    (st : ExecState) :
  (length combined - pc st <= fuel)%nat ->
  run M tx input_index limits combined fuel st <> OutOfFuel.
Proof.
  revert st. induction fuel as [|fuel IH]; intros st Hfuel; cbn.
  - destruct (combined !! pc st) as [b|] eqn:Hb; [|discriminate].
    apply lookup_lt_Some in Hb. lia.
  - destruct (combined !! pc st) as [b|] eqn:Hb; [|discriminate].
    destruct (max_opcode_count limits <=? opcode_count (result st));
      [discriminate|].
    destruct (execute_step M tx input_index limits combined b st)
      as [[[] st']|] eqn:Hstep; try discriminate.
    apply IH. apply execute_step_pc in Hstep. lia.
Qed.

Lemma Impl_estimate_terminates (M : Impl) (unlocking locking : Script)
    (tx : Transaction) (input_index : N) (limits : EstimatorLimits) :
  Impl_estimate M unlocking locking tx input_index limits <> OutOfFuel.
Proof.
  unfold Impl_estimate.
  destruct (max_script_size limits <? _); [discriminate|].
  destruct (u64_of_double _); [|discriminate].
  match goal with |- context [run ?M ?tx ?i ?l ?c ?f ?s] =>
    pose proof (run_enough_fuel M tx i l c f s) as Hrun;
    destruct (run M tx i l c f s) end; try discriminate.
  intros _. apply Hrun; [cbn; lia|reflexivity].
Qed.

(** More fuel than needed changes nothing. *)
Lemma run_fuel_mono (M : Impl) (tx : Transaction) (input_index : N)
    (limits : EstimatorLimits) (combined : Script) (fuel fuel' : nat)
    (st st' : ExecState) :
  run M tx input_index limits combined fuel st = Returned st' ->
  (fuel <= fuel')%nat ->
  run M tx input_index limits combined fuel' st = Returned st'.
Proof.
  revert fuel' st. induction fuel as [|fuel IH]; intros fuel' st Hrun Hle.
  - destruct fuel'; [assumption|]. cbn in *.
    destruct (combined !! pc st) as [b|]; [|assumption].
    destruct (max_opcode_count limits <=? opcode_count (result st));
      [assumption|discriminate].
  - destruct fuel' as [|fuel']; [lia|]. cbn in *.
    destruct (combined !! pc st) as [b|]; [|assumption].
    destruct (max_opcode_count limits <=? opcode_count (result st));
      [assumption|].
    destruct (execute_step M tx input_index limits combined b st)
      as [[[] st1]|]; try assumption.
    apply IH; [assumption|lia].
Qed.

(** The loop only appends loop warnings and leaves [parsing] alone. *)
Lemma run_frame (M : Impl) (tx : Transaction) (input_index : N)
    (limits : EstimatorLimits) (combined : Script) (fuel : nat)
    (st st' : ExecState) :
  run M tx input_index limits combined fuel st = Returned st' ->
  (exists ws, warnings (result st') = warnings (result st) ++ ws /\
              Forall (fun w => In w loop_warnings) ws) /\
  parsing (breakdown (result st')) = parsing (breakdown (result st)) /\
  control_flow (breakdown (result st'))
  = control_flow (breakdown (result st)).
Proof.
  revert st. induction fuel as [|fuel IH]; intros st Hrun; cbn in Hrun;
    destruct (combined !! pc st) as [b|];
    try (inversion Hrun; subst; split; [exists []|split; reflexivity];
         rewrite app_nil_r; split; [reflexivity|constructor]);
    destruct (max_opcode_count limits <=? opcode_count (result st));
    try (inversion Hrun; subst; cbn; split; [eexists [_]|split; reflexivity];
         split; [reflexivity|]; constructor; [cbn; tauto|constructor]);
    try discriminate.
  destruct (execute_step M tx input_index limits combined b st)
    as [[brk st1]|] eqn:Hstep; [|discriminate].
  apply execute_step_frame in Hstep.
  destruct Hstep as [(ws & Hws & Hall & _) [Hp Hc]].
  destruct brk.
  - inversion Hrun; subst. split; [exists ws; tauto|tauto].
  - apply IH in Hrun. destruct Hrun as [(ws' & Hws' & Hall') [Hp' Hc']].
    split; [|split; congruence].
    exists (ws ++ ws'). rewrite Hws', Hws, app_assoc. split; [reflexivity|].
    apply Forall_app. tauto.
Qed.

(** ** Determinism, default limits *)

(** C8.  [Impl::estimate] reads nothing but its arguments and the model:
    two calls on the same model with identical scripts, transaction, input
    index and limits end in the same outcome, so the two estimates agree on
    the total, on every category of the breakdown, on the peak metrics, on
    the counts, and on the warnings in their order of emission. *)
Theorem estimate_deterministic (M : Impl) (unlocking unlocking' : Script)
    (locking locking' : Script) (tx tx' : Transaction)
    (input_index input_index' : N) (limits limits' : EstimatorLimits)
    (r r' : CostEstimate) :
  unlocking = unlocking' -> locking = locking' -> tx = tx' ->
  input_index = input_index' -> limits = limits' ->
  Impl_estimate M unlocking locking tx input_index limits = Returned r ->
  Impl_estimate M unlocking' locking' tx' input_index' limits' = Returned r' ->
  total_cycles r = total_cycles r' /\
  breakdown r = breakdown r' /\
  peak_stack_bytes r = peak_stack_bytes r' /\
  peak_stack_items r = peak_stack_items r' /\
  signature_count r = signature_count r' /\
  opcode_count r = opcode_count r' /\
  warnings r = warnings r' /\
  r = r'.
Proof.
  intros <- <- <- <- <- Hr Hr'. rewrite Hr in Hr'.
  injection Hr' as <-. repeat split.
Qed.

Lemma estimate_deterministic_witness :
  exists r r',
    Impl_estimate default_Impl [x01; xaa] [x76] tx_simple 0 default_limits
    = Returned r /\
    Impl_estimate default_Impl [x01; xaa] [x76] tx_simple 0 default_limits
    = Returned r' /\
    warnings r = warnings r' /\ r = r'.
Proof.
  assert (Impl_estimate default_Impl [x01; xaa] [x76] tx_simple 0
            default_limits
          = Returned {|
              total_cycles := 112;
              breakdown := {| parsing := 2; dispatch := 10; stack_ops := 100;
                              byte_ops := 0; hashing := 0; signatures := 0;
                              control_flow := 0 |};
              peak_stack_bytes := 2;
              peak_stack_items := 2;
              signature_count := 0;
              opcode_count := 2;
              warnings := [] |}) as H by (vm_compute; reflexivity).
  eexists; eexists.
  split; [exact H|]. split; [exact H|].
  pose proof (estimate_deterministic default_Impl [x01; xaa] [x01; xaa]
                [x76] [x76] tx_simple tx_simple 0%N 0%N default_limits
                default_limits _ _ eq_refl eq_refl eq_refl eq_refl eq_refl
                H H) as H'.
  split; apply H'.
Defined.

(** C9.  [CostEstimator::estimate] is [estimate_with_limits] at a
    default-constructed [EstimatorLimits], whose five members are the
    initialisers of the header. *)
Theorem estimate_is_estimate_with_default_limits (self : CostEstimator)
    (unlocking locking : Script) (tx : Transaction) (input_index : N) :
  estimate self unlocking locking tx input_index
  = estimate_with_limits self unlocking locking tx input_index
      {| max_script_size := 100000000;
         max_stack_items := 10000;
         max_stack_item_size := 100000000;
         max_opcode_count := 1000000;
         max_total_cycles := 10000000000 |}.
Proof. reflexivity. Qed.

(** ** The accounting identity *)

(** One pass keeps the identity, adding to the unattributed part what the
    [default] case charges.  A pass through the [OP_CHECKSIG] case is left
    out: there the category is charged for the preimage size and the total
    for an empty parameter list. *)
Lemma execute_step_accounted (M : Impl) (tx : Transaction) (input_index : N)
    (limits : EstimatorLimits) (combined : Script) (op_byte : byte)
    (st st' : ExecState) (brk : bool) (G : Z) :
  execute_step M tx input_index limits combined op_byte st = Some (brk, st') ->
  runs_checksig combined (op_byte, st) = false ->
  accounted G st ->
  accounted (G + fallback_charge M combined (op_byte, st)) st'.
Proof.
  unfold accounted, fallback_charge, runs_checksig, reaches_default,
    takes_push_branch, handled_by_switch, breakdown_sum.
  cbn [fst snd].
  intros H.
  split_step H; inversion H; subst; clear H;
    repeat match goal with
      | E : _ = _ |- _ => rewrite E
      end;
    cbn; intros Hsig Hacc; try discriminate Hsig;
    rewrite Hacc; clear; wrap64_solve.
Qed.

Lemma run_accounted (M : Impl) (tx : Transaction) (input_index : N)
    (limits : EstimatorLimits) (combined : Script) (fuel : nat)
    (st st' : ExecState) (G : Z) :
  run M tx input_index limits combined fuel st = Returned st' ->
  forallb (fun e => negb (runs_checksig combined e))
          (executed M tx input_index limits combined fuel st) = true ->
  accounted G st ->
  accounted
    (G + sum_list (map (fallback_charge M combined)
                       (executed M tx input_index limits combined fuel st)))
    st'.
Proof.
  revert st G. induction fuel as [|fuel IH]; intros st G Hrun Hfree Hacc;
    cbn in Hrun, Hfree |- *;
    destruct (combined !! pc st) as [b|];
    try (inversion Hrun; subst; cbn; rewrite Z.add_0_r; exact Hacc);
    destruct (max_opcode_count limits <=? opcode_count (result st));
    try (inversion Hrun; subst; cbn; rewrite Z.add_0_r; exact Hacc);
    try discriminate.
  destruct (execute_step M tx input_index limits combined b st)
    as [[[] st1]|] eqn:Hstep; [| |discriminate].
  - inversion Hrun; subst. cbn in Hfree |- *.
    apply andb_prop in Hfree. destruct Hfree as [Hb _].
    apply negb_true_iff in Hb. rewrite Z.add_0_r.
    eapply execute_step_accounted; eassumption.
  - cbn in Hfree |- *.
    apply andb_prop in Hfree. destruct Hfree as [Hb Hfree].
    apply negb_true_iff in Hb. rewrite Z.add_assoc.
    apply IH; [assumption|assumption|].
    eapply execute_step_accounted; eassumption.
Qed.

(** C1, as the code has it.  The estimate has seven categories and no
    eighth bucket.  For every call that returns without executing
    [OP_CHECKSIG], [total_cycles] equals, in 64-bit arithmetic, the sum of
    the seven categories plus the cycles charged by the [default] case of
    the [switch] (100 and the model's figure for the opcode, per opcode
    that reaches it), which the estimate stores in no field. *)
Theorem total_is_breakdown_plus_fallback (M : Impl)
    (unlocking locking : Script) (tx : Transaction) (input_index : N)
    (limits : EstimatorLimits) (r : CostEstimate) :
  Impl_estimate M unlocking locking tx input_index limits = Returned r ->
  checksig_free M unlocking locking tx input_index limits = true ->
  total_cycles r
  = wrap64 (parsing (breakdown r) + dispatch (breakdown r)
            + stack_ops (breakdown r) + byte_ops (breakdown r)
            + hashing (breakdown r) + signatures (breakdown r)
            + control_flow (breakdown r)
            + unattributed M unlocking locking tx input_index limits).
Proof.
  unfold Impl_estimate, checksig_free, unattributed, executed_by.
  destruct (max_script_size limits <? _).
  - intros Hr _. inversion Hr; subst. reflexivity.
  - destruct (u64_of_double _) as [p|]; [|discriminate].
    match goal with |- context [run ?M ?tx ?i ?l ?c ?f ?s] =>
      destruct (run M tx i l c f s) as [st'| |] eqn:Hrun end;
      try discriminate.
    intros Hr Hfree. inversion Hr; subst.
    pose proof (run_accounted _ _ _ _ _ _ _ _ 0 Hrun Hfree) as Hacc.
    unfold accounted, breakdown_sum in Hacc. rewrite Z.add_0_l in Hacc.
    unfold result_of. apply Hacc.
    cbn. clear. wrap64_solve.
Qed.

Lemma total_is_breakdown_plus_fallback_witness :
  exists r,
    Impl_estimate default_Impl [x01; xaa] [x61; x76] tx_simple 0
      default_limits = Returned r /\
    unattributed default_Impl [x01; xaa] [x61; x76] tx_simple 0
      default_limits = 200 /\
    total_cycles r
    = wrap64 (parsing (breakdown r) + dispatch (breakdown r)
              + stack_ops (breakdown r) + byte_ops (breakdown r)
              + hashing (breakdown r) + signatures (breakdown r)
              + control_flow (breakdown r)
              + unattributed default_Impl [x01; xaa] [x61; x76] tx_simple 0
                  default_limits).
Proof.
  assert (Impl_estimate default_Impl [x01; xaa] [x61; x76] tx_simple 0
            default_limits
          = Returned {|
              total_cycles := 318;
              breakdown := {| parsing := 3; dispatch := 15; stack_ops := 100;
                              byte_ops := 0; hashing := 0; signatures := 0;
                              control_flow := 0 |};
              peak_stack_bytes := 2;
              peak_stack_items := 2;
              signature_count := 0;
              opcode_count := 3;
              warnings := [] |}) as H by (vm_compute; reflexivity).
  eexists. split; [exact H|]. split; [vm_compute; reflexivity|].
  apply (total_is_breakdown_plus_fallback _ _ _ _ _ _ _ H).
  vm_compute. reflexivity.
Defined.

(** C1, as the specification words it, fails: a single [OP_0] (0x00) goes
    through the [default] case, which adds 200 cycles to the total and to no
    category, and the estimate has no other bucket to hold them. *)
Lemma total_is_breakdown_counterexample :
  exists r,
    Impl_estimate default_Impl [] [x00] tx_simple 0 default_limits
    = Returned r /\
    total_cycles r = 205 /\
    wrap64 (parsing (breakdown r) + dispatch (breakdown r)
            + stack_ops (breakdown r) + byte_ops (breakdown r)
            + hashing (breakdown r) + signatures (breakdown r)
            + control_flow (breakdown r)) = 5.
Proof.
  eexists. split; [vm_compute; reflexivity|]. split; reflexivity.
Qed.

(** ** Stack underflow, unknown opcodes, long pushes *)

(** C3, as the code has it.  An opcode of the [switch] that finds fewer
    stack items than it looks for is not reported: the pass leaves the size
    stack and the byte total as they are, counts the opcode, moves one byte
    on, adds no warning unless it breaks, and breaks only on the two stack
    limits, so the loop continues.  In the single-DUP scenario under the
    default constants one opcode is counted, [dispatch] is 5 and the
    warnings list is empty. *)
Theorem underflow_is_silent (M : Impl) (tx : Transaction) (input_index : N)
    (limits : EstimatorLimits) (combined : Script) (op_byte : byte)
    (st st' : ExecState) (brk : bool) :
  handled_by_switch (byte_val op_byte) = true ->
  (length (stack_sizes st) < stack_demand (byte_val op_byte))%nat ->
  execute_step M tx input_index limits combined op_byte st = Some (brk, st') ->
  (stack_sizes st' = stack_sizes st /\
   current_stack_bytes st' = current_stack_bytes st /\
   pc st' = S (pc st) /\
   opcode_count (result st') = wrap32 (opcode_count (result st) + 1) /\
   (brk = false -> warnings (result st') = warnings (result st)) /\
   (brk = true ->
    max_stack_item_size limits < current_stack_bytes st \/
    max_stack_items limits < Z.of_nat (length (stack_sizes st)))) /\
  (forall tx' input_index',
     estimate default_estimator [] [x76] tx' input_index'
     = Returned {|
         total_cycles := 105;
         breakdown := {| parsing := 0; dispatch := 5; stack_ops := 100;
                         byte_ops := 0; hashing := 0; signatures := 0;
                         control_flow := 0 |};
         peak_stack_bytes := 0;
         peak_stack_items := 0;
         signature_count := 0;
         opcode_count := 1;
         warnings := [] |}).
Proof.
  intros Hsw Hlen H. split; [|intros; vm_compute; reflexivity].
  unfold handled_by_switch, stack_demand in *.
  split_step H; inversion H; subst; clear H; cbn in *;
    repeat match goal with
      | E : (_ =? _) = true |- _ => apply Z.eqb_eq in E
      | E : (_ =? _) = false |- _ => apply Z.eqb_neq in E
      | E : (_ <? _) = true |- _ => apply Z.ltb_lt in E
      | E : (_ <? _) = false |- _ => apply Z.ltb_ge in E
      | E : _ && _ = true |- _ => apply andb_prop in E; destruct E
      | E : _ || _ = false |- _ => apply orb_false_elim in E; destruct E
      | E : _ || _ = true |- _ => apply orb_prop in E; destruct E
      end;
    try discriminate;
    unfold OP_DUP, OP_SWAP, OP_CAT, OP_SHA256, OP_HASH256, OP_CHECKSIG,
      OP_PUSHDATA1 in *;
    try lia.
  all: repeat split; try reflexivity; try (intros; discriminate);
    intros _; first [left; assumption | right; cbn; lia | left; lia].
Qed.

Lemma underflow_is_silent_witness :
  exists st',
    execute_step default_Impl tx_simple 0 default_limits [x76] x76
      (initial_state 0) = Some (false, st') /\
    stack_sizes st' = [] /\ warnings (result st') = [] /\
    pc st' = 1%nat.
Proof.
  evar (st' : ExecState).
  assert (execute_step default_Impl tx_simple 0 default_limits [x76] x76
            (initial_state 0) = Some (false, st')) as H
    by (vm_compute; unfold st'; reflexivity).
  exists st'. split; [exact H|].
  pose proof (underflow_is_silent default_Impl tx_simple 0 default_limits
                [x76] x76 (initial_state 0) st' false) as U.
  destruct U as [(Hs & _ & Hpc & _ & Hw & _) _].
  - vm_compute. reflexivity.
  - vm_compute. lia.
  - exact H.
  - split; [exact Hs|]. split; [exact (Hw eq_refl)|exact Hpc].
Defined.

(** C3, as the specification words it, fails: a DUP on the empty stack
    returns with no warning, and a second DUP after it is still executed. *)
Lemma underflow_counterexample :
  (exists r,
     estimate default_estimator [] [x76] tx_simple 0 = Returned r /\
     warnings r = []) /\
  (exists r,
     estimate default_estimator [] [x76; x76] tx_simple 0 = Returned r /\
     opcode_count r = 2 /\ warnings r = []).
Proof.
  split; eexists; (split; [vm_compute; reflexivity|]); repeat split.
Qed.

(** C5, as the code has it.  An opcode byte that reaches the [default] case
    of the [switch] (not a push, and none of DUP, SWAP, CAT, SHA256,
    HASH256, CHECKSIG) leaves the size stack unchanged and adds to
    [total_cycles] the dispatch overhead, the literal 100 of the [default]
    case, and the model's figure for the opcode; [dispatch] is the only
    category charged.  When the model has no entry for the opcode that
    figure is the fallback 100 again, 200 plus dispatch in all. *)
Theorem unknown_opcode_charge (M : Impl) (tx : Transaction) (input_index : N)
    (limits : EstimatorLimits) (combined : Script) (op_byte : byte)
    (st : ExecState) (d c : Z) :
  reaches_default combined (S (pc st)) (byte_val op_byte) = true ->
  u64_of_double (c_dispatch M) = Some d ->
  calculate_opcode_cost M (byte_val op_byte) [] = Some c ->
  exists brk st',
    execute_step M tx input_index limits combined op_byte st
    = Some (brk, st') /\
    stack_sizes st' = stack_sizes st /\
    current_stack_bytes st' = current_stack_bytes st /\
    pc st' = S (pc st) /\
    total_cycles (result st')
    = wrap64 (total_cycles (result st) + d + 100 + c) /\
    breakdown (result st') = breakdown (add_dispatch d (result st)) /\
    (opcode_costs M !! byte_val op_byte = None -> c = 100).
Proof.
  unfold reaches_default, takes_push_branch, handled_by_switch.
  intros Hdef Hd Hc.
  assert (opcode_costs M !! byte_val op_byte = None -> c = 100) as Hnone.
  { intros Hnone. unfold calculate_opcode_cost in Hc.
    rewrite Hnone in Hc. congruence. }
  revert Hdef.
  destruct (execute_step M tx input_index limits combined op_byte st)
    as [[brk st']|] eqn:H.
  - split_step H; inversion H; subst; clear H;
      repeat match goal with
        | E : _ = _ |- _ => rewrite E
        end;
      cbn; intros Hdef; try discriminate Hdef;
      simplify_eq; eexists _, _; (split; [reflexivity|]); cbn;
      (repeat split; try reflexivity; try assumption);
      clear; wrap64_solve.
  - intros Hdef. exfalso. revert Hdef.
    split_step H;
      repeat match goal with
        | E : _ = _ |- _ => rewrite E
        end;
      cbn; intros Hdef; try discriminate Hdef; congruence.
Qed.

Lemma unknown_opcode_charge_witness :
  exists brk st',
    execute_step default_Impl tx_simple 0 default_limits [x61] x61
      (initial_state 0) = Some (brk, st') /\
    stack_sizes st' = [] /\
    total_cycles (result st') = 205.
Proof.
  destruct (unknown_opcode_charge default_Impl tx_simple 0 default_limits
              [x61] x61 (initial_state 0) 5 100)
    as (brk & st' & H & Hs & _ & _ & Ht & _);
    [vm_compute; reflexivity ..|].
  exists brk, st'. split; [exact H|]. split; [exact Hs|exact Ht].
Defined.

(** C5, as the specification words it, fails twice: [OP_NOP] (0x61), absent
    from the model, costs 200 cycles over dispatch, not 100; and [OP_DUP],
    absent from the same model, does change the size stack. *)
Lemma unknown_opcode_counterexample :
  (exists r,
     estimate default_estimator [] [x61] tx_simple 0 = Returned r /\
     parsing (breakdown r) = 0 /\ dispatch (breakdown r) = 5 /\
     total_cycles r = 205) /\
  (opcode_costs default_Impl !! OP_DUP = None /\
   exists r,
     estimate default_estimator [x01; xaa] [x76] tx_simple 0 = Returned r /\
     peak_stack_items r = 2).
Proof.
  split; [|split; [reflexivity|]];
    eexists; (split; [vm_compute; reflexivity|]); repeat split.
Qed.

(** C2 on the code.  [PUSHDATA2] and [PUSHDATA4] have no branch of their
    own: the byte goes to the [default] case, nothing is pushed for it, and
    the length bytes and the payload are then read as opcodes.  A one-byte
    payload [0xaa] behind either prefix is executed as [OP_HASH256]. *)
Theorem pushdata2_pushdata4_not_decoded (tx : Transaction) (input_index : N) :
  estimate default_estimator [] [x4d; x01; x00; xaa] tx input_index
  = Returned {|
      total_cycles := 318;
      breakdown := {| parsing := 3; dispatch := 15; stack_ops := 0;
                      byte_ops := 0; hashing := 100; signatures := 0;
                      control_flow := 0 |};
      peak_stack_bytes := 32;
      peak_stack_items := 1;
      signature_count := 0;
      opcode_count := 3;
      warnings := [] |} /\
  estimate default_estimator [] [x4e; x01; x00; x00; x00; xaa] tx input_index
  = Returned {|
      total_cycles := 729;
      breakdown := {| parsing := 4; dispatch := 25; stack_ops := 0;
                      byte_ops := 0; hashing := 100; signatures := 0;
                      control_flow := 0 |};
      peak_stack_bytes := 32;
      peak_stack_items := 1;
      signature_count := 0;
      opcode_count := 5;
      warnings := [] |}.
Proof. split; vm_compute; reflexivity. Qed.

(** ** Monotonicity in the cost model *)

Lemma execute_step_total (M : Impl) (tx : Transaction) (input_index : N)
    (limits : EstimatorLimits) (combined : Script) (op_byte : byte)
    (st st' : ExecState) (brk : bool) :
  execute_step M tx input_index limits combined op_byte st = Some (brk, st') ->
  total_cycles (result st')
  = wrap64 (total_cycles (result st) + step_charge M combined (op_byte, st)).
Proof.
  unfold step_charge, takes_push_branch, handled_by_switch, trailing_params.
  cbn [fst snd].
  intros H.
  split_step H; inversion H; subst; clear H;
    repeat match goal with
      | E : _ = _ |- _ => rewrite E
      end;
    cbn; clear; wrap64_solve.
Qed.

Lemma execute_step_shape (M1 M2 : Impl) (tx : Transaction) (input_index : N)
    (limits : EstimatorLimits) (combined : Script) (op_byte : byte)
    (st1 st2 st1' st2' : ExecState) (brk1 brk2 : bool) :
  execute_step M1 tx input_index limits combined op_byte st1
  = Some (brk1, st1') ->
  execute_step M2 tx input_index limits combined op_byte st2
  = Some (brk2, st2') ->
  shape st1 = shape st2 ->
  brk1 = brk2 /\ shape st1' = shape st2'.
Proof.
  destruct st1 as [[t1 b1 pb1 pi1 sc1 oc1 w1] s1 c1 p1].
  destruct st2 as [[t2 b2 pb2 pi2 sc2 oc2 w2] s2 c2 p2].
  unfold shape. cbn. intros H1 H2 Heq. simplify_eq.
  split_step H1; inversion H1; subst; clear H1;
    split_step H2; inversion H2; subst; clear H2;
    split; reflexivity.
Qed.

Ltac lia64 :=
  pose proof (eq_refl : 2 ^ 64 = 18446744073709551616); lia.

Lemma u64_of_double_range (x : double) (z : Z) :
  u64_of_double x = Some z -> 0 <= z < 2 ^ 64.
Proof.
  destruct x as [s|s| |s m e]; unfold u64_of_double; try discriminate.
  - intros [= <-]. lia64.
  - destruct s.
    + destruct (Z.shiftl (Z.pos m) e =? 0); [|discriminate].
      intros [= <-]. lia64.
    + destruct (Z.ltb_spec (Z.shiftl (Z.pos m) e) (2 ^ 64)); [|discriminate].
      intros [= <-]. split; [|assumption].
      apply Z.shiftl_nonneg. lia.
Qed.

Lemma calculate_opcode_cost_range (M : Impl) (op : Z) (ps : list Z) (c : Z) :
  calculate_opcode_cost M op ps = Some c -> 0 <= c < 2 ^ 64.
Proof.
  unfold calculate_opcode_cost.
  destruct (opcode_costs M !! op) as [model|].
  - destruct (type model); apply u64_of_double_range.
  - intros [= <-]. lia64.
Qed.

Lemma step_charge_nonneg (M : Impl) (combined : Script)
    (e : byte * ExecState) :
  0 <= step_charge M combined e.
Proof.
  unfold step_charge.
  destruct (u64_of_double (c_dispatch M)) as [d|] eqn:Hd; simpl;
    [apply u64_of_double_range in Hd|];
    (destruct (takes_push_branch _ _ _); [lia|]);
    (destruct (calculate_opcode_cost _ _ _) as [c|] eqn:Hc; simpl;
     [apply calculate_opcode_cost_range in Hc|]);
    destruct (handled_by_switch _); lia.
Qed.

Lemma sum_list_nonneg (l : list Z) :
  Forall (fun z => 0 <= z) l -> 0 <= sum_list l.
Proof. unfold sum_list. induction 1; cbn; lia. Qed.

Lemma sum_list_le (l1 l2 : list Z) :
  Forall2 Z.le l1 l2 -> sum_list l1 <= sum_list l2.
Proof. unfold sum_list. induction 1; cbn; lia. Qed.

Lemma execute_step_total_range (M : Impl) (tx : Transaction)
    (input_index : N) (limits : EstimatorLimits) (combined : Script)
    (op_byte : byte) (st st' : ExecState) (brk : bool) :
  execute_step M tx input_index limits combined op_byte st = Some (brk, st') ->
  wrap64 (total_cycles (result st')) = total_cycles (result st').
Proof.
  intros H. rewrite (execute_step_total _ _ _ _ _ _ _ _ _ H).
  apply wrap64_idem.
Qed.

Lemma run_total (M : Impl) (tx : Transaction) (input_index : N)
    (limits : EstimatorLimits) (combined : Script) (fuel : nat)
    (st st' : ExecState) :
  run M tx input_index limits combined fuel st = Returned st' ->
  wrap64 (total_cycles (result st)) = total_cycles (result st) ->
  total_cycles (result st')
  = wrap64 (total_cycles (result st)
            + sum_list (map (step_charge M combined)
                            (executed M tx input_index limits combined fuel
                                      st))).
Proof.
  revert st. induction fuel as [|fuel IH]; intros st Hrun Hrange;
    cbn in Hrun |- *;
    destruct (combined !! pc st) as [b|];
    try (inversion Hrun; subst; cbn; rewrite Z.add_0_r; symmetry;
         exact Hrange);
    destruct (max_opcode_count limits <=? opcode_count (result st));
    try (inversion Hrun; subst; cbn; rewrite Z.add_0_r; symmetry;
         exact Hrange);
    try discriminate.
  destruct (execute_step M tx input_index limits combined b st)
    as [[[] st1]|] eqn:Hstep; [| |discriminate].
  - inversion Hrun; subst. cbn. rewrite Z.add_0_r.
    eapply execute_step_total; eassumption.
  - cbn. rewrite (IH _ Hrun (execute_step_total_range _ _ _ _ _ _ _ _ _ Hstep)).
    rewrite (execute_step_total _ _ _ _ _ _ _ _ _ Hstep).
    rewrite wrap64_add_l. f_equal. unfold sum_list. lia.
Qed.

Lemma Impl_estimate_total (M : Impl) (unlocking locking : Script)
    (tx : Transaction) (input_index : N) (limits : EstimatorLimits)
    (r : CostEstimate) :
  Impl_estimate M unlocking locking tx input_index limits = Returned r ->
  total_cycles r
  = wrap64 (exact_total M unlocking locking tx input_index limits).
Proof.
  unfold Impl_estimate, exact_total, executed_by.
  destruct (max_script_size limits <? _).
  - intros [= <-]. reflexivity.
  - destruct (u64_of_double _) as [p|]; [|discriminate].
    match goal with |- context [run ?M ?tx ?i ?l ?c ?f ?s] =>
      destruct (run M tx i l c f s) as [st'| |] eqn:Hrun end;
      try discriminate.
    intros [= <-]. unfold result_of.
    rewrite (run_total _ _ _ _ _ _ _ _ Hrun); [|apply wrap64_idem].
    cbn. rewrite wrap64_add_l. reflexivity.
Qed.

(** Two runs on states of the same shape execute the same opcodes in
    states of the same shape. *)
Lemma run_same_shape (M1 M2 : Impl) (tx : Transaction) (input_index : N)
    (limits : EstimatorLimits) (combined : Script) (fuel : nat)
    (st1 st2 st1' st2' : ExecState) :
  run M1 tx input_index limits combined fuel st1 = Returned st1' ->
  run M2 tx input_index limits combined fuel st2 = Returned st2' ->
  shape st1 = shape st2 ->
  Forall2 (fun e1 e2 => e1.1 = e2.1 /\ shape e1.2 = shape e2.2)
          (executed M1 tx input_index limits combined fuel st1)
          (executed M2 tx input_index limits combined fuel st2).
Proof.
  revert st1 st2.
  induction fuel as [|fuel IH]; intros st1 st2 Hrun1 Hrun2 Hshape;
    cbn in Hrun1, Hrun2 |- *;
    assert (pc st1 = pc st2) as Hpc by (unfold shape in Hshape; congruence);
    assert (opcode_count (result st1) = opcode_count (result st2)) as Hoc
      by (unfold shape in Hshape; congruence);
    rewrite <- Hpc, <- Hoc in *;
    destruct (combined !! pc st1) as [b|]; try constructor;
    destruct (max_opcode_count limits <=? opcode_count (result st1));
    try constructor; try discriminate.
  destruct (execute_step M1 tx input_index limits combined b st1)
    as [[brk1 st1'']|] eqn:Hstep1; [|discriminate].
  destruct (execute_step M2 tx input_index limits combined b st2)
    as [[brk2 st2'']|] eqn:Hstep2; [|discriminate].
  destruct (execute_step_shape _ _ _ _ _ _ _ _ _ _ _ _ _ Hstep1 Hstep2 Hshape)
    as [<- Hshape'].
  destruct brk1.
  - constructor; [split; [reflexivity|assumption]|constructor].
  - constructor; [split; [reflexivity|assumption]|].
    eapply IH; eassumption.
Qed.


Lemma byte_val_nonneg (b : byte) : 0 <= byte_val b.
Proof. unfold byte_val. lia. Qed.

Lemma execute_step_stack_nonneg (M : Impl) (tx : Transaction)
    (input_index : N) (limits : EstimatorLimits) (combined : Script)
    (op_byte : byte) (st st' : ExecState) (brk : bool) :
  execute_step M tx input_index limits combined op_byte st = Some (brk, st') ->
  Forall (fun z => 0 <= z) (stack_sizes st) ->
  Forall (fun z => 0 <= z) (stack_sizes st').
Proof.
  destruct st as [r s c p]. cbn [stack_sizes]. intros H Hnn.
  split_step H; inversion H; subst; clear H; cbn;
    repeat match goal with
      | H : Forall _ (_ :: _) |- _ => apply Forall_cons_1 in H; destruct H
      end;
    repeat apply Forall_cons_2;
    try assumption; try apply byte_val_nonneg; try apply wrap64_range;
    try lia; try constructor.
Qed.

Lemma execute_step_defined (M : Impl) (tx : Transaction) (input_index : N)
    (limits : EstimatorLimits) (combined : Script) (op_byte : byte)
    (st st' : ExecState) (brk : bool) :
  execute_step M tx input_index limits combined op_byte st = Some (brk, st') ->
  is_Some (u64_of_double (c_dispatch M)) /\
  (takes_push_branch combined (S (pc st)) (byte_val op_byte) = false ->
   is_Some (calculate_opcode_cost M (byte_val op_byte)
              (trailing_params (byte_val op_byte) (stack_sizes st)))).
Proof.
  unfold takes_push_branch, trailing_params.
  intros H.
  split_step H; inversion H; subst; clear H;
    repeat match goal with
      | E : _ = _ |- _ => rewrite E
      end;
    cbn; (split; [eexists; reflexivity|]);
    intros Hpush; try discriminate Hpush; eexists; reflexivity.
Qed.

Lemma trailing_params_nonneg (b : Z) (stack : list Z) :
  Forall (fun z => 0 <= z) stack ->
  Forall (fun z => 0 <= z) (trailing_params b stack).
Proof.
  intros Hnn. unfold trailing_params.
  repeat match goal with
    | |- context [if ?c then _ else _] => destruct c
    | |- context [match ?l with [] => _ | _ :: _ => _ end] => destruct l
    | H : Forall _ (_ :: _) |- _ => apply Forall_cons_1 in H; destruct H
    end;
    repeat constructor; try assumption; apply wrap64_range.
Qed.

Lemma step_charge_le (M1 M2 : Impl) (tx : Transaction) (input_index : N)
    (limits : EstimatorLimits) (combined : Script) (op_byte : byte)
    (st1 st2 st1' st2' : ExecState) (brk1 brk2 : bool) :
  figures_le M1 M2 ->
  execute_step M1 tx input_index limits combined op_byte st1
  = Some (brk1, st1') ->
  execute_step M2 tx input_index limits combined op_byte st2
  = Some (brk2, st2') ->
  shape st1 = shape st2 ->
  Forall (fun z => 0 <= z) (stack_sizes st1) ->
  step_charge M1 combined (op_byte, st1)
  <= step_charge M2 combined (op_byte, st2).
Proof.
  intros (Hd & _ & Hc) H1 H2 Hshape Hnn.
  apply execute_step_defined in H1. apply execute_step_defined in H2.
  destruct H1 as [[d1 Hd1] Hc1]. destruct H2 as [[d2 Hd2] Hc2].
  assert (pc st1 = pc st2) as Hpc by (unfold shape in Hshape; congruence).
  assert (stack_sizes st1 = stack_sizes st2) as Hst
    by (unfold shape in Hshape; congruence).
  unfold step_charge. cbn [fst snd].
  rewrite <- Hpc, <- Hst in *. rewrite Hd1, Hd2. simpl.
  specialize (Hd _ _ Hd1 Hd2).
  destruct (takes_push_branch combined (S (pc st1)) (byte_val op_byte));
    [lia|].
  destruct (Hc1 eq_refl) as [c1 Hc1']. destruct (Hc2 eq_refl) as [c2 Hc2'].
  rewrite Hc1', Hc2'. simpl.
  pose proof (Hc _ _ _ _ (trailing_params_nonneg _ _ Hnn) Hc1' Hc2').
  lia.
Qed.

Lemma run_charges_le (M1 M2 : Impl) (tx : Transaction) (input_index : N)
    (limits : EstimatorLimits) (combined : Script) (fuel : nat)
    (st1 st2 st1' st2' : ExecState) :
  figures_le M1 M2 ->
  run M1 tx input_index limits combined fuel st1 = Returned st1' ->
  run M2 tx input_index limits combined fuel st2 = Returned st2' ->
  shape st1 = shape st2 ->
  Forall (fun z => 0 <= z) (stack_sizes st1) ->
  sum_list (map (step_charge M1 combined)
                (executed M1 tx input_index limits combined fuel st1))
  <= sum_list (map (step_charge M2 combined)
                   (executed M2 tx input_index limits combined fuel st2)).
Proof.
  intros Hle. revert st1 st2.
  induction fuel as [|fuel IH]; intros st1 st2 Hrun1 Hrun2 Hshape Hnn;
    cbn in Hrun1, Hrun2 |- *;
    assert (pc st1 = pc st2) as Hpc by (unfold shape in Hshape; congruence);
    assert (opcode_count (result st1) = opcode_count (result st2)) as Hoc
      by (unfold shape in Hshape; congruence);
    rewrite <- Hpc, <- Hoc in *;
    destruct (combined !! pc st1) as [b|]; try reflexivity;
    destruct (max_opcode_count limits <=? opcode_count (result st1));
    try reflexivity; try discriminate.
  destruct (execute_step M1 tx input_index limits combined b st1)
    as [[brk1 st1'']|] eqn:Hstep1; [|discriminate].
  destruct (execute_step M2 tx input_index limits combined b st2)
    as [[brk2 st2'']|] eqn:Hstep2; [|discriminate].
  pose proof (step_charge_le _ _ _ _ _ _ _ _ _ _ _ _ _ Hle Hstep1 Hstep2
                Hshape Hnn) as Hcharge.
  destruct (execute_step_shape _ _ _ _ _ _ _ _ _ _ _ _ _ Hstep1 Hstep2 Hshape)
    as [<- Hshape'].
  pose proof (execute_step_stack_nonneg _ _ _ _ _ _ _ _ _ Hstep1 Hnn) as Hnn'.
  destruct brk1; unfold sum_list in *; cbn.
  - lia.
  - specialize (IH _ _ Hrun1 Hrun2 Hshape' Hnn'). lia.
Qed.

Lemma exact_total_nonneg (M : Impl) (unlocking locking : Script)
    (tx : Transaction) (input_index : N) (limits : EstimatorLimits) :
  0 <= exact_total M unlocking locking tx input_index limits.
Proof.
  unfold exact_total.
  destruct (max_script_size limits <? _); [lia|].
  apply Z.add_nonneg_nonneg.
  - destruct (u64_of_double _) as [p|] eqn:Hp; simpl; [|lia].
    apply u64_of_double_range in Hp. lia.
  - apply sum_list_nonneg. apply Forall_map, Forall_forall.
    intros e _. apply step_charge_nonneg.
Qed.

(** Monotonicity at the level of the integer figures: if one model charges
    no more than the other on every cast the executor performs, and the
    larger total does not wrap, the totals are ordered. *)
Lemma total_monotone_in_figures (M1 M2 : Impl) (unlocking locking : Script)
    (tx : Transaction) (input_index : N) (limits : EstimatorLimits)
    (r1 r2 : CostEstimate) :
  figures_le M1 M2 ->
  Impl_estimate M1 unlocking locking tx input_index limits = Returned r1 ->
  Impl_estimate M2 unlocking locking tx input_index limits = Returned r2 ->
  exact_total M2 unlocking locking tx input_index limits < 2 ^ 64 ->
  total_cycles r1 <= total_cycles r2.
Proof.
  intros Hle H1 H2 Hfit.
  rewrite (Impl_estimate_total _ _ _ _ _ _ _ H1).
  rewrite (Impl_estimate_total _ _ _ _ _ _ _ H2).
  pose proof (exact_total_nonneg M1 unlocking locking tx input_index limits)
    as Hnn1.
  assert (exact_total M1 unlocking locking tx input_index limits
          <= exact_total M2 unlocking locking tx input_index limits) as Hex.
  { clear Hnn1 Hfit. unfold Impl_estimate, exact_total, executed_by in *.
    destruct (max_script_size limits <? _); [lia|].
    destruct (u64_of_double (dmul (c_parse_per_byte M1) _)) as [p1|] eqn:Hp1;
      [|discriminate].
    destruct (u64_of_double (dmul (c_parse_per_byte M2) _)) as [p2|] eqn:Hp2;
      [|discriminate].
    simpl.
    destruct (run M1 _ _ _ _ _ _) as [st1'| |] eqn:Hrun1; try discriminate.
    destruct (run M2 _ _ _ _ _ _) as [st2'| |] eqn:Hrun2; try discriminate.
    pose proof (run_charges_le _ _ _ _ _ _ _ _ _ _ _ Hle Hrun1 Hrun2
                  eq_refl (Forall_nil_2 _)) as Hsum.
    destruct Hle as (_ & Hp & _).
    specialize (Hp _ _ _ (Nat2Z.is_nonneg _) Hp1 Hp2). lia. }
  rewrite !wrap64_small; lia.
Qed.

(** * Binary64 rounding is monotone *)

(** ** Powers of two *)

Lemma pow2_pos (k : Z) : 0 <= k -> 0 < 2 ^ k.
Proof. intros. apply Z.pow_pos_nonneg; lia. Qed.

Lemma pow2_succ (k : Z) : 0 <= k -> 2 ^ (k + 1) = 2 * 2 ^ k.
Proof. intros. rewrite Z.pow_add_r by lia. lia. Qed.

Lemma pow2_le (a b : Z) : 0 <= a <= b -> 2 ^ a <= 2 ^ b.
Proof. intros. apply Z.pow_le_mono_r; lia. Qed.

Lemma pow2_lt (a b : Z) : 0 <= a < b -> 2 ^ a < 2 ^ b.
Proof. intros. apply Z.pow_lt_mono_r; lia. Qed.

Lemma pow2_split (a b : Z) : 0 <= a <= b -> 2 ^ b = 2 ^ a * 2 ^ (b - a).
Proof. intros. rewrite <- Z.pow_add_r by lia. f_equal. lia. Qed.

(** ** Number of binary digits *)

Lemma digits2_pos_bounds (p : positive) :
  2 ^ (Z.pos (digits2_pos p) - 1) <= Z.pos p < 2 ^ Z.pos (digits2_pos p).
Proof.
  induction p as [p IH|p IH|]; cbn [digits2_pos].
  - rewrite Pos2Z.inj_succ.
    replace (Z.succ (Z.pos (digits2_pos p)) - 1)
      with (Z.pos (digits2_pos p) - 1 + 1) by lia.
    rewrite <- Z.add_1_r, !pow2_succ by lia. lia.
  - rewrite Pos2Z.inj_succ.
    replace (Z.succ (Z.pos (digits2_pos p)) - 1)
      with (Z.pos (digits2_pos p) - 1 + 1) by lia.
    rewrite <- Z.add_1_r, !pow2_succ by lia. lia.
  - cbn. lia.
Qed.

Lemma Zdigits2_bounds (v : Z) :
  0 < v -> 2 ^ (Zdigits2 v - 1) <= v < 2 ^ Zdigits2 v.
Proof.
  destruct v as [|p|p]; try lia. intros _. apply digits2_pos_bounds.
Qed.

Lemma Zdigits2_pos (v : Z) : 0 < v -> 0 < Zdigits2 v.
Proof. destruct v; cbn; lia. Qed.

Lemma Zdigits2_unique (v d : Z) :
  0 < d -> 2 ^ (d - 1) <= v < 2 ^ d -> Zdigits2 v = d.
Proof.
  intros Hd [Hlo Hhi].
  assert (0 < v) as Hv by (pose proof (pow2_pos (d - 1)); lia).
  pose proof (Zdigits2_bounds v Hv) as [Hlo' Hhi'].
  pose proof (Zdigits2_pos v Hv) as Hpos.
  destruct (Z.lt_trichotomy (Zdigits2 v) d) as [Hlt|[Heq|Hgt]];
    [|assumption|].
  - pose proof (pow2_le (Zdigits2 v) (d - 1)). lia.
  - pose proof (pow2_le d (Zdigits2 v - 1)). lia.
Qed.

Lemma Zdigits2_mul_pow2 (v j : Z) :
  0 < v -> 0 <= j -> Zdigits2 (v * 2 ^ j) = Zdigits2 v + j.
Proof.
  intros Hv Hj.
  pose proof (Zdigits2_bounds v Hv) as [Hlo Hhi].
  pose proof (Zdigits2_pos v Hv) as Hpos.
  apply Zdigits2_unique; [lia|].
  replace (Zdigits2 v + j - 1) with (Zdigits2 v - 1 + j) by lia.
  rewrite !Z.pow_add_r by lia.
  pose proof (pow2_pos j Hj). nia.
Qed.

Lemma Zdigits2_mono (v v' : Z) :
  0 < v <= v' -> Zdigits2 v <= Zdigits2 v'.
Proof.
  intros [Hv Hle].
  pose proof (Zdigits2_bounds v Hv) as [Hlo Hhi].
  pose proof (Zdigits2_bounds v' ltac:(lia)) as [Hlo' Hhi'].
  pose proof (Zdigits2_pos v Hv).
  destruct (Z.le_gt_cases (Zdigits2 v) (Zdigits2 v')) as [|Hgt];
    [assumption|].
  pose proof (pow2_le (Zdigits2 v') (Zdigits2 v - 1)).
  pose proof (Zdigits2_pos v' ltac:(lia)). lia.
Qed.

(** ** Round to nearest, ties to even, of [m / 2^k] *)

Lemma rne_between (m k : Z) :
  0 <= k -> m / 2 ^ k <= rne m k <= m / 2 ^ k + 1.
Proof.
  intros. unfold rne.
  destruct (2 * (m mod 2 ^ k) ?= 2 ^ k); [destruct (Z.even _)| |]; lia.
Qed.

Lemma rne_exact (a k : Z) : 0 <= k -> rne (a * 2 ^ k) k = a.
Proof.
  intros Hk. unfold rne. pose proof (pow2_pos k Hk).
  rewrite Z.div_mul, Z.mod_mul by lia.
  destruct (Z.compare_spec (2 * 0) (2 ^ k)); lia.
Qed.

Lemma rne_mono (m m' k : Z) :
  0 <= k -> m <= m' -> rne m k <= rne m' k.
Proof.
  intros Hk Hle. pose proof (pow2_pos k Hk) as Hp.
  assert (m / 2 ^ k <= m' / 2 ^ k) as Hq by (apply Z.div_le_mono; lia).
  destruct (Z.eq_dec (m / 2 ^ k) (m' / 2 ^ k)) as [Heq|Hne].
  - assert (m mod 2 ^ k <= m' mod 2 ^ k) as Hr.
    { rewrite !Z.mod_eq by lia. rewrite Heq. lia. }
    unfold rne. rewrite Heq.
    destruct (Z.compare_spec (2 * (m mod 2 ^ k)) (2 ^ k));
      destruct (Z.compare_spec (2 * (m' mod 2 ^ k)) (2 ^ k));
      destruct (Z.even (m' / 2 ^ k)); lia.
  - pose proof (rne_between m k Hk). pose proof (rne_between m' k Hk). lia.
Qed.

Lemma rne_scale (m k i : Z) :
  0 <= k -> 0 <= i -> rne (m * 2 ^ i) (k + i) = rne m k.
Proof.
  intros Hk Hi. unfold rne.
  pose proof (pow2_pos k Hk). pose proof (pow2_pos i Hi).
  rewrite Z.pow_add_r by lia.
  rewrite Z.div_mul_cancel_r by lia.
  rewrite Z.mul_mod_distr_r by lia.
  replace (2 * (m mod 2 ^ k * 2 ^ i)) with (2 * (m mod 2 ^ k) * 2 ^ i) by lia.
  rewrite <- Zmult_compare_compat_r by lia.
  reflexivity.
Qed.

Lemma rne_lower (m k a : Z) : 0 <= k -> a * 2 ^ k <= m -> a <= rne m k.
Proof.
  intros Hk Hle. rewrite <- (rne_exact a k Hk). apply rne_mono; assumption.
Qed.

Lemma rne_upper (m k b : Z) : 0 <= k -> m <= b * 2 ^ k -> rne m k <= b.
Proof.
  intros Hk Hle. rewrite <- (rne_exact b k Hk). apply rne_mono; assumption.
Qed.

Lemma rne_nonneg (m k : Z) : 0 <= k -> 0 <= m -> 0 <= rne m k.
Proof. intros. apply rne_lower; lia. Qed.

(** ** The shift-right loop of [SpecFloat] *)

Lemma shr_1_spec (m : Z) (r s : bool) :
  0 <= m ->
  shr_1 {| shr_m := m; shr_r := r; shr_s := s |}
  = {| shr_m := m / 2; shr_r := Z.odd m; shr_s := r || s |}.
Proof.
  intros Hm. destruct m as [|p|p]; [reflexivity| |lia].
  destruct p as [p|p|]; cbn [shr_1].
  - f_equal. rewrite Pos2Z.inj_xI.
    apply Z.div_unique with (r := 1); lia.
  - f_equal. rewrite Pos2Z.inj_xO.
    apply Z.div_unique with (r := 0); lia.
  - reflexivity.
Qed.

Lemma shr_inv_0 (m : Z) :
  shr_inv m 0 {| shr_m := m; shr_r := false; shr_s := false |}.
Proof.
  unfold shr_inv. cbn [shr_m shr_r shr_s].
  rewrite Z.pow_0_r, Z.div_1_r, Z.mod_1_r. repeat split.
Qed.

Lemma shr_inv_step (m j : Z) (mrs : shr_record) :
  0 <= m -> 0 <= j ->
  shr_inv m j mrs -> shr_inv m (j + 1) (shr_1 mrs).
Proof.
  intros Hm Hj (Hq & Hr & Hs).
  destruct mrs as [q r s]. cbn [shr_m shr_r shr_s] in *.
  pose proof (pow2_pos j Hj) as Hp.
  assert (0 <= q) as Hq0 by (subst q; apply Z.div_pos; lia).
  rewrite (shr_1_spec q r s Hq0).
  unfold shr_inv. cbn [shr_m shr_r shr_s].
  rewrite pow2_succ by lia.
  set (P := 2 ^ j) in *.
  assert (m = P * q + m mod P) as Hm1
    by (subst q; apply Z.div_mod; lia).
  pose proof (Z.mod_pos_bound m P Hp) as Hb.
  set (a := m mod P) in *.
  pose proof (Z.div_mod q 2 ltac:(lia)) as Hq2.
  pose proof (Z.mod_pos_bound q 2 ltac:(lia)) as Hb2.
  assert (m / (2 * P) = q / 2) as Hdiv.
  { symmetry. apply Z.div_unique with (r := a + P * (q mod 2)); nia. }
  assert (m mod (2 * P) = a + P * (q mod 2)) as Hmod.
  { symmetry. apply Z.mod_unique with (q := q / 2); nia. }
  rewrite Hdiv, Hmod.
  split; [reflexivity|].
  rewrite Zodd_mod.
  assert (q mod 2 = 0 \/ q mod 2 = 1) as [H0|H1] by lia.
  - rewrite H0. cbn [Z.eqb]. rewrite Z.mul_0_r, Z.add_0_r.
    split.
    + symmetry. apply Z.leb_gt. lia.
    + rewrite Hr, Hs.
      destruct (Z.leb_spec P (2 * a)).
      * cbn [orb]. symmetry. apply negb_true_iff, Z.eqb_neq.
        rewrite Z.mod_small by lia. lia.
      * cbn [orb]. f_equal. f_equal.
        rewrite (Z.mod_small (2 * a) P) by lia.
        rewrite Z.mod_small by lia. reflexivity.
  - rewrite H1. cbn [Z.eqb]. rewrite Z.mul_1_r.
    split.
    + symmetry. apply Z.leb_le. lia.
    + rewrite Hr, Hs.
      replace (2 * (a + P)) with (2 * a + 1 * (2 * P)) by lia.
      rewrite Z.mod_add by lia.
      rewrite (Z.mod_small (2 * a) (2 * P)) by lia.
      destruct (Z.leb_spec P (2 * a)).
      * cbn [orb]. symmetry. apply negb_true_iff, Z.eqb_neq. lia.
      * cbn [orb]. rewrite (Z.mod_small (2 * a) P) by lia. reflexivity.
Qed.

Lemma shr_inv_iter (m : Z) (p : positive) :
  0 <= m ->
  forall (j : Z) (mrs : shr_record),
    0 <= j -> shr_inv m j mrs ->
    shr_inv m (j + Z.pos p) (SpecFloat.iter_pos shr_1 p mrs).
Proof.
  intros Hm. induction p as [p IH|p IH|]; intros j mrs Hj Hinv;
    cbn [SpecFloat.iter_pos].
  - replace (j + Z.pos p~1) with (j + 1 + Z.pos p + Z.pos p) by lia.
    apply IH; [lia|]. apply IH; [lia|]. apply shr_inv_step; assumption.
  - replace (j + Z.pos p~0) with (j + Z.pos p + Z.pos p) by lia.
    apply IH; [lia|]. apply IH; assumption.
  - apply shr_inv_step; assumption.
Qed.

Lemma shr_inv_round (m j : Z) (mrs : shr_record) :
  0 <= j -> shr_inv m j mrs ->
  round_nearest_even (shr_m mrs) (loc_of_shr_record mrs) = rne m j.
Proof.
  intros Hj (Hq & Hr & Hs).
  destruct mrs as [q r s]. cbn [shr_m shr_r shr_s] in *.
  pose proof (pow2_pos j Hj) as Hp.
  pose proof (Z.mod_pos_bound m (2 ^ j) Hp) as Hb.
  unfold rne. rewrite <- Hq.
  set (P := 2 ^ j) in *. set (a := m mod P) in *.
  destruct (Z.leb_spec P (2 * a)) as [Hge|Hlt]; subst r.
  - destruct (Z.eqb_spec ((2 * a) mod P) 0) as [He|Hn]; subst s;
      cbn [negb loc_of_shr_record round_nearest_even].
    + assert (2 * a = P) as ->.
      { replace (2 * a) with ((2 * a - P) + 1 * P) in He by lia.
        rewrite Z.mod_add in He by lia.
        rewrite Z.mod_small in He by lia. lia. }
      rewrite Z.compare_refl. reflexivity.
    + assert (P < 2 * a) as Hgt.
      { destruct (Z.eq_dec (2 * a) P) as [E|]; [|lia].
        rewrite E, Z.mod_same in Hn by lia. lia. }
      apply Z.compare_gt_iff in Hgt. rewrite Hgt. reflexivity.
  - apply Z.compare_lt_iff in Hlt as Hc. rewrite Hc.
    destruct s; reflexivity.
Qed.

(** ** Rounding a positive dyadic number to binary64 *)

Lemma fexp64_eq (e : Z) : fexp 53 1024 e = Z.max (e - 53) (-1074).
Proof. reflexivity. Qed.

Lemma shr_fexp_exact (m e : Z) :
  0 <= m ->
  0 <= fexp 53 1024 (Zdigits2 m + e) - e ->
  exists mrs,
    shr_fexp 53 1024 m e loc_Exact
    = (mrs, fexp 53 1024 (Zdigits2 m + e)) /\
    shr_inv m (fexp 53 1024 (Zdigits2 m + e) - e) mrs.
Proof.
  intros Hm Hk. unfold shr_fexp, shr. cbn [shr_record_of_loc].
  destruct (fexp 53 1024 (Zdigits2 m + e) - e) as [|p|p] eqn:Ek; [| |lia].
  - eexists. split; [|apply shr_inv_0]. f_equal. lia.
  - eexists. split.
    + f_equal. rewrite <- Ek. lia.
    + replace (Z.pos p) with (0 + Z.pos p) by lia.
      apply shr_inv_iter; [assumption|lia|apply shr_inv_0].
Qed.

Lemma shr_fexp_keep (m e : Z) :
  fexp 53 1024 (Zdigits2 m + e) - e <= 0 ->
  shr_fexp 53 1024 m e loc_Exact
  = ({| shr_m := m; shr_r := false; shr_s := false |}, e).
Proof.
  intros Hk. unfold shr_fexp, shr. cbn [shr_record_of_loc].
  destruct (fexp 53 1024 (Zdigits2 m + e) - e); [reflexivity|lia|reflexivity].
Qed.

Lemma rne_le_pow53 (m e : Z) :
  0 < m ->
  0 <= fexp 53 1024 (Zdigits2 m + e) - e ->
  rne m (fexp 53 1024 (Zdigits2 m + e) - e) <= 2 ^ 53.
Proof.
  intros Hm Hk. apply rne_upper; [assumption|].
  pose proof (Zdigits2_bounds m Hm) as [_ Hhi].
  pose proof (Zdigits2_pos m Hm) as Hd.
  set (k := fexp 53 1024 (Zdigits2 m + e) - e) in *.
  assert (Zdigits2 m - 53 <= k) as Hkd
    by (subst k; rewrite fexp64_eq; lia).
  rewrite <- Z.pow_add_r by lia.
  pose proof (pow2_le (Zdigits2 m) (53 + k)). lia.
Qed.

Lemma binary_round_aux_exact (m : positive) (e c : Z) :
  e <= fexp 53 1024 (Zdigits2 (Z.pos m) + e) ->
  0 <= e + c ->
  binary_round_aux 53 1024 false (Z.pos m) e loc_Exact
  = round_pos c (Z.pos m * 2 ^ (e + c)).
Proof.
  intros Hk Hc. unfold binary_round_aux.
  destruct (shr_fexp_exact (Z.pos m) e) as (mrs & -> & Hinv); [lia|lia|].
  pose proof (rne_le_pow53 (Z.pos m) e ltac:(lia) ltac:(lia)) as Hup.
  set (t := fexp 53 1024 (Zdigits2 (Z.pos m) + e)) in *.
  assert (0 <= t - e) as Hj by lia.
  rewrite (shr_inv_round _ _ _ Hj Hinv).
  pose proof (rne_nonneg (Z.pos m) (t - e) Hj ltac:(lia)) as Hlo.
  assert (-1074 <= t) as Ht by (subst t; rewrite fexp64_eq; lia).
  unfold round_pos.
  rewrite Zdigits2_mul_pow2 by lia.
  replace (Zdigits2 (Z.pos m) + (e + c) - c) with (Zdigits2 (Z.pos m) + e)
    by lia.
  fold t. replace (t + c) with (t - e + (e + c)) by lia.
  rewrite rne_scale by lia.
  set (q := rne (Z.pos m) (t - e)) in *.
  unfold canon.
  destruct (Z.eqb_spec q 0) as [->|Hq0].
  - rewrite shr_fexp_keep; [reflexivity|].
    cbn [Zdigits2]. rewrite fexp64_eq. lia.
  - destruct (Z.eqb_spec q (2 ^ 53)) as [->|Hq53].
    + replace (shr_fexp 53 1024 (2 ^ 53) t loc_Exact)
        with ({| shr_m := 2 ^ 52; shr_r := false; shr_s := false |}, t + 1).
      * reflexivity.
      * unfold shr_fexp, shr. cbn [shr_record_of_loc].
        replace (fexp 53 1024 (Zdigits2 (2 ^ 53) + t) - t) with 1.
        -- reflexivity.
        -- rewrite fexp64_eq. change (Zdigits2 (2 ^ 53)) with 54. lia.
    + rewrite shr_fexp_keep.
      * cbn [shr_m]. unfold finite_or_inf.
        destruct q as [|p|p]; [lia| |lia]. reflexivity.
      * assert (Zdigits2 q <= 53) as Hd.
        { destruct (Z.le_gt_cases (Zdigits2 q) 53) as [|Hgt]; [assumption|].
          pose proof (Zdigits2_bounds q ltac:(lia)) as [Hl _].
          pose proof (pow2_le 53 (Zdigits2 q - 1)). lia. }
        rewrite fexp64_eq. lia.
Qed.

Lemma pos_iter_xO (m d : positive) :
  Z.pos (Pos.iter xO m d) = Z.pos m * 2 ^ Z.pos d.
Proof.
  induction d as [|d IH] using Pos.peano_ind.
  - cbn. lia.
  - rewrite Pos.iter_succ, Pos2Z.inj_xO, IH, Pos2Z.inj_succ.
    rewrite <- Z.add_1_r, pow2_succ by lia. lia.
Qed.

Lemma binary_round_exact (m : positive) (e c : Z) :
  1074 <= c -> 0 <= e + c ->
  binary_round 53 1024 false m e = round_pos c (Z.pos m * 2 ^ (e + c)).
Proof.
  intros Hc Hec. unfold binary_round, shl_align.
  set (t := fexp 53 1024 (Z.pos (digits2_pos m) + e)).
  assert (-1074 <= t) as Ht by (subst t; rewrite fexp64_eq; lia).
  destruct (t - e) as [|d|d] eqn:Ed.
  - apply binary_round_aux_exact; [|lia].
    change (Zdigits2 (Z.pos m)) with (Z.pos (digits2_pos m)). fold t. lia.
  - apply binary_round_aux_exact; [|lia].
    change (Zdigits2 (Z.pos m)) with (Z.pos (digits2_pos m)). fold t. lia.
  - assert (e = t + Z.pos d) as He by lia.
    rewrite (binary_round_aux_exact _ _ c).
    + f_equal. rewrite pos_iter_xO, He.
      rewrite <- Z.mul_assoc, <- Z.pow_add_r by lia. f_equal. f_equal. lia.
    + rewrite pos_iter_xO, Zdigits2_mul_pow2 by lia.
      change (Zdigits2 (Z.pos m)) with (Z.pos (digits2_pos m)).
      replace (Z.pos (digits2_pos m) + Z.pos d + t)
        with (Z.pos (digits2_pos m) + e) by lia.
      fold t. lia.
    + lia.
Qed.

(** ** Non-negative finite binary64 values and their scaled value *)

Lemma bounded_facts (m : positive) (e : Z) :
  bounded 53 1024 m e = true ->
  -1074 <= e <= 971 /\
  Zdigits2 (Z.pos m) <= 53 /\
  (e = -1074 \/ Zdigits2 (Z.pos m) = 53) /\
  fexp 53 1024 (Zdigits2 (Z.pos m) + e) = e.
Proof.
  unfold bounded, canonical_mantissa. intros H.
  apply andb_prop in H. destruct H as [Hc He].
  apply Z.eqb_eq in Hc. apply Z.leb_le in He.
  change (Z.pos (digits2_pos m)) with (Zdigits2 (Z.pos m)) in Hc.
  change (1024 - 53) with 971 in He.
  pose proof (Zdigits2_pos (Z.pos m) ltac:(lia)).
  rewrite fexp64_eq in *. lia.
Qed.

Lemma V_finite_bounds (m : positive) (e : Z) :
  bounded 53 1024 m e = true ->
  0 < V (S754_finite false m e) < 2 ^ 2098.
Proof.
  intros H. apply bounded_facts in H. destruct H as (He & Hd & _ & _).
  pose proof (Zdigits2_bounds (Z.pos m) ltac:(lia)) as [_ Hhi].
  cbn [V]. pose proof (pow2_pos (e + 1074) ltac:(lia)).
  split; [lia|].
  pose proof (pow2_le (Zdigits2 (Z.pos m)) 53 ltac:(
    pose proof (Zdigits2_pos (Z.pos m)); lia)).
  pose proof (pow2_le (e + 1074) 2045 ltac:(lia)).
  replace (2 ^ 2098) with (2 ^ 53 * 2 ^ 2045)
    by (rewrite <- Z.pow_add_r by lia; reflexivity).
  nia.
Qed.

Lemma nnf_V_nonneg (x : spec_float) : nnf x = true -> 0 <= V x.
Proof.
  destruct x as [s|s| |s m e]; cbn [nnf V]; try lia; try discriminate.
Qed.

Lemma nnf_V_bound (x : spec_float) : nnf x = true -> V x < 2 ^ 2098.
Proof.
  destruct x as [s|s| |s m e]; cbn [nnf V]; try discriminate;
    try (intros _; apply pow2_pos; lia).
  destruct s; [discriminate|]. intros H.
  pose proof (V_finite_bounds m e H) as Hb. cbn [V] in Hb. lia.
Qed.

(** On non-negative finite values the IEEE comparison is the comparison of
    the scaled values. *)
Lemma SFcompare_V (x y : spec_float) :
  nnf x = true -> nnf y = true ->
  SFcompare x y = Some (V x ?= V y).
Proof.
  destruct x as [sx|sx| |sx mx ex]; try discriminate;
    destruct y as [sy|sy| |sy my ey]; try discriminate; cbn [nnf].
  - reflexivity.
  - destruct sy; [discriminate|]. intros _ Hy.
    pose proof (V_finite_bounds my ey Hy) as [Hpos _].
    cbn [SFcompare]. f_equal. symmetry. apply Z.compare_lt_iff.
    cbn [V] in *. lia.
  - destruct sx; [discriminate|]. intros Hx _.
    pose proof (V_finite_bounds mx ex Hx) as [Hpos _].
    cbn [SFcompare]. f_equal. symmetry. apply Z.compare_gt_iff.
    cbn [V] in *. lia.
  - destruct sx; [discriminate|]. destruct sy; [discriminate|].
    intros Hx Hy. cbn [SFcompare V]. f_equal.
    apply bounded_facts in Hx. apply bounded_facts in Hy.
    destruct Hx as (Hex & Hdx & Hnx & _). destruct Hy as (Hey & Hdy & Hny & _).
    pose proof (Zdigits2_bounds (Z.pos mx) ltac:(lia)) as [Hlx Hhx].
    pose proof (Zdigits2_bounds (Z.pos my) ltac:(lia)) as [Hly Hhy].
    pose proof (Zdigits2_pos (Z.pos mx) ltac:(lia)) as Hpx.
    pose proof (Zdigits2_pos (Z.pos my) ltac:(lia)) as Hpy.
    destruct (Z.compare_spec ex ey) as [->|Hlt|Hgt].
    + rewrite Pos.compare_cont_spec.
      assert (Pos.switch_Eq Eq (mx ?= my)%positive = (mx ?= my)%positive)
        as -> by (destruct (mx ?= my)%positive; reflexivity).
      change (Pos.compare mx my) with (Z.compare (Z.pos mx) (Z.pos my)).
      pose proof (pow2_pos (ey + 1074) ltac:(lia)).
      apply Zmult_compare_compat_r. lia.
    + symmetry. apply Z.compare_lt_iff.
      assert (Zdigits2 (Z.pos my) = 53) as Hy53 by lia.
      rewrite Hy53 in Hly. change (2 ^ (53 - 1)) with (2 ^ 52) in Hly.
      pose proof (pow2_le (Zdigits2 (Z.pos mx)) 53 ltac:(lia)).
      rewrite (pow2_split (ex + 1074) (ey + 1074)) by lia.
      pose proof (pow2_pos (ex + 1074) ltac:(lia)) as HP.
      pose proof (pow2_le 1 (ey + 1074 - (ex + 1074)) ltac:(lia)) as HQ.
      change (2 ^ 1) with 2 in HQ. change (2 ^ 53) with (2 * 2 ^ 52) in *.
      set (P := 2 ^ (ex + 1074)) in *.
      set (Q := 2 ^ (ey + 1074 - (ex + 1074))) in *.
      assert (Z.pos mx * P < 2 * 2 ^ 52 * P)
        by (apply Z.mul_lt_mono_pos_r; lia).
      assert (2 * 2 ^ 52 <= Z.pos my * Q) by nia.
      assert (2 * 2 ^ 52 * P <= Z.pos my * Q * P)
        by (apply Z.mul_le_mono_nonneg_r; lia).
      lia.
    + symmetry. apply Z.compare_gt_iff.
      assert (Zdigits2 (Z.pos mx) = 53) as Hx53 by lia.
      rewrite Hx53 in Hlx. change (2 ^ (53 - 1)) with (2 ^ 52) in Hlx.
      pose proof (pow2_le (Zdigits2 (Z.pos my)) 53 ltac:(lia)).
      rewrite (pow2_split (ey + 1074) (ex + 1074)) by lia.
      pose proof (pow2_pos (ey + 1074) ltac:(lia)) as HP.
      pose proof (pow2_le 1 (ex + 1074 - (ey + 1074)) ltac:(lia)) as HQ.
      change (2 ^ 1) with 2 in HQ. change (2 ^ 53) with (2 * 2 ^ 52) in *.
      set (P := 2 ^ (ey + 1074)) in *.
      set (Q := 2 ^ (ex + 1074 - (ey + 1074))) in *.
      assert (Z.pos my * P < 2 * 2 ^ 52 * P)
        by (apply Z.mul_lt_mono_pos_r; lia).
      assert (2 * 2 ^ 52 <= Z.pos mx * Q) by nia.
      assert (2 * 2 ^ 52 * P <= Z.pos mx * Q * P)
        by (apply Z.mul_le_mono_nonneg_r; lia).
      lia.
Qed.

(** ** The value of a rounded number *)

Lemma round_pos_t_range (c v : Z) :
  -1074 <= fexp 53 1024 (Zdigits2 v - c) /\
  Zdigits2 v - c - 53 <= fexp 53 1024 (Zdigits2 v - c).
Proof. rewrite fexp64_eq. lia. Qed.

Lemma round_pos_q_upper (c v : Z) :
  1074 <= c -> 0 < v ->
  0 <= rne v (fexp 53 1024 (Zdigits2 v - c) + c) <= 2 ^ 53.
Proof.
  intros Hc Hv.
  pose proof (round_pos_t_range c v) as [Ht1 Ht2].
  pose proof (Zdigits2_bounds v Hv) as [_ Hhi].
  pose proof (Zdigits2_pos v Hv) as Hd.
  set (d := Zdigits2 v) in *. set (t := fexp 53 1024 (d - c)) in *.
  split; [apply rne_nonneg; lia|].
  apply rne_upper; [lia|].
  rewrite <- Z.pow_add_r by lia.
  pose proof (pow2_le d (53 + (t + c)) ltac:(lia)). lia.
Qed.

Lemma round_pos_q_normal (c v : Z) :
  1074 <= c -> 0 < v ->
  -1074 < fexp 53 1024 (Zdigits2 v - c) ->
  2 ^ 52 <= rne v (fexp 53 1024 (Zdigits2 v - c) + c).
Proof.
  intros Hc Hv Hn.
  pose proof (Zdigits2_bounds v Hv) as [Hlo _].
  set (d := Zdigits2 v) in *. set (t := fexp 53 1024 (d - c)) in *.
  assert (t = d - c - 53) as Ht by (subst t; rewrite fexp64_eq in *; lia).
  apply rne_lower; [lia|].
  rewrite <- Z.pow_add_r by lia.
  replace (52 + (t + c)) with (d - 1) by lia. assumption.
Qed.

Lemma round_pos_value (c v : Z) :
  1074 <= c -> 0 < v ->
  (W c v < 2 ^ 2098 ->
   nnf (round_pos c v) = true /\ V (round_pos c v) = W c v) /\
  (2 ^ 2098 <= W c v -> round_pos c v = S754_infinity false).
Proof.
  intros Hc Hv.
  pose proof (round_pos_t_range c v) as [Ht1 Ht2].
  pose proof (round_pos_q_upper c v Hc Hv) as [Hq0 Hq53].
  pose proof (round_pos_q_normal c v Hc Hv) as Hqn.
  unfold W, round_pos.
  set (d := Zdigits2 v) in *. set (t := fexp 53 1024 (d - c)) in *.
  set (q := rne v (t + c)) in *.
  pose proof (pow2_pos (t + 1074) ltac:(lia)) as HP.
  unfold canon.
  destruct (Z.eqb_spec q 0) as [E0|N0].
  { rewrite E0. cbn [nnf V]. split; [split; [reflexivity|lia]|].
    pose proof (pow2_pos 2098 ltac:(lia)). lia. }
  destruct (Z.eqb_spec q (2 ^ 53)) as [E53|N53].
  { rewrite E53. rewrite <- Z.pow_add_r by lia. unfold finite_or_inf.
    destruct (Z.leb_spec (t + 1) 971) as [Hle|Hgt].
    - split.
      + intros _. cbn [nnf V]. split.
        * unfold bounded, canonical_mantissa.
          apply andb_true_intro. split.
          -- apply Z.eqb_eq. rewrite fexp64_eq.
             change (Z.pos (digits2_pos (Z.to_pos (2 ^ 52)))) with 53.
             lia.
          -- apply Z.leb_le. change (1024 - 53) with 971. lia.
        * change (Z.pos (Z.to_pos (2 ^ 52))) with (2 ^ 52).
          rewrite <- Z.pow_add_r by lia. f_equal. lia.
      + intros Hbig. pose proof (pow2_lt (53 + (t + 1074)) 2098). lia.
    - split.
      + intros Hsmall. pose proof (pow2_le 2098 (53 + (t + 1074))). lia.
      + reflexivity. }
  assert (0 < q < 2 ^ 53) as Hq by lia.
  unfold finite_or_inf.
  destruct (Z.leb_spec t 971) as [Hle|Hgt].
  - split.
    + intros _. cbn [nnf V]. rewrite Z2Pos.id by lia. split; [|reflexivity].
      unfold bounded, canonical_mantissa.
      apply andb_true_intro. split.
      * apply Z.eqb_eq. rewrite fexp64_eq.
        change (Z.pos (digits2_pos (Z.to_pos q)))
          with (Zdigits2 (Z.pos (Z.to_pos q))).
        rewrite Z2Pos.id by lia.
        assert (Zdigits2 q <= 53) as Hd53.
        { destruct (Z.le_gt_cases (Zdigits2 q) 53) as [|Hg]; [assumption|].
          pose proof (Zdigits2_bounds q ltac:(lia)) as [Hl _].
          pose proof (pow2_le 53 (Zdigits2 q - 1)). lia. }
        destruct (Z.eq_dec t (-1074)) as [->|Hn]; [lia|].
        specialize (Hqn ltac:(lia)).
        assert (Zdigits2 q = 53) as ->.
        { apply Zdigits2_unique; [lia|].
          change (2 ^ (53 - 1)) with (2 ^ 52). lia. }
        lia.
      * apply Z.leb_le. change (1024 - 53) with 971. lia.
    + intros Hbig.
      pose proof (pow2_le (t + 1074) 2045 ltac:(lia)).
      replace (2 ^ 2098) with (2 ^ 53 * 2 ^ 2045) in Hbig
        by (rewrite <- Z.pow_add_r by lia; reflexivity).
      assert (q * 2 ^ (t + 1074) < 2 ^ 53 * 2 ^ (t + 1074))
        by (apply Z.mul_lt_mono_pos_r; lia).
      pose proof (pow2_pos 53 ltac:(lia)).
      assert (2 ^ 53 * 2 ^ (t + 1074) <= 2 ^ 53 * 2 ^ 2045)
        by (apply Z.mul_le_mono_nonneg_l; lia).
      lia.
  - split; [|reflexivity].
    intros Hsmall. exfalso.
    specialize (Hqn ltac:(lia)).
    pose proof (pow2_le 2046 (t + 1074) ltac:(lia)).
    replace (2 ^ 2098) with (2 ^ 52 * 2 ^ 2046) in Hsmall
      by (rewrite <- Z.pow_add_r by lia; reflexivity).
    pose proof (pow2_pos 52 ltac:(lia)).
    assert (2 ^ 52 * 2 ^ 2046 <= 2 ^ 52 * 2 ^ (t + 1074))
      by (apply Z.mul_le_mono_nonneg_l; lia).
    assert (2 ^ 52 * 2 ^ (t + 1074) <= q * 2 ^ (t + 1074))
      by (apply Z.mul_le_mono_nonneg_r; lia).
    lia.
Qed.

Lemma W_mono (c v v' : Z) :
  1074 <= c -> 0 < v <= v' -> W c v <= W c v'.
Proof.
  intros Hc [Hv Hle].
  assert (0 < v') as Hv' by lia.
  pose proof (Zdigits2_mono v v' ltac:(lia)) as Hd.
  pose proof (round_pos_t_range c v) as [Ht1 Ht2].
  pose proof (round_pos_t_range c v') as [Ht1' Ht2'].
  pose proof (Zdigits2_bounds v Hv) as [Hlo Hhi].
  pose proof (Zdigits2_bounds v' Hv') as [Hlo' Hhi'].
  pose proof (Zdigits2_pos v Hv) as Hdp.
  unfold W.
  set (d := Zdigits2 v) in *. set (d' := Zdigits2 v') in *.
  set (t := fexp 53 1024 (d - c)) in *.
  set (t' := fexp 53 1024 (d' - c)) in *.
  assert (t <= t') as Htt by (subst t t'; rewrite !fexp64_eq; lia).
  destruct (Z.eq_dec t t') as [<-|Hne].
  - apply Z.mul_le_mono_nonneg_r; [apply Z.pow_nonneg; lia|].
    apply rne_mono; lia.
  - assert (t' = d' - c - 53) as Et'
      by (subst t'; rewrite fexp64_eq in *; lia).
    assert (d < d') as Hdd by (subst t t'; rewrite !fexp64_eq in *; lia).
    (* the larger number rounds to at least [2^52] units *)
    assert (2 ^ 52 <= rne v' (t' + c)) as Hq'.
    { apply rne_lower; [lia|]. rewrite <- Z.pow_add_r by lia.
      replace (52 + (t' + c)) with (d' - 1) by lia. assumption. }
    assert (2 ^ (t' + 1126) <= rne v' (t' + c) * 2 ^ (t' + 1074)) as Hlow.
    { replace (t' + 1126) with (52 + (t' + 1074)) by lia.
      rewrite (Z.pow_add_r 2 52 (t' + 1074)) by lia.
      apply Z.mul_le_mono_nonneg_r; [apply Z.pow_nonneg; lia|assumption]. }
    destruct (Z.le_gt_cases (t + c) d) as [Hkd|Hkd].
    + (* the smaller number rounds to at most [2^(d - k)] units *)
      assert (rne v (t + c) <= 2 ^ (d - (t + c))) as Hq.
      { apply rne_upper; [lia|]. rewrite <- Z.pow_add_r by lia.
        replace (d - (t + c) + (t + c)) with d by lia. lia. }
      assert (rne v (t + c) * 2 ^ (t + 1074) <= 2 ^ (d - c + 1074)) as Hup.
      { replace (d - c + 1074) with (d - (t + c) + (t + 1074)) by lia.
        rewrite (Z.pow_add_r 2 (d - (t + c)) (t + 1074)) by lia.
        apply Z.mul_le_mono_nonneg_r; [apply Z.pow_nonneg; lia|assumption]. }
      pose proof (pow2_le (d - c + 1074) (t' + 1126) ltac:(lia)). lia.
    + assert (t = -1074) as Et by (subst t; rewrite fexp64_eq in *; lia).
      assert (rne v (t + c) <= 1) as Hq.
      { apply rne_upper; [lia|].
        pose proof (pow2_le d (t + c) ltac:(lia)). lia. }
      rewrite Et in *. change (-1074 + 1074) with 0. rewrite Z.pow_0_r.
      pose proof (pow2_pos (t' + 1126) ltac:(lia)). lia.
Qed.

(** A representable value rounds to itself. *)
Lemma W_representable (m : positive) (e : Z) :
  bounded 53 1024 m e = true ->
  W 1074 (V (S754_finite false m e)) = V (S754_finite false m e).
Proof.
  intros Hb. apply bounded_facts in Hb. destruct Hb as (He & _ & _ & Hf).
  unfold W. cbn [V].
  rewrite Zdigits2_mul_pow2 by lia.
  replace (Zdigits2 (Z.pos m) + (e + 1074) - 1074)
    with (Zdigits2 (Z.pos m) + e) by lia.
  rewrite Hf. rewrite rne_exact by lia. reflexivity.
Qed.

(** ** Sums, products, conversions *)

Lemma round_pos_rounds_to (c v : Z) :
  1074 <= c -> 0 < v -> rounds_to c v (round_pos c v).
Proof.
  intros Hc Hv. destruct (round_pos_value c v Hc Hv) as [Hfin Hinf].
  destruct (Z.lt_ge_cases (W c v) (2 ^ 2098)) as [Hs|Hb].
  - right. left. destruct (Hfin Hs). tauto.
  - right. right. auto.
Qed.

Lemma W_nonneg (c v : Z) : 1074 <= c -> 0 < v -> 0 <= W c v.
Proof.
  intros Hc Hv. unfold W. apply Z.mul_nonneg_nonneg.
  - apply rne_nonneg; [|lia]. pose proof (round_pos_t_range c v). lia.
  - apply Z.pow_nonneg. lia.
Qed.

Lemma rounds_to_mono (c v v' : Z) (r r' : spec_float) :
  1074 <= c -> 0 <= v <= v' ->
  rounds_to c v r -> rounds_to c v' r' ->
  nnf r' = true -> nnf r = true /\ V r <= V r'.
Proof.
  intros Hc Hv Hr Hr' Hfin.
  destruct Hr' as [(E' & _ & V')|[(P' & S' & _ & V')|(_ & _ & ->)]];
    [| |discriminate];
    destruct Hr as [(E & F & Vr)|[(P & S & F & Vr)|(P & B & ->)]];
    try (exfalso; lia).
  - split; [assumption|lia].
  - split; [assumption|]. pose proof (W_nonneg c v' Hc P'). lia.
  - split; [assumption|]. pose proof (W_mono c v v' Hc ltac:(lia)). lia.
  - exfalso. pose proof (W_mono c v v' Hc ltac:(lia)). lia.
Qed.

Lemma shl_align_fst (m : positive) (e e' : Z) :
  e' <= e -> Z.pos (fst (shl_align m e e')) = Z.pos m * 2 ^ (e - e').
Proof.
  intros Hle. unfold shl_align.
  destruct (e' - e) as [|d|d] eqn:Ed; cbn [fst].
  - replace (e - e') with 0 by lia. lia.
  - lia.
  - rewrite pos_iter_xO. f_equal. f_equal. lia.
Qed.

Lemma SFadd_rounds_to (x y : spec_float) :
  nnf x = true -> nnf y = true ->
  rounds_to 1074 (V x + V y) (SFadd 53 1024 x y).
Proof.
  destruct x as [sx|sx| |sx mx ex]; try discriminate;
    destruct y as [sy|sy| |sy my ey]; try discriminate; cbn [nnf].
  - intros _ _. left. cbn [V SFadd].
    split; [reflexivity|]. destruct sx, sy; split; reflexivity.
  - destruct sy; [discriminate|]. intros _ Hy. right. left.
    pose proof (V_finite_bounds my ey Hy) as [Hpos Hub].
    cbn [SFadd]. change (V (S754_zero sx)) with 0. rewrite Z.add_0_l.
    rewrite (W_representable my ey Hy). repeat split; assumption.
  - destruct sx; [discriminate|]. intros Hx _. right. left.
    pose proof (V_finite_bounds mx ex Hx) as [Hpos Hub].
    cbn [SFadd]. change (V (S754_zero sy)) with 0. rewrite Z.add_0_r.
    rewrite (W_representable mx ex Hx). repeat split; assumption.
  - destruct sx; [discriminate|]. destruct sy; [discriminate|].
    intros Hx Hy. cbn [SFadd cond_Zopp].
    pose proof (bounded_facts mx ex Hx) as (Hex & _).
    pose proof (bounded_facts my ey Hy) as (Hey & _).
    set (ez := Z.min ex ey).
    pose proof (shl_align_fst mx ex ez ltac:(lia)) as Ha.
    pose proof (shl_align_fst my ey ez ltac:(lia)) as Hb.
    change (Z.pos (fst (shl_align mx ex ez))
            + Z.pos (fst (shl_align my ey ez)))
      with (Z.pos (fst (shl_align mx ex ez) + fst (shl_align my ey ez))).
    cbn [binary_normalize].
    rewrite (binary_round_exact _ _ 1074) by lia.
    rewrite Pos2Z.inj_add, Ha, Hb.
    replace ((Z.pos mx * 2 ^ (ex - ez) + Z.pos my * 2 ^ (ey - ez))
             * 2 ^ (ez + 1074))
      with (V (S754_finite false mx ex) + V (S754_finite false my ey)).
    + apply round_pos_rounds_to; [lia|].
      pose proof (V_finite_bounds mx ex Hx).
      pose proof (V_finite_bounds my ey Hy). lia.
    + cbn [V]. rewrite Z.mul_add_distr_r.
      rewrite <- !Z.mul_assoc, <- !Z.pow_add_r by lia.
      f_equal; f_equal; f_equal; lia.
Qed.

Lemma Zdigits2_mul_lower (a b : Z) :
  0 < a -> 0 < b -> Zdigits2 a + Zdigits2 b - 1 <= Zdigits2 (a * b).
Proof.
  intros Ha Hb.
  pose proof (Zdigits2_bounds a Ha) as [Hla _].
  pose proof (Zdigits2_bounds b Hb) as [Hlb _].
  pose proof (Zdigits2_pos a Ha). pose proof (Zdigits2_pos b Hb).
  assert (2 ^ (Zdigits2 a + Zdigits2 b - 2) <= a * b) as Hprod.
  { replace (Zdigits2 a + Zdigits2 b - 2)
      with ((Zdigits2 a - 1) + (Zdigits2 b - 1)) by lia.
    rewrite Z.pow_add_r by lia.
    pose proof (pow2_pos (Zdigits2 a - 1) ltac:(lia)).
    pose proof (pow2_pos (Zdigits2 b - 1) ltac:(lia)).
    apply Z.mul_le_mono_nonneg; lia. }
  pose proof (pow2_pos (Zdigits2 a + Zdigits2 b - 2) ltac:(lia)) as Hp.
  pose proof (Zdigits2_mono _ _ (conj Hp Hprod)) as Hm.
  rewrite (Zdigits2_unique (2 ^ (Zdigits2 a + Zdigits2 b - 2))
             (Zdigits2 a + Zdigits2 b - 1)) in Hm; [assumption|lia|].
  replace (Zdigits2 a + Zdigits2 b - 1 - 1)
    with (Zdigits2 a + Zdigits2 b - 2) by lia.
  split; [lia|]. apply pow2_lt. lia.
Qed.

Lemma SFmul_rounds_to (x y : spec_float) :
  nnf x = true -> nnf y = true ->
  rounds_to 2148 (V x * V y) (SFmul 53 1024 x y).
Proof.
  destruct x as [sx|sx| |sx mx ex]; try discriminate;
    destruct y as [sy|sy| |sy my ey]; try discriminate; cbn [nnf].
  - intros _ _. left. cbn [V SFmul]. repeat split.
  - destruct sy; [discriminate|]. intros _ _. left. cbn [V SFmul].
    repeat split.
  - destruct sx; [discriminate|]. intros _ _. left. cbn [SFmul].
    change (V (S754_zero sy)) with 0. rewrite Z.mul_0_r. repeat split.
  - destruct sx; [discriminate|]. destruct sy; [discriminate|].
    intros Hx Hy. cbn [SFmul xorb].
    pose proof (bounded_facts mx ex Hx) as (Hex & Hdx & Hnx & _).
    pose proof (bounded_facts my ey Hy) as (Hey & Hdy & Hny & _).
    pose proof (Zdigits2_mul_lower (Z.pos mx) (Z.pos my) ltac:(lia)
                  ltac:(lia)) as Hd.
    pose proof (Zdigits2_pos (Z.pos mx) ltac:(lia)).
    pose proof (Zdigits2_pos (Z.pos my) ltac:(lia)).
    rewrite (binary_round_aux_exact _ _ 2148).
    + replace (Z.pos (mx * my) * 2 ^ (ex + ey + 2148))
        with (V (S754_finite false mx ex) * V (S754_finite false my ey)).
      * apply round_pos_rounds_to; [lia|].
        pose proof (V_finite_bounds mx ex Hx).
        pose proof (V_finite_bounds my ey Hy). nia.
      * cbn [V]. rewrite Pos2Z.inj_mul.
        replace (ex + ey + 2148) with ((ex + 1074) + (ey + 1074)) by lia.
        rewrite (Z.pow_add_r 2 (ex + 1074) (ey + 1074)) by lia. ring.
    + rewrite Pos2Z.inj_mul, fexp64_eq. lia.
    + lia.
Qed.

Lemma binary_normalize_rounds_to (n : Z) :
  0 <= n ->
  rounds_to 1074 (n * 2 ^ 1074) (binary_normalize 53 1024 n 0 false).
Proof.
  intros Hn. destruct n as [|p|p]; [| |lia].
  - left. repeat split.
  - cbn [binary_normalize].
    rewrite (binary_round_exact _ _ 1074) by lia.
    change (0 + 1074) with 1074.
    apply round_pos_rounds_to; [lia|].
    pose proof (pow2_pos 1074 ltac:(lia)). lia.
Qed.

(** Truncation of a non-negative finite value. *)
Lemma shiftl_V (m : positive) (e : Z) :
  -1074 <= e ->
  Z.shiftl (Z.pos m) e = V (S754_finite false m e) / 2 ^ 1074.
Proof.
  intros He. cbn [V].
  destruct (Z.le_gt_cases 0 e) as [Hpos|Hneg].
  - rewrite Z.shiftl_mul_pow2 by lia.
    rewrite Z.pow_add_r by lia. rewrite Z.mul_assoc.
    rewrite Z.div_mul; [reflexivity|].
    pose proof (pow2_pos 1074 ltac:(lia)). lia.
  - rewrite Z.shiftl_div_pow2 by lia.
    rewrite (pow2_split (e + 1074) 1074) by lia.
    replace (1074 - (e + 1074)) with (- e) by lia.
    rewrite (Z.mul_comm (2 ^ (e + 1074)) (2 ^ (- e))).
    rewrite Z.div_mul_cancel_r; [reflexivity| |].
    + pose proof (pow2_pos (- e) ltac:(lia)). lia.
    + pose proof (pow2_pos (e + 1074) ltac:(lia)). lia.
Qed.

(** ** Ordering of results *)

Lemma rounds_to_nnb (c v : Z) (r : spec_float) : rounds_to c v r -> nnb r.
Proof.
  intros [(_ & F & _)|[(_ & _ & F & _)|(_ & _ & ->)]];
    [left; assumption|left; assumption|right; left; reflexivity].
Qed.

Ltac nnb_case H x :=
  revert H; destruct x as [[]|[]| |[] ? ?]; try discriminate;
  intros _; (split; [right; (left + right); reflexivity|discriminate]).

Lemma SFadd_nnb (x y : spec_float) :
  nnb x -> nnb y ->
  nnb (SFadd 53 1024 x y) /\
  (nnf (SFadd 53 1024 x y) = true -> nnf x = true /\ nnf y = true).
Proof.
  intros [Hx|Hx] [Hy|Hy].
  - split; [|tauto]. eapply rounds_to_nnb, SFadd_rounds_to; assumption.
  - destruct Hy as [-> | ->]; nnb_case Hx x.
  - destruct Hx as [-> | ->]; nnb_case Hy y.
  - destruct Hx as [-> | ->]; destruct Hy as [-> | ->];
      (split; [right; (left + right); reflexivity|discriminate]).
Qed.

Lemma SFmul_nnb (x y : spec_float) :
  nnb x -> nnb y ->
  nnb (SFmul 53 1024 x y) /\
  (nnf (SFmul 53 1024 x y) = true -> nnf x = true /\ nnf y = true).
Proof.
  intros [Hx|Hx] [Hy|Hy].
  - split; [|tauto]. eapply rounds_to_nnb, SFmul_rounds_to; assumption.
  - destruct Hy as [-> | ->]; nnb_case Hx x.
  - destruct Hx as [-> | ->]; nnb_case Hy y.
  - destruct Hx as [-> | ->]; destruct Hy as [-> | ->];
      (split; [right; (left + right); reflexivity|discriminate]).
Qed.

Lemma SFadd_below (x x' y y' : spec_float) :
  below x x' -> below y y' ->
  nnf (SFadd 53 1024 x' y') = true ->
  below (SFadd 53 1024 x y) (SFadd 53 1024 x' y').
Proof.
  intros (Fx & Fx' & Vx) (Fy & Fy' & Vy) Hfin.
  pose proof (nnf_V_nonneg x Fx). pose proof (nnf_V_nonneg y Fy).
  destruct (rounds_to_mono 1074 (V x + V y) (V x' + V y') _ _ ltac:(lia)
              ltac:(lia) (SFadd_rounds_to x y Fx Fy)
              (SFadd_rounds_to x' y' Fx' Fy') Hfin) as [F Hle].
  repeat split; assumption.
Qed.

Lemma SFmul_below (x x' y y' : spec_float) :
  below x x' -> below y y' ->
  nnf (SFmul 53 1024 x' y') = true ->
  below (SFmul 53 1024 x y) (SFmul 53 1024 x' y').
Proof.
  intros (Fx & Fx' & Vx) (Fy & Fy' & Vy) Hfin.
  pose proof (nnf_V_nonneg x Fx). pose proof (nnf_V_nonneg y Fy).
  assert (0 <= V x * V y <= V x' * V y') as Hprod.
  { split; [apply Z.mul_nonneg_nonneg; lia|].
    apply Z.mul_le_mono_nonneg; lia. }
  destruct (rounds_to_mono 2148 (V x * V y) (V x' * V y') _ _ ltac:(lia)
              Hprod (SFmul_rounds_to x y Fx Fy)
              (SFmul_rounds_to x' y' Fx' Fy') Hfin) as [F Hle].
  repeat split; assumption.
Qed.

Lemma SFleb_below (x y : spec_float) :
  nnf x = true -> nnf y = true -> SFleb x y = true -> below x y.
Proof.
  intros Fx Fy Hle. repeat split; try assumption.
  unfold SFleb in Hle. rewrite (SFcompare_V x y Fx Fy) in Hle.
  destruct (Z.compare_spec (V x) (V y)); try discriminate; lia.
Qed.

Lemma below_refl (x : spec_float) : nnf x = true -> below x x.
Proof. intros F. repeat split; try assumption. lia. Qed.


(** ** From coefficients to cycle figures *)

Lemma double_of_u64_nnb (n : Z) : 0 <= n -> nnb (double_of_u64 n).
Proof.
  intros Hn. eapply rounds_to_nnb, binary_normalize_rounds_to. assumption.
Qed.

Lemma u64_of_double_nnf (x : double) (a : Z) :
  nnb x -> u64_of_double x = Some a ->
  nnf x = true /\ a = V x / 2 ^ 1074.
Proof.
  intros [Hx|[->| ->]]; [|discriminate|discriminate].
  intros Hcast. split; [assumption|].
  destruct x as [s|s| |s m e]; try discriminate.
  - cbn in Hcast. injection Hcast as <-. reflexivity.
  - destruct s; [discriminate|]. cbn [nnf] in Hx.
    pose proof (bounded_facts m e Hx) as (He & _).
    unfold u64_of_double in Hcast.
    destruct (Z.shiftl (Z.pos m) e <? 2 ^ 64); [|discriminate].
    injection Hcast as <-. apply shiftl_V. lia.
Qed.

(** A cast that is defined stays defined, and gets no larger, on a smaller
    operand. *)
Lemma u64_of_double_transfer (x y : double) (b : Z) :
  below x y -> u64_of_double y = Some b ->
  exists a, u64_of_double x = Some a /\ a <= b.
Proof.
  intros (Fx & Fy & Hle) Hb.
  pose proof (u64_of_double_range y b Hb) as Hrange.
  destruct (u64_of_double_nnf y b (or_introl Fy) Hb) as [_ Eb].
  assert (V x / 2 ^ 1074 <= b) as Hdiv.
  { rewrite Eb. apply Z.div_le_mono; [|assumption].
    apply Z.pow_pos_nonneg; lia. }
  destruct x as [s|s| |s m e]; try discriminate.
  - exists 0. split; [reflexivity|lia].
  - destruct s; [discriminate|]. cbn [nnf] in Fx.
    pose proof (bounded_facts m e Fx) as (He & _).
    exists (Z.shiftl (Z.pos m) e). unfold u64_of_double.
    rewrite (shiftl_V m e) by lia.
    destruct (Z.ltb_spec (V (S754_finite false m e) / 2 ^ 1074) (2 ^ 64));
      [split; [reflexivity|assumption]|lia].
Qed.

Lemma dadd_nnb (x y : double) : nnb x -> nnb y -> nnb (dadd x y).
Proof. intros Hx Hy. apply (SFadd_nnb x y Hx Hy). Qed.

Lemma dmul_nnb (x y : double) : nnb x -> nnb y -> nnb (dmul x y).
Proof. intros Hx Hy. apply (SFmul_nnb x y Hx Hy). Qed.

Lemma dadd_mono (x x' y y' : double) :
  nnb x' -> nnb y' -> nnf (dadd x' y') = true ->
  (nnf x' = true -> below x x') -> (nnf y' = true -> below y y') ->
  below (dadd x y) (dadd x' y').
Proof.
  intros Hx Hy Hfin Bx By.
  destruct (proj2 (SFadd_nnb x' y' Hx Hy) Hfin) as [Fx Fy].
  apply SFadd_below; auto.
Qed.

Lemma dmul_mono (x x' y y' : double) :
  nnb x' -> nnb y' -> nnf (dmul x' y') = true ->
  (nnf x' = true -> below x x') -> (nnf y' = true -> below y y') ->
  below (dmul x y) (dmul x' y').
Proof.
  intros Hx Hy Hfin Bx By.
  destruct (proj2 (SFmul_nnb x' y' Hx Hy) Hfin) as [Fx Fy].
  apply SFmul_below; auto.
Qed.

Lemma coeff_below (x y : double) :
  nnf x = true -> nnf y = true -> dle x y -> below x y.
Proof. intros. apply SFleb_below; assumption. Qed.

Lemma param_nonneg (ps : list Z) (i : nat) (dflt : Z) :
  Forall (fun p => 0 <= p) ps -> 0 <= dflt -> 0 <= param ps i dflt.
Proof.
  intros Hps Hd. unfold param.
  destruct (ps !! i) as [p|] eqn:Hp; simpl; [|assumption].
  rewrite Forall_forall in Hps. apply Hps.
  eapply list_elem_of_lookup_2. eassumption.
Qed.

(** Solves the side conditions "this operand is finite and non-negative or
    not castable". *)
Ltac solve_nnb :=
  repeat first
    [ apply dadd_nnb | apply dmul_nnb
    | apply double_of_u64_nnb;
      first [ apply param_nonneg; [assumption|lia]
            | apply wrap64_range | lia ]
    | left; assumption ].

(** Orders two evaluations of the same expression over ordered
    coefficients. *)
Ltac solve_below :=
  repeat first
    [ assumption
    | apply coeff_below; assumption
    | intros ?
    | apply below_refl; assumption
    | apply dadd_mono; [solve_nnb|solve_nnb|assumption| |]
    | apply dmul_mono; [solve_nnb|solve_nnb|assumption| |] ].

Lemma calculate_opcode_cost_transfer (M1 M2 : Impl) (op : Z) (ps : list Z)
    (b : Z) :
  Impl_ok M1 -> Impl_ok M2 -> Impl_le M1 M2 ->
  Forall (fun p => 0 <= p) ps ->
  calculate_opcode_cost M2 op ps = Some b ->
  exists a, calculate_opcode_cost M1 op ps = Some a /\ a <= b.
Proof.
  intros (_ & _ & Hok1) (_ & _ & Hok2) (_ & _ & Hle) Hps.
  unfold calculate_opcode_cost.
  specialize (Hle op). specialize (Hok1 op). specialize (Hok2 op).
  destruct Hle as [m1 m2 Hm|]; [|intros [= <-]; exists 100; split; [reflexivity|lia]].
  destruct (Hok1 m1 eq_refl) as (A0 & A1 & A2 & A3 & A4 & A5 & A6).
  destruct (Hok2 m2 eq_refl) as (B0 & B1 & B2 & B3 & B4 & B5 & B6).
  destruct Hm as (Ht & L0 & L1 & L2 & L3 & L4 & L5 & L6).
  rewrite Ht. clear Hok1 Hok2 Ht.
  destruct (type m2); intros Hb;
    match type of Hb with
    | u64_of_double ?x = Some _ =>
        let F := fresh "F" in
        assert (nnf x = true) as F
          by (apply (u64_of_double_nnf x b); [solve_nnb|exact Hb])
    end;
    (eapply u64_of_double_transfer; [|exact Hb]); solve_below.
Qed.

(** ** Monotonicity of the estimate *)

Lemma figures_transfer_le (M1 M2 : Impl) :
  figures_transfer M1 M2 -> figures_le M1 M2.
Proof.
  intros (Hd & Hp & Hc). split; [|split].
  - intros d1 d2 H1 H2. destruct (Hd d2 H2) as (d & Hd1 & Hle). congruence.
  - intros n p1 p2 Hn H1 H2.
    destruct (Hp n p2 Hn H2) as (p & Hp1 & Hle). congruence.
  - intros op ps c1 c2 Hps H1 H2.
    destruct (Hc op ps c2 Hps H2) as (c & Hc1 & Hle). congruence.
Qed.

Lemma calculate_sighash_size_nonneg (tx : Transaction) (input_index ty : N)
    (z : Z) :
  calculate_sighash_size tx input_index ty = Some z -> 0 <= z.
Proof.
  rewrite calculate_sighash_size_unfold.
  destruct (anyone_can_pay ty);
    [destruct (inputs tx !! N.to_nat input_index); [|discriminate]|];
    intros [= <-]; apply wrap64_range.
Qed.

Lemma execute_step_transfer (M1 M2 : Impl) (tx : Transaction)
    (input_index : N) (limits : EstimatorLimits) (combined : Script)
    (op_byte : byte) (st1 st2 st2' : ExecState) (brk : bool) :
  figures_transfer M1 M2 ->
  execute_step M2 tx input_index limits combined op_byte st2
  = Some (brk, st2') ->
  shape st1 = shape st2 ->
  Forall (fun z => 0 <= z) (stack_sizes st1) ->
  exists st1',
    execute_step M1 tx input_index limits combined op_byte st1
    = Some (brk, st1').
Proof.
  intros Hfig.
  destruct st1 as [[t1 b1 pb1 pi1 sc1 oc1 w1] s1 c1 p1].
  destruct st2 as [[t2 b2 pb2 pi2 sc2 oc2 w2] s2 c2 p2].
  unfold shape. cbn. intros H2 Heq Hnn. simplify_eq.
  split_step H2; inversion H2; subst; clear H2;
    destruct Hfig as (Hd & _ & Hc);
    repeat match goal with
      | H : Forall _ (_ :: _) |- _ => apply Forall_cons_1 in H; destruct H
      end;
    repeat match goal with
      | E : u64_of_double (c_dispatch M2) = Some ?z |- _ =>
          let a := fresh "a" in
          let Ea := fresh "Ea" in
          destruct (Hd z E) as (a & Ea & _); clear E
      | E : calculate_opcode_cost M2 ?op ?ps = Some ?z |- _ =>
          let a := fresh "a" in
          let Ea := fresh "Ea" in
          assert (Forall (fun p => 0 <= p) ps) as Hps
            by (repeat constructor;
                first [ assumption | apply wrap64_range
                      | eapply calculate_sighash_size_nonneg; eassumption ]);
          destruct (Hc op ps z Hps E) as (a & Ea & _); clear E Hps
      end;
    unfold execute_step, execute_opcode;
    cbn [mbind option_bind with_result push_data result stack_sizes
         current_stack_bytes pc fst snd];
    repeat first
      [ progress cbn [mbind option_bind with_result push_data result
                      stack_sizes current_stack_bytes pc fst snd]
      | match goal with
        | E : ?c = _ |- context [?c] => rewrite E
        end ];
    eexists; reflexivity.
Qed.

Lemma run_transfer (M1 M2 : Impl) (tx : Transaction) (input_index : N)
    (limits : EstimatorLimits) (combined : Script) (fuel : nat)
    (st1 st2 st2' : ExecState) :
  figures_transfer M1 M2 ->
  run M2 tx input_index limits combined fuel st2 = Returned st2' ->
  shape st1 = shape st2 ->
  Forall (fun z => 0 <= z) (stack_sizes st1) ->
  exists st1', run M1 tx input_index limits combined fuel st1 = Returned st1'.
Proof.
  intros Hfig. revert st1 st2.
  induction fuel as [|fuel IH]; intros st1 st2 Hrun Hshape Hnn;
    cbn in Hrun |- *;
    assert (pc st1 = pc st2) as Hpc by (unfold shape in Hshape; congruence);
    assert (opcode_count (result st1) = opcode_count (result st2)) as Hoc
      by (unfold shape in Hshape; congruence);
    rewrite Hpc, Hoc;
    destruct (combined !! pc st2) as [b|]; try (eexists; reflexivity);
    destruct (max_opcode_count limits <=? opcode_count (result st2));
    try (eexists; reflexivity); try discriminate.
  destruct (execute_step M2 tx input_index limits combined b st2)
    as [[brk st2'']|] eqn:Hstep2; [|discriminate].
  destruct (execute_step_transfer _ _ _ _ _ _ _ _ _ _ _ Hfig Hstep2 Hshape Hnn)
    as [st1'' Hstep1].
  rewrite Hstep1.
  destruct brk; [eexists; reflexivity|].
  destruct (execute_step_shape _ _ _ _ _ _ _ _ _ _ _ _ _ Hstep1 Hstep2 Hshape)
    as [_ Hshape'].
  pose proof (execute_step_stack_nonneg _ _ _ _ _ _ _ _ _ Hstep1 Hnn) as Hnn'.
  eapply IH; eassumption.
Qed.

Lemma figures_transfer_of_coefficients (M1 M2 : Impl) :
  Impl_ok M1 -> Impl_ok M2 -> Impl_le M1 M2 -> figures_transfer M1 M2.
Proof.
  intros Hok1 Hok2 Hle.
  pose proof Hok1 as (D1 & P1 & _). pose proof Hok2 as (D2 & P2 & _).
  pose proof Hle as (LD & LP & _).
  split; [|split].
  - intros d2 Hd2.
    eapply u64_of_double_transfer; [|exact Hd2].
    apply coeff_below; assumption.
  - intros n p2 Hn Hp2.
    assert (nnf (dmul (c_parse_per_byte M2) (double_of_u64 n)) = true) as F
      by (apply (u64_of_double_nnf _ p2); [solve_nnb|exact Hp2]).
    eapply u64_of_double_transfer; [|exact Hp2].
    solve_below.
  - intros op ps c2 Hps Hc2.
    apply (calculate_opcode_cost_transfer M1 M2 op ps c2); assumption.
Qed.



Lemma model_dup_ok (slope : double) :
  nnf slope = true -> Impl_ok (model_dup slope).
Proof.
  intros Hs. split; [reflexivity|]. split; [reflexivity|].
  intros op m. cbn [opcode_costs model_dup].
  rewrite lookup_singleton_Some. intros [_ <-].
  repeat split; try reflexivity. exact Hs.
Qed.

Lemma model_dup_le (s1 s2 : double) :
  dle s1 s2 -> Impl_le (model_dup s1) (model_dup s2).
Proof.
  intros Hs. split; [reflexivity|]. split; [reflexivity|].
  intros op. cbn [opcode_costs model_dup].
  destruct (decide (op = OP_DUP)) as [->|Hne].
  - rewrite !lookup_singleton_eq. constructor.
    repeat split; try reflexivity. exact Hs.
  - rewrite !lookup_singleton_ne by congruence. constructor.
Qed.

(** C7, as the code has it.  Take two cost models that load the same
    opcodes with the same formula types, whose coefficients are finite
    non-negative binary64 values, the first below the second on every
    coefficient ([c_dispatch], [c_parse_per_byte] and the seven
    coefficients of each opcode).  For every script pair, transaction, input
    index and limits on which the estimate under the second model is defined
    and its charges, summed without reduction, stay below [2^64], the
    estimate under the first model is defined too and its total is at most
    the second total. *)
Theorem estimate_monotone (M1 M2 : Impl) (unlocking locking : Script)
    (tx : Transaction) (input_index : N) (limits : EstimatorLimits)
    (r2 : CostEstimate) :
  Impl_ok M1 -> Impl_ok M2 -> Impl_le M1 M2 ->
  Impl_estimate M2 unlocking locking tx input_index limits = Returned r2 ->
  exact_total M2 unlocking locking tx input_index limits < 2 ^ 64 ->
  exists r1,
    Impl_estimate M1 unlocking locking tx input_index limits = Returned r1 /\
    total_cycles r1 <= total_cycles r2.
Proof.
  intros Hok1 Hok2 Hle H2 Hfit.
  pose proof (figures_transfer_of_coefficients M1 M2 Hok1 Hok2 Hle) as Hfig.
  assert (exists r1,
            Impl_estimate M1 unlocking locking tx input_index limits
            = Returned r1) as [r1 H1].
  { pose proof Hfig as (_ & Hp & _).
    unfold Impl_estimate in H2 |- *.
    destruct (max_script_size limits <? _); [eexists; reflexivity|].
    destruct (u64_of_double (dmul (c_parse_per_byte M2) _)) as [p2|] eqn:Hp2;
      [|discriminate].
    destruct (Hp _ p2 (Nat2Z.is_nonneg _) Hp2) as (p1 & -> & _).
    destruct (run M2 _ _ _ _ _ _) as [st2'| |] eqn:Hrun2; try discriminate.
    destruct (run_transfer M1 M2 _ _ _ _ _ (initial_state p1) _ _ Hfig Hrun2
                eq_refl (Forall_nil_2 _)) as [st1' ->].
    eexists; reflexivity. }
  exists r1. split; [assumption|].
  eapply total_monotone_in_figures;
    [apply figures_transfer_le; exact Hfig|exact H1|exact H2|exact Hfit].
Qed.

Lemma estimate_monotone_witness :
  exists r1,
    Impl_estimate (model_dup d_0_8) [x01; xaa] [x76] tx_simple 0
      default_limits = Returned r1 /\
    total_cycles r1 <= 22.
Proof.
  assert (Impl_estimate (model_dup d_5_0) [x01; xaa] [x76] tx_simple 0
            default_limits
          = Returned {|
              total_cycles := 22;
              breakdown := {| parsing := 2; dispatch := 10; stack_ops := 10;
                              byte_ops := 0; hashing := 0; signatures := 0;
                              control_flow := 0 |};
              peak_stack_bytes := 2;
              peak_stack_items := 2;
              signature_count := 0;
              opcode_count := 2;
              warnings := [] |}) as H2 by (vm_compute; reflexivity).
  assert (exact_total (model_dup d_5_0) [x01; xaa] [x76] tx_simple 0
            default_limits < 2 ^ 64) as Hfit by (vm_compute; reflexivity).
  exact (estimate_monotone (model_dup d_0_8) (model_dup d_5_0)
           [x01; xaa] [x76] tx_simple 0 default_limits _
           (model_dup_ok d_0_8 eq_refl) (model_dup_ok d_5_0 eq_refl)
           (model_dup_le d_0_8 d_5_0 eq_refl) H2 Hfit).
Defined.

(** C7, as the specification words it, fails.  First, [total_cycles] is a
    [uint64_t]: raising [c_dispatch] from [2^62] to [2^63] makes the total of
    three opcodes wrap around and come out smaller.  Second, a model that
    has no entry for an opcode charges the fallback 100 for it, more than a
    model that lists the opcode at cost zero, although every coefficient the
    two models share is equal.  Third, a negative coefficient below a
    positive one leaves the smaller model without any estimate: the cast of
    [-5.0] to [uint64_t] is undefined. *)
Lemma estimate_monotone_counterexample :
  (Impl_le model_dispatch_2p62 model_dispatch_2p63 /\
   exists r1 r2,
     Impl_estimate model_dispatch_2p62 [] [x61; x61; x61] tx_simple 0
       default_limits = Returned r1 /\
     Impl_estimate model_dispatch_2p63 [] [x61; x61; x61] tx_simple 0
       default_limits = Returned r2 /\
     total_cycles r2 < total_cycles r1) /\
  (Impl_le_common default_Impl model_dup_free /\
   exists r1 r2,
     Impl_estimate default_Impl [] [x76] tx_simple 0 default_limits
     = Returned r1 /\
     Impl_estimate model_dup_free [] [x76] tx_simple 0 default_limits
     = Returned r2 /\
     total_cycles r2 < total_cycles r1) /\
  (Impl_le model_dispatch_negative default_Impl /\
   Impl_estimate model_dispatch_negative [] [x76] tx_simple 0 default_limits
   = Undefined).
Proof.
  split; [|split]; split.
  - split; [reflexivity|]. split; [reflexivity|].
    intros op. cbn. rewrite lookup_empty. constructor.
  - eexists _, _. split; [vm_compute; reflexivity|].
    split; [vm_compute; reflexivity|]. reflexivity.
  - split; [reflexivity|]. split; [reflexivity|].
    intros op m1 m2. cbn. rewrite lookup_empty. discriminate.
  - eexists _, _. split; [vm_compute; reflexivity|].
    split; [vm_compute; reflexivity|]. reflexivity.
  - split; [reflexivity|]. split; [reflexivity|].
    intros op. cbn. rewrite lookup_empty. constructor.
  - vm_compute. reflexivity.
Qed.

(** * Further properties *)

(** ** Serialized size and sighash preimage size *)

Lemma serialize_fold_inputs (l : list TxInput) (acc : Z) :
  fold_left
    (fun size input =>
       let size := wrap64 (size + 36) in
       let size :=
         wrap64 (size + wrap64 (1 + Z.of_nat (length (script_sig input)))) in
       wrap64 (size + 4))
    l (wrap64 acc)
  = wrap64 (acc + sum_bytes input_bytes l).
Proof.
  revert acc. induction l as [|x l IH]; intros acc; simpl.
  - f_equal. lia.
  - replace (wrap64 (wrap64 (wrap64 (wrap64 acc + 36)
               + wrap64 (1 + Z.of_nat (length (script_sig x)))) + 4))
      with (wrap64 (acc + input_bytes x))
      by (unfold input_bytes; wrap64_solve).
    rewrite IH. f_equal. lia.
Qed.

Lemma serialize_fold_outputs (l : list TxOutput) (acc : Z) :
  fold_left
    (fun size output =>
       let size := wrap64 (size + 8) in
       wrap64 (size + wrap64 (1 + Z.of_nat (length (script_pubkey output)))))
    l (wrap64 acc)
  = wrap64 (acc + sum_bytes output_bytes l).
Proof.
  revert acc. induction l as [|x l IH]; intros acc; simpl.
  - f_equal. lia.
  - replace (wrap64 (wrap64 (wrap64 acc + 8)
               + wrap64 (1 + Z.of_nat (length (script_pubkey x)))))
      with (wrap64 (acc + output_bytes x))
      by (unfold output_bytes; wrap64_solve).
    rewrite IH. f_equal. lia.
Qed.

Lemma serialize_size_sum (tx : Transaction) :
  serialize_size tx
  = wrap64 (4 + 1 + sum_bytes input_bytes (inputs tx)
            + 1 + sum_bytes output_bytes (outputs tx) + 4).
Proof.
  unfold serialize_size. cbv zeta.
  rewrite serialize_fold_inputs.
  rewrite wrap64_add_l, serialize_fold_outputs.
  generalize (sum_bytes input_bytes (inputs tx)),
             (sum_bytes output_bytes (outputs tx)). intros.
  wrap64_solve.
Qed.

(** X1.  For a sighash type without [ANYONECANPAY] whose base type is neither
    [SINGLE] nor [NONE], the preimage size is the serialized size of the
    transaction plus the four bytes of the sighash type, as a 64-bit
    value. *)
Theorem sighash_all_is_serialize_size_plus_4 (tx : Transaction)
    (input_index ty : N) :
  anyone_can_pay ty = false ->
  base_type ty <> SIGHASH_SINGLE -> base_type ty <> SIGHASH_NONE ->
  calculate_sighash_size tx input_index ty
  = Some (wrap64 (serialize_size tx + 4)).
Proof.
  intros Hacp Hs Hn.
  rewrite calculate_sighash_size_unfold, Hacp. f_equal.
  unfold inputs_section, outputs_section. rewrite Hacp.
  destruct (N.eqb_spec (base_type ty) SIGHASH_SINGLE); [contradiction|].
  destruct (N.eqb_spec (base_type ty) SIGHASH_NONE); [contradiction|].
  rewrite serialize_size_sum.
  generalize (sum_bytes input_bytes (inputs tx)),
             (sum_bytes output_bytes (outputs tx)). intros.
  wrap64_solve.
Qed.

Lemma sighash_all_is_serialize_size_plus_4_witness :
  calculate_sighash_size tx_simple 0 SIGHASH_ALL
  = Some (wrap64 (serialize_size tx_simple + 4)).
Proof.
  apply (sighash_all_is_serialize_size_plus_4 tx_simple 0 SIGHASH_ALL).
  - reflexivity.
  - vm_compute. discriminate.
  - vm_compute. discriminate.
Defined.

(** X3.  [calculate_sighash_size] reads the sighash type through the masks
    [0x1f] and [0x80] alone: two types that agree on those six bits (for
    instance with and without the [0x40] fork-id bit) give the same
    result, defined or not. *)
Theorem sighash_size_reads_six_flag_bits (tx : Transaction)
    (input_index ty ty' : N) :
  N.land ty 0x9f = N.land ty' 0x9f ->
  calculate_sighash_size tx input_index ty
  = calculate_sighash_size tx input_index ty'.
Proof.
  intros H. unfold calculate_sighash_size.
  replace (N.land ty 31) with (N.land (N.land ty 0x9f) 31)
    by (rewrite <- N.land_assoc; reflexivity).
  replace (N.land ty SIGHASH_ANYONECANPAY)
    with (N.land (N.land ty 0x9f) SIGHASH_ANYONECANPAY)
    by (rewrite <- N.land_assoc; reflexivity).
  rewrite H.
  rewrite <- !N.land_assoc. reflexivity.
Qed.

Lemma sighash_size_reads_six_flag_bits_witness :
  calculate_sighash_size tx_simple 0 0x41
  = calculate_sighash_size tx_simple 0 SIGHASH_ALL.
Proof.
  apply (sighash_size_reads_six_flag_bits tx_simple 0 0x41 SIGHASH_ALL).
  reflexivity.
Defined.

Lemma sum_bytes_lookup_le {A : Type} (f : A -> Z) (l : list A) (i : nat) :
  (forall x, 0 <= f x) ->
  0 <= from_option f 0 (l !! i) <= sum_bytes f l.
Proof.
  intros Hf. revert i. induction l as [|x l IH]; intros i.
  - rewrite lookup_nil. simpl. lia.
  - destruct i as [|i]; simpl.
    + specialize (IH 0%nat). specialize (Hf x).
      fold (sum_bytes f l). lia.
    + specialize (IH i). specialize (Hf x). fold (sum_bytes f l). lia.
Qed.

(** X2.  When the full preimage (every input, every output) fits 64 bits,
    no sighash type gives a larger size than [SIGHASH_ALL]: whatever
    [calculate_sighash_size] returns for a type, it returns at least as
    much for [SIGHASH_ALL]. *)
Theorem sighash_all_is_largest (tx : Transaction) (input_index ty : N)
    (z : Z) :
  4 + 4 + 4 + (1 + sum_bytes input_bytes (inputs tx))
  + (1 + sum_bytes output_bytes (outputs tx)) < 2 ^ 64 ->
  calculate_sighash_size tx input_index ty = Some z ->
  exists zall,
    calculate_sighash_size tx input_index SIGHASH_ALL = Some zall /\
    z <= zall.
Proof.
  intros Hfit Hz.
  rewrite calculate_sighash_size_unfold. 
  change (anyone_can_pay SIGHASH_ALL) with false. cbv iota.
  eexists; split; [reflexivity|].
  unfold inputs_section at 1, outputs_section at 1.
  change (anyone_can_pay SIGHASH_ALL) with false.
  change (base_type SIGHASH_ALL =? SIGHASH_SINGLE)%N with false.
  change (base_type SIGHASH_ALL =? SIGHASH_NONE)%N with false. cbv iota.
  pose proof (sum_bytes_lookup_le input_bytes (inputs tx)
                (N.to_nat input_index)) as Hi.
  pose proof (sum_bytes_lookup_le output_bytes (outputs tx)
                (N.to_nat input_index)) as Ho.
  assert (0 <= from_option input_bytes 0 (inputs tx !! N.to_nat input_index)
          <= sum_bytes input_bytes (inputs tx)) as Hi'
    by (apply Hi; intros x; unfold input_bytes; lia).
  assert (0 <= from_option output_bytes 0
                  (outputs tx !! N.to_nat input_index)
          <= sum_bytes output_bytes (outputs tx)) as Ho'
    by (apply Ho; intros x; unfold output_bytes; lia).
  clear Hi Ho.
  assert (z = wrap64 (4 + 4 + 4 + inputs_section tx input_index ty
                      + outputs_section tx input_index ty)) as ->.
  { rewrite calculate_sighash_size_unfold in Hz.
    destruct (anyone_can_pay ty);
      [destruct (inputs tx !! N.to_nat input_index)|]; congruence. }
  assert (0 <= inputs_section tx input_index ty
          <= 1 + sum_bytes input_bytes (inputs tx)) as Hin.
  { unfold inputs_section. destruct (anyone_can_pay ty); lia. }
  assert (0 <= outputs_section tx input_index ty
          <= 1 + sum_bytes output_bytes (outputs tx)) as Hout.
  { unfold outputs_section.
    destruct (base_type ty =? SIGHASH_SINGLE)%N.
    - destruct (outputs tx !! N.to_nat input_index); simpl in *; lia.
    - destruct (base_type ty =? SIGHASH_NONE)%N; lia. }
  rewrite !wrap64_small; lia.
Qed.

Lemma sighash_all_is_largest_witness :
  exists zall,
    calculate_sighash_size tx_simple 0 SIGHASH_ALL = Some zall /\
    67 <= zall.
Proof.
  apply (sighash_all_is_largest tx_simple 0
           (SIGHASH_SINGLE + SIGHASH_ANYONECANPAY) 67).
  - vm_compute. reflexivity.
  - reflexivity.
Defined.


(** ** Conversion to a fee *)

(** A positive 64-bit integer converts to a positive finite binary64 whose
    value lies between 1 and [2^64]. *)
Lemma double_of_u64_finite (n : Z) :
  0 < n < 2 ^ 64 ->
  exists m e, double_of_u64 n = S754_finite false m e /\
              bounded 53 1024 m e = true /\
              2 ^ 1074 <= V (double_of_u64 n) <= 2 ^ 1138.
Proof.
  intros Hn. unfold double_of_u64.
  pose proof (binary_normalize_rounds_to n ltac:(lia)) as Hr.
  assert (1 * 2 ^ 1074 <= n * 2 ^ 1074 <= 2 ^ 64 * 2 ^ 1074) as Hv.
  { assert (0 < 2 ^ 1074) by (apply pow2_pos; lia). nia. }
  assert (W 1074 (1 * 2 ^ 1074) = 2 ^ 1074) as Hlo.
  { pose proof (W_representable 4503599627370496 (-52) eq_refl) as H.
    cbn [V] in H. 
    replace (1 * 2 ^ 1074) with (Z.pos 4503599627370496 * 2 ^ (-52 + 1074))
      by (vm_compute; reflexivity).
    rewrite H. vm_compute. reflexivity. }
  assert (W 1074 (2 ^ 64 * 2 ^ 1074) = 2 ^ 1138) as Hhi.
  { pose proof (W_representable 4503599627370496 12 eq_refl) as H.
    cbn [V] in H.
    replace (2 ^ 64 * 2 ^ 1074) with (Z.pos 4503599627370496 * 2 ^ (12 + 1074))
      by (vm_compute; reflexivity).
    rewrite H. vm_compute. reflexivity. }
  assert (0 < 2 ^ 1074) as Hp by (apply pow2_pos; lia).
  pose proof (W_mono 1074 (1 * 2 ^ 1074) (n * 2 ^ 1074) ltac:(lia)
                ltac:(lia)) as Hm1.
  pose proof (W_mono 1074 (n * 2 ^ 1074) (2 ^ 64 * 2 ^ 1074) ltac:(lia)
                ltac:(lia)) as Hm2.
  rewrite Hlo in Hm1. rewrite Hhi in Hm2.
  assert (2 ^ 1138 < 2 ^ 2098) as Hlt by (apply pow2_lt; lia).
  destruct Hr as [(Hz & _)|[(_ & _ & Hnn & HV)|(_ & Hbig & _)]]; [lia| |lia].
  destruct (binary_normalize 53 1024 n 0 false) as [s|s| |[] m e];
    try discriminate Hnn.
  - cbn [V] in HV. lia.
  - exists m, e. split; [reflexivity|]. split; [exact Hnn|].
    rewrite HV. lia.
Qed.

Lemma iter_pos_preserves {A : Type} (P : A -> Prop) (f : A -> A) :
  (forall x, P x -> P (f x)) ->
  forall (p : positive) (x : A), P x -> P (SpecFloat.iter_pos f p x).
Proof.
  intros Hf. induction p as [p IH|p IH|]; intros x Hx; cbn.
  - apply IH, IH, Hf, Hx.
  - apply IH, IH, Hx.
  - apply Hf, Hx.
Qed.

Lemma shr_fexp_nonneg (m e : Z) (l : location) :
  0 <= m -> 0 <= shr_m (fst (shr_fexp 53 1024 m e l)).
Proof.
  intros Hm. unfold shr_fexp, shr.
  assert (0 <= shr_m (shr_record_of_loc m l)) as H0
    by (destruct l as [|[]]; exact Hm).
  destruct (fexp 53 1024 (Zdigits2 m + e) - e) as [|p|p]; cbn [fst];
    try exact H0.
  apply (iter_pos_preserves (fun mrs => 0 <= shr_m mrs)); [|exact H0].
  intros [m0 r0 s0] H. cbn in H. rewrite shr_1_spec by exact H. cbn.
  apply Z.div_pos; lia.
Qed.

(** Rounding a non-negative mantissa gives a zero, a finite number or an
    infinity, of the sign asked for. *)
Lemma binary_round_aux_sign (sx : bool) (mx ex : Z) (lx : location) :
  0 <= mx ->
  match binary_round_aux 53 1024 sx mx ex lx with
  | S754_zero s | S754_infinity s | S754_finite s _ _ => s = sx
  | S754_nan => False
  end.
Proof.
  intros Hm. unfold binary_round_aux.
  pose proof (shr_fexp_nonneg mx ex lx Hm) as H1.
  destruct (shr_fexp 53 1024 mx ex lx) as [mrs1 e1]. cbn [fst] in H1.
  assert (0 <= round_nearest_even (shr_m mrs1) (loc_of_shr_record mrs1))
    as H2.
  { unfold round_nearest_even.
    destruct (loc_of_shr_record mrs1) as [|[]]; try lia.
    destruct (Z.even (shr_m mrs1)); lia. }
  pose proof (shr_fexp_nonneg _ e1 loc_Exact H2) as H3.
  destruct (shr_fexp 53 1024 _ e1 loc_Exact) as [mrs2 e2]. cbn [fst] in H3.
  destruct (shr_m mrs2) as [|p|p]; [reflexivity| |lia].
  destruct (e2 <=? 1024 - 53); reflexivity.
Qed.

Lemma SFdiv_core_binary_nonneg (m1 e1 m2 e2 : Z) :
  0 <= m1 -> 0 < m2 ->
  0 <= fst (fst (SFdiv_core_binary 53 1024 m1 e1 m2 e2)).
Proof.
  intros H1 H2. unfold SFdiv_core_binary.
  set (s := e1 - e2 - _).
  set (m' := match s with Z.pos _ => Z.shiftl m1 s | 0 => m1 | _ => 0 end).
  assert (0 <= m') as Hm'.
  { subst m'. destruct s; try lia. apply Z.shiftl_nonneg. exact H1. }
  pose proof (Z_div_mod m' m2 ltac:(lia)) as Hdm.
  destruct (Z.div_eucl m' m2) as [q r]. cbn [fst].
  destruct Hdm as [Heq Hr]. nia.
Qed.

(** X4.  [to_fee] divides two binary64 values with no guard: a zero total
    over a positive divisor is [+0.0], a positive total over a zero
    divisor is [+infinity], and the result is not a number exactly when
    both are zero.  The result never carries a negative sign. *)
Theorem to_fee_zero_cases (r : CostEstimate) (cycles_per_unit : Z) :
  0 <= total_cycles r < 2 ^ 64 -> 0 <= cycles_per_unit < 2 ^ 64 ->
  (total_cycles r = 0 -> 0 < cycles_per_unit ->
   to_fee r cycles_per_unit = S754_zero false) /\
  (0 < total_cycles r -> cycles_per_unit = 0 ->
   to_fee r cycles_per_unit = S754_infinity false) /\
  (to_fee r cycles_per_unit = S754_nan <->
   total_cycles r = 0 /\ cycles_per_unit = 0) /\
  match to_fee r cycles_per_unit with
  | S754_zero s | S754_infinity s | S754_finite s _ _ => s = false
  | S754_nan => True
  end.
Proof.
  intros Ht Hc. unfold to_fee, ddiv.
  destruct (Z.eq_dec (total_cycles r) 0) as [Et|Et];
    destruct (Z.eq_dec cycles_per_unit 0) as [Ec|Ec].
  - rewrite Et, Ec. cbn. repeat split; try lia; reflexivity.
  - rewrite Et.
    destruct (double_of_u64_finite cycles_per_unit ltac:(lia))
      as (m & e & -> & _).
    cbn. repeat split; try lia; try discriminate; intros [_ ?]; lia.
  - rewrite Ec.
    destruct (double_of_u64_finite (total_cycles r) ltac:(lia))
      as (m & e & -> & _).
    cbn. repeat split; try lia; try discriminate; intros [? _]; lia.
  - destruct (double_of_u64_finite (total_cycles r) ltac:(lia))
      as (m1 & e1 & -> & _).
    destruct (double_of_u64_finite cycles_per_unit ltac:(lia))
      as (m2 & e2 & -> & _).
    cbn [SFdiv xorb].
    pose proof (SFdiv_core_binary_nonneg (Z.pos m1) e1 (Z.pos m2) e2
                  ltac:(lia) ltac:(lia)) as Hq.
    destruct (SFdiv_core_binary 53 1024 (Z.pos m1) e1 (Z.pos m2) e2)
      as [[mz ez] lz]. cbn [fst] in Hq.
    pose proof (binary_round_aux_sign false mz ez lz Hq) as Hs.
    destruct (binary_round_aux 53 1024 false mz ez lz);
      repeat split; try lia; try discriminate; try exact Hs;
      try (intros [? _]; lia); contradiction.
Qed.

Lemma to_fee_zero_cases_witness :
  to_fee empty_estimate 0 = S754_nan.
Proof.
  apply (to_fee_zero_cases empty_estimate 0); cbn; lia.
Defined.


(** ** Invariants of the loop *)

(** Induction along the loop: [P] holds on entry to every pass, [Q] on
    every way out. *)
Lemma run_invariant (P Q : ExecState -> Prop) (M : Impl) (tx : Transaction)
    (input_index : N) (limits : EstimatorLimits) (combined : Script) :
  (forall st, P st -> combined !! pc st = None -> Q st) ->
  (forall st op, P st -> combined !! pc st = Some op ->
     max_opcode_count limits <= opcode_count (result st) ->
     Q (with_result (push_warning "Opcode count limit exceeded") st)) ->
  (forall st op brk st', P st -> combined !! pc st = Some op ->
     opcode_count (result st) < max_opcode_count limits ->
     execute_step M tx input_index limits combined op st = Some (brk, st') ->
     if brk then Q st' else P st') ->
  forall fuel st st',
    run M tx input_index limits combined fuel st = Returned st' ->
    P st -> Q st'.
Proof.
  intros Hend Hlimit Hstep.
  induction fuel as [|fuel IH]; intros st st' Hrun HP; cbn in Hrun;
    destruct (combined !! pc st) as [op|] eqn:Hop;
    try (injection Hrun as <-; apply Hend; assumption);
    destruct (Z.leb_spec (max_opcode_count limits) (opcode_count (result st)));
    try (injection Hrun as <-; eapply Hlimit; eassumption);
    try discriminate.
  destruct (execute_step M tx input_index limits combined op st)
    as [[brk st1]|] eqn:Hs; [|discriminate].
  specialize (Hstep st op brk st1 HP Hop ltac:(lia) Hs).
  destruct brk.
  - injection Hrun as <-. exact Hstep.
  - eapply IH; eassumption.
Qed.

(** Decides the remaining opcode tests of a goal from the tests already
    taken. *)
Ltac decide_opcode :=
  repeat match goal with
    | E : (_ || _) = true |- _ => apply orb_true_iff in E; destruct E
    | E : (byte_val _ =? _) = true |- _ => apply Z.eqb_eq in E; rewrite E in *
    end;
  repeat match goal with
    | |- context [?a =? ?b] =>
        let v := eval vm_compute in (a =? b) in
        match v with
        | true => change (a =? b) with true
        | false => change (a =? b) with false
        end
    end.

(** What one pass does to the counters, the peaks and the warnings. *)
Lemma execute_step_counters (M : Impl) (tx : Transaction) (input_index : N)
    (limits : EstimatorLimits) (combined : Script) (op_byte : byte)
    (st st' : ExecState) (brk : bool) :
  execute_step M tx input_index limits combined op_byte st = Some (brk, st') ->
  opcode_count (result st') = wrap32 (opcode_count (result st) + 1) /\
  (exists d, u64_of_double (c_dispatch M) = Some d /\
     dispatch (breakdown (result st'))
     = wrap64 (dispatch (breakdown (result st)) + d)) /\
  (length (stack_sizes st') <= S (length (stack_sizes st)))%nat /\
  peak_stack_bytes (result st')
  = Z.max (peak_stack_bytes (result st)) (current_stack_bytes st') /\
  peak_stack_items (result st')
  = Z.max (peak_stack_items (result st))
          (wrap32 (Z.of_nat (length (stack_sizes st')))) /\
  signature_count (result st')
  = (if runs_checksig combined (op_byte, st)
     then wrap32 (signature_count (result st) + 1)
     else signature_count (result st)) /\
  (if brk then
     (max_stack_item_size limits < current_stack_bytes st' /\
      warnings (result st')
      = warnings (result st) ++ ["Stack byte limit exceeded"]) \/
     (current_stack_bytes st' <= max_stack_item_size limits /\
      max_stack_items limits < Z.of_nat (length (stack_sizes st')) /\
      warnings (result st')
      = warnings (result st) ++ ["Stack item count limit exceeded"])
   else
     current_stack_bytes st' <= max_stack_item_size limits /\
     Z.of_nat (length (stack_sizes st')) <= max_stack_items limits /\
     warnings (result st') = warnings (result st)).
Proof.
  unfold runs_checksig, takes_push_branch. cbn [fst snd].
  intros H.
  split_step H; inversion H; subst; clear H;
    cbn;
    repeat match goal with
      | E : _ = _ |- _ => rewrite E
      end;
    decide_opcode;
    cbn;
    (split; [reflexivity|]);
    (split; [eexists; split; reflexivity|]);
    (split; [lia|]);
    (split; [reflexivity|]);
    (split; [reflexivity|]);
    (split; [reflexivity|]);
    repeat match goal with
      | E : (_ <? _) = true |- _ => apply Z.ltb_lt in E
      | E : (_ <? _) = false |- _ => apply Z.ltb_ge in E
      end;
    cbn in *;
    first [ left; split; [assumption|reflexivity]
          | right; split; [assumption|split; [assumption|reflexivity]]
          | split; [assumption|split; [assumption|reflexivity]] ].
Qed.

(** How a call of [Impl::estimate] that returns came to its result. *)
Lemma Impl_estimate_returned (M : Impl) (unlocking locking : Script)
    (tx : Transaction) (input_index : N) (limits : EstimatorLimits)
    (r : CostEstimate) :
  Impl_estimate M unlocking locking tx input_index limits = Returned r ->
  (max_script_size limits < Z.of_nat (length (unlocking ++ locking)) /\
   r = push_warning "Script exceeds size limit" empty_estimate) \/
  (Z.of_nat (length (unlocking ++ locking)) <= max_script_size limits /\
   exists p st,
     u64_of_double
       (dmul (c_parse_per_byte M)
             (double_of_u64 (Z.of_nat (length (unlocking ++ locking)))))
     = Some p /\
     run M tx input_index limits (unlocking ++ locking)
         (length (unlocking ++ locking)) (initial_state p) = Returned st /\
     r = result st).
Proof.
  unfold Impl_estimate.
  destruct (Z.ltb_spec (max_script_size limits)
              (Z.of_nat (length (unlocking ++ locking)))) as [Hlt|Hge].
  - intros [= <-]. left. split; [assumption|reflexivity].
  - destruct (u64_of_double _) as [p|]; [|discriminate].
    destruct (run _ _ _ _ _ _ _) as [st| |] eqn:Hrun; try discriminate.
    intros [= <-]. right. split; [assumption|].
    exists p, st. repeat split. exact Hrun.
Qed.

Lemma wrap32_small (z : Z) : 0 <= z < 2 ^ 32 -> wrap32 z = z.
Proof. unfold wrap32. intros. apply Z.mod_small. lia. Qed.

Lemma wrap32_le (z : Z) : 0 <= z -> 0 <= wrap32 z <= z.
Proof.
  intros Hz. unfold wrap32. split.
  - apply Z.mod_pos_bound. lia.
  - apply Z.mod_le; lia.
Qed.

Lemma counters_ok_step (M : Impl) (tx : Transaction) (input_index : N)
    (limits : EstimatorLimits) (combined : Script) (op : byte)
    (st st' : ExecState) (brk : bool) :
  max_opcode_count limits < 2 ^ 32 ->
  counters_ok limits combined st ->
  combined !! pc st = Some op ->
  opcode_count (result st) < max_opcode_count limits ->
  execute_step M tx input_index limits combined op st = Some (brk, st') ->
  counters_ok limits combined st' /\
  opcode_count (result st') = opcode_count (result st) + 1.
Proof.
  intros Hmax (Hoc & Hpc & Hlen & Hst & Hpk & Hsc) Hop Hlt Hstep.
  pose proof (execute_step_pc _ _ _ _ _ _ _ _ _ Hstep) as Hpc'.
  apply execute_step_counters in Hstep.
  destruct Hstep as (Hoc' & _ & Hst' & _ & Hpk' & Hsc' & _).
  apply lookup_lt_Some in Hop.
  rewrite wrap32_small in Hoc' by lia.
  assert (Z.of_nat (length (stack_sizes st')) < 2 ^ 32) by lia.
  rewrite wrap32_small in Hpk' by lia.
  assert (0 <= signature_count (result st')
          <= opcode_count (result st) + 1) as Hsc''.
  { rewrite Hsc'. destruct (runs_checksig _ _); [|lia].
    rewrite wrap32_small; lia. }
  unfold counters_ok. rewrite Hoc', Hpk'. repeat split; lia.
Qed.

Lemma counters_ok_initial (limits : EstimatorLimits) (combined : Script)
    (p : Z) :
  0 <= max_opcode_count limits ->
  counters_ok limits combined (initial_state p).
Proof. intros. unfold counters_ok. cbn. lia. Qed.

(** X5.  With [max_opcode_count] a 32-bit value, every estimate returned
    has [opcode_count] at most [max_opcode_count] and at most the length
    of the combined script, and neither [signature_count] nor
    [peak_stack_items] exceeds [opcode_count]. *)
Theorem opcode_count_bounded (M : Impl) (unlocking locking : Script)
    (tx : Transaction) (input_index : N) (limits : EstimatorLimits)
    (r : CostEstimate) :
  0 <= max_opcode_count limits < 2 ^ 32 ->
  Impl_estimate M unlocking locking tx input_index limits = Returned r ->
  0 <= opcode_count r <= max_opcode_count limits /\
  opcode_count r <= Z.of_nat (length unlocking + length locking) /\
  0 <= signature_count r <= opcode_count r /\
  0 <= peak_stack_items r <= opcode_count r.
Proof.
  intros Hmax Hr. rewrite <- length_app.
  apply Impl_estimate_returned in Hr.
  destruct Hr as [[_ ->]|(_ & p & st & _ & Hrun & ->)]; [cbn; lia|].
  assert (counters_ok limits (unlocking ++ locking) st) as Hok.
  { refine (run_invariant (counters_ok limits (unlocking ++ locking))
              (counters_ok limits (unlocking ++ locking))
              M tx input_index limits (unlocking ++ locking)
              _ _ _ _ _ _ Hrun (counters_ok_initial _ _ _ _)); [| | |lia].
    - intros st0 H _. exact H.
    - intros st0 op H _ _. exact H.
    - intros st0 op brk st' H Hop Hlt Hstep.
      destruct (counters_ok_step _ _ _ _ _ _ _ _ _ (proj2 Hmax) H Hop Hlt
                  Hstep) as [H' _].
      destruct brk; exact H'. }
  destruct Hok as (? & ? & ? & ? & ? & ?). repeat split; lia.
Qed.

Lemma opcode_count_bounded_witness :
  0 <= opcode_count
         {| total_cycles := 112;
            breakdown := {| parsing := 2; dispatch := 10; stack_ops := 100;
                            byte_ops := 0; hashing := 0; signatures := 0;
                            control_flow := 0 |};
            peak_stack_bytes := 2; peak_stack_items := 2;
            signature_count := 0; opcode_count := 2; warnings := [] |}
  <= 1000000.
Proof.
  assert (Impl_estimate default_Impl [x01; xaa] [x76] tx_simple 0
            default_limits
          = Returned {|
              total_cycles := 112;
              breakdown := {| parsing := 2; dispatch := 10; stack_ops := 100;
                              byte_ops := 0; hashing := 0; signatures := 0;
                              control_flow := 0 |};
              peak_stack_bytes := 2;
              peak_stack_items := 2;
              signature_count := 0;
              opcode_count := 2;
              warnings := [] |}) as H by (vm_compute; reflexivity).
  apply (opcode_count_bounded default_Impl [x01; xaa] [x76] tx_simple 0
           default_limits _ ltac:(cbn; lia) H).
Defined.

(** X6.  The [dispatch] category of a returned estimate is [opcode_count]
    times the truncated [c_dispatch], as a 64-bit value. *)
Theorem dispatch_is_overhead_per_opcode (M : Impl)
    (unlocking locking : Script) (tx : Transaction) (input_index : N)
    (limits : EstimatorLimits) (r : CostEstimate) :
  0 <= max_opcode_count limits < 2 ^ 32 ->
  Impl_estimate M unlocking locking tx input_index limits = Returned r ->
  dispatch (breakdown r)
  = wrap64 (opcode_count r * default 0 (u64_of_double (c_dispatch M))).
Proof.
  intros Hmax Hr.
  apply Impl_estimate_returned in Hr.
  destruct Hr as [[_ ->]|(_ & p & st & _ & Hrun & ->)]; [reflexivity|].
  set (d := default 0 (u64_of_double (c_dispatch M))).
  set (P := fun st : ExecState =>
              counters_ok limits (unlocking ++ locking) st /\
              dispatch (breakdown (result st))
              = wrap64 (opcode_count (result st) * d)).
  assert (P st) as [_ H]; [|exact H].
  refine (run_invariant P P M tx input_index limits (unlocking ++ locking)
            _ _ _ _ _ _ Hrun _).
  - intros st0 H _. exact H.
  - intros st0 op H _ _. exact H.
  - intros st0 op brk st' [Hok Hd] Hop Hlt Hstep.
    destruct (counters_ok_step _ _ _ _ _ _ _ _ _ (proj2 Hmax) Hok Hop Hlt
                Hstep) as [Hok' Hoc'].
    apply execute_step_counters in Hstep.
    destruct Hstep as (_ & (d' & Hd' & Hdisp) & _).
    assert (P st') as HP.
    { split; [exact Hok'|]. rewrite Hdisp, Hd, Hoc'.
      subst d. rewrite Hd'. simpl.
      rewrite wrap64_add_l. f_equal. lia. }
    destruct brk; exact HP.
  - split; [apply counters_ok_initial; lia|reflexivity].
Qed.


(** ** Warnings and limits *)

(** X10.  An estimate returned without a warning stayed within the limits:
    the combined script is no longer than [max_script_size], and the peaks
    are within [max_stack_item_size] and [max_stack_items]. *)
Theorem warning_free_within_limits (M : Impl) (unlocking locking : Script)
    (tx : Transaction) (input_index : N) (limits : EstimatorLimits)
    (r : CostEstimate) :
  0 <= max_stack_item_size limits -> 0 <= max_stack_items limits ->
  Impl_estimate M unlocking locking tx input_index limits = Returned r ->
  warnings r = [] ->
  Z.of_nat (length unlocking + length locking) <= max_script_size limits /\
  peak_stack_bytes r <= max_stack_item_size limits /\
  peak_stack_items r <= max_stack_items limits.
Proof.
  intros Hb Hi Hr Hw. rewrite <- length_app.
  apply Impl_estimate_returned in Hr.
  destruct Hr as [[_ ->]|(Hlen & p & st & _ & Hrun & ->)]; [discriminate|].
  split; [exact Hlen|].
  set (P := fun st : ExecState =>
              warnings (result st) = [] /\
              peak_stack_bytes (result st) <= max_stack_item_size limits /\
              peak_stack_items (result st) <= max_stack_items limits).
  set (Q := fun st : ExecState =>
              warnings (result st) = [] ->
              peak_stack_bytes (result st) <= max_stack_item_size limits /\
              peak_stack_items (result st) <= max_stack_items limits).
  assert (Q st) as H; [|exact (H Hw)].
  refine (run_invariant P Q M tx input_index limits (unlocking ++ locking)
            _ _ _ _ _ _ Hrun _).
  - intros st0 (_ & H) _ _. exact H.
  - intros st0 op (H0 & _) _ _ H. cbn in H. rewrite H0 in H. discriminate.
  - intros st0 op brk st' (H0 & Hpb & Hpi) _ _ Hstep.
    apply execute_step_counters in Hstep.
    destruct Hstep as (_ & _ & _ & Hpb' & Hpi' & _ & Hbrk).
    destruct brk.
    + intros H. rewrite H0 in Hbrk. cbn in Hbrk.
      destruct Hbrk as [[_ Hbrk]|(_ & _ & Hbrk)]; congruence.
    + destruct Hbrk as (Hcsb & Hlen' & Hw').
      pose proof (wrap32_le (Z.of_nat (length (stack_sizes st')))
                    ltac:(lia)).
      split; [congruence|]. lia.
  - split; [reflexivity|split; [exact Hb|exact Hi]].
Qed.

Lemma warning_free_within_limits_witness :
  peak_stack_bytes
    {| total_cycles := 112;
       breakdown := {| parsing := 2; dispatch := 10; stack_ops := 100;
                       byte_ops := 0; hashing := 0; signatures := 0;
                       control_flow := 0 |};
       peak_stack_bytes := 2; peak_stack_items := 2;
       signature_count := 0; opcode_count := 2; warnings := [] |}
  <= 100000000.
Proof.
  assert (Impl_estimate default_Impl [x01; xaa] [x76] tx_simple 0
            default_limits
          = Returned {|
              total_cycles := 112;
              breakdown := {| parsing := 2; dispatch := 10; stack_ops := 100;
                              byte_ops := 0; hashing := 0; signatures := 0;
                              control_flow := 0 |};
              peak_stack_bytes := 2;
              peak_stack_items := 2;
              signature_count := 0;
              opcode_count := 2;
              warnings := [] |}) as H by (vm_compute; reflexivity).
  apply (warning_free_within_limits default_Impl [x01; xaa] [x76] tx_simple 0
           default_limits _ ltac:(cbn; lia) ltac:(cbn; lia) H eq_refl).
Defined.

(** X9.  An estimate carries at most one warning, and the warning names a
    limit that was in fact passed: the size warning means the combined
    script is longer than [max_script_size]; the opcode warning means
    [opcode_count] stands at [max_opcode_count]; the stack warnings mean
    the peak reported is above [max_stack_item_size], respectively
    [max_stack_items]. *)
Theorem warning_names_the_limit_exceeded (M : Impl)
    (unlocking locking : Script) (tx : Transaction) (input_index : N)
    (limits : EstimatorLimits) (r : CostEstimate) :
  0 <= max_opcode_count limits < 2 ^ 32 ->
  Impl_estimate M unlocking locking tx input_index limits = Returned r ->
  warnings r = [] \/
  (warnings r = ["Script exceeds size limit"] /\
   max_script_size limits < Z.of_nat (length unlocking + length locking)) \/
  (warnings r = ["Opcode count limit exceeded"] /\
   opcode_count r = max_opcode_count limits) \/
  (warnings r = ["Stack byte limit exceeded"] /\
   max_stack_item_size limits < peak_stack_bytes r) \/
  (warnings r = ["Stack item count limit exceeded"] /\
   max_stack_items limits < peak_stack_items r).
Proof.
  intros Hmax Hr. rewrite <- length_app.
  apply Impl_estimate_returned in Hr.
  destruct Hr as [[Hlen ->]|(_ & p & st & _ & Hrun & ->)].
  { right; left. split; [reflexivity|exact Hlen]. }
  set (P := fun st : ExecState =>
              warnings (result st) = [] /\
              counters_ok limits (unlocking ++ locking) st).
  set (Q := fun st : ExecState =>
              warnings (result st) = [] \/
              (warnings (result st) = ["Opcode count limit exceeded"] /\
               opcode_count (result st) = max_opcode_count limits) \/
              (warnings (result st) = ["Stack byte limit exceeded"] /\
               max_stack_item_size limits < peak_stack_bytes (result st)) \/
              (warnings (result st) = ["Stack item count limit exceeded"] /\
               max_stack_items limits < peak_stack_items (result st))).
  assert (Q st) as H.
  { refine (run_invariant P Q M tx input_index limits (unlocking ++ locking)
              _ _ _ _ _ _ Hrun _).
    - intros st0 (H & _) _. left. exact H.
    - intros st0 op (H0 & Hok) _ Hge. right; left. cbn. rewrite H0.
      split; [reflexivity|]. destruct Hok as (? & _). lia.
    - intros st0 op brk st' (H0 & Hok) Hop Hlt Hstep.
      destruct (counters_ok_step _ _ _ _ _ _ _ _ _ (proj2 Hmax) Hok Hop Hlt
                  Hstep) as [Hok' _].
      apply execute_step_counters in Hstep.
      destruct Hstep as (_ & _ & _ & Hpb' & Hpi' & _ & Hbrk).
      destruct brk.
      + right; right. rewrite H0 in Hbrk. cbn in Hbrk.
        destruct Hbrk as [[Hcsb Hw]|(_ & Hlen & Hw)].
        * left. split; [exact Hw|]. lia.
        * right. split; [exact Hw|].
          destruct Hok' as ((? & ?) & _ & _ & ? & _).
          rewrite wrap32_small in Hpi' by lia. lia.
      + split; [|exact Hok'].
        destruct Hbrk as (_ & _ & ->). exact H0.
    - split; [reflexivity|apply counters_ok_initial; lia]. }
  destruct H as [H|[H|[H|H]]]; tauto.
Qed.

Lemma warning_names_the_limit_exceeded_witness :
  [ScriptTooLarge] = [] \/
  ([ScriptTooLarge] = ["Script exceeds size limit"] /\ 3 < 4) \/
  ([ScriptTooLarge] = ["Opcode count limit exceeded"] /\ 0 = 1000000) \/
  ([ScriptTooLarge] = ["Stack byte limit exceeded"] /\ 100000000 < 0) \/
  ([ScriptTooLarge] = ["Stack item count limit exceeded"] /\ 10000 < 0).
Proof.
  assert (Impl_estimate default_Impl (repeat x01 4) [] tx_simple 0
            limits_script_3
          = Returned (push_warning ScriptTooLarge empty_estimate)) as H
    by (vm_compute; reflexivity).
  exact (warning_names_the_limit_exceeded default_Impl (repeat x01 4) []
           tx_simple 0 limits_script_3 _ ltac:(cbn; lia) H).
Defined.

(** X8.  The [control_flow] category is never charged: it is zero in every
    estimate returned. *)
Theorem control_flow_never_charged (M : Impl) (unlocking locking : Script)
    (tx : Transaction) (input_index : N) (limits : EstimatorLimits)
    (r : CostEstimate) :
  Impl_estimate M unlocking locking tx input_index limits = Returned r ->
  control_flow (breakdown r) = 0.
Proof.
  intros Hr. apply Impl_estimate_returned in Hr.
  destruct Hr as [[_ ->]|(_ & p & st & _ & Hrun & ->)]; [reflexivity|].
  apply run_frame in Hrun. destruct Hrun as (_ & _ & ->). reflexivity.
Qed.


(** ** Looser limits *)

Lemma execute_step_split (M : Impl) (tx : Transaction) (input_index : N)
    (limits : EstimatorLimits) (combined : Script) (op_byte : byte)
    (st : ExecState) :
  execute_step M tx input_index limits combined op_byte st
  = (st' ← pass_body M tx input_index combined op_byte st;
     Some (check_stack_limits limits st')).
Proof.
  unfold execute_step, pass_body, check_stack_limits.
  destruct (u64_of_double (c_dispatch M)) as [d|]; [|reflexivity].
  cbn [mbind option_bind].
  match goal with
  | |- context [mbind _ ?o] => destruct o as [st1|]
  end; [|reflexivity].
  cbn [mbind option_bind with_result stack_sizes current_stack_bytes].
  destruct (_ <? _); [reflexivity|].
  destruct (_ <? _); reflexivity.
Qed.

Lemma run_limits_ext (M : Impl) (tx : Transaction) (input_index : N)
    (l1 l2 : EstimatorLimits) (combined : Script) (fuel : nat)
    (st : ExecState) :
  max_stack_items l1 = max_stack_items l2 ->
  max_stack_item_size l1 = max_stack_item_size l2 ->
  max_opcode_count l1 = max_opcode_count l2 ->
  run M tx input_index l1 combined fuel st
  = run M tx input_index l2 combined fuel st.
Proof.
  intros Hi Hb Ho. revert st.
  induction fuel as [|fuel IH]; intros st; cbn; rewrite Ho; [reflexivity|].
  destruct (combined !! pc st) as [op|]; [|reflexivity].
  destruct (_ <=? _); [reflexivity|].
  rewrite !execute_step_split.
  destruct (pass_body M tx input_index combined op st) as [st1|];
    [|reflexivity].
  cbn [mbind option_bind]. unfold check_stack_limits. rewrite Hi, Hb.
  destruct (_ <? _); [reflexivity|].
  destruct (_ <? _); [reflexivity|]. apply IH.
Qed.

(** X13.  [max_total_cycles] is declared and never read: changing it
    changes no outcome. *)
Theorem max_total_cycles_not_enforced (M : Impl)
    (unlocking locking : Script) (tx : Transaction) (input_index : N)
    (limits : EstimatorLimits) (c : Z) :
  Impl_estimate M unlocking locking tx input_index
                (with_max_total_cycles c limits)
  = Impl_estimate M unlocking locking tx input_index limits.
Proof.
  unfold Impl_estimate. cbn [with_max_total_cycles max_script_size].
  destruct (_ <? _); [reflexivity|].
  destruct (u64_of_double _) as [p|]; [|reflexivity].
  rewrite (run_limits_ext M tx input_index (with_max_total_cycles c limits)
             limits); reflexivity.
Qed.

Lemma run_limits_mono (M : Impl) (tx : Transaction) (input_index : N)
    (l1 l2 : EstimatorLimits) (combined : Script) (fuel : nat)
    (st st' : ExecState) :
  limits_le l1 l2 ->
  run M tx input_index l1 combined fuel st = Returned st' ->
  warnings (result st') = [] ->
  run M tx input_index l2 combined fuel st = Returned st'.
Proof.
  intros (_ & Hi & Hb & Ho). revert st.
  induction fuel as [|fuel IH]; intros st Hrun Hw; cbn in Hrun |- *;
    destruct (combined !! pc st) as [op|]; try assumption;
    destruct (Z.leb_spec (max_opcode_count l1) (opcode_count (result st)));
    try (injection Hrun as <-; cbn in Hw;
         apply app_eq_nil in Hw; destruct Hw; discriminate);
    try discriminate;
    (destruct (Z.leb_spec (max_opcode_count l2) (opcode_count (result st)));
     [lia|]).
  rewrite execute_step_split in Hrun |- *.
  destruct (pass_body M tx input_index combined op st) as [st1|];
    [|discriminate].
  cbn [mbind option_bind] in Hrun |- *. unfold check_stack_limits in *.
  destruct (Z.ltb_spec (max_stack_item_size l1) (current_stack_bytes st1)).
  { injection Hrun as <-. cbn in Hw.
    apply app_eq_nil in Hw; destruct Hw; discriminate. }
  destruct (Z.ltb_spec (max_stack_items l1)
              (Z.of_nat (length (stack_sizes st1)))).
  { injection Hrun as <-. cbn in Hw.
    apply app_eq_nil in Hw; destruct Hw; discriminate. }
  destruct (Z.ltb_spec (max_stack_item_size l2) (current_stack_bytes st1));
    [lia|].
  destruct (Z.ltb_spec (max_stack_items l2)
              (Z.of_nat (length (stack_sizes st1)))); [lia|].
  apply IH; assumption.
Qed.

(** X12.  An estimate that came back without a warning is also the
    estimate under any limits that are no tighter. *)
Theorem warning_free_estimate_stable_under_looser_limits (M : Impl)
    (unlocking locking : Script) (tx : Transaction) (input_index : N)
    (l1 l2 : EstimatorLimits) (r : CostEstimate) :
  limits_le l1 l2 ->
  Impl_estimate M unlocking locking tx input_index l1 = Returned r ->
  warnings r = [] ->
  Impl_estimate M unlocking locking tx input_index l2 = Returned r.
Proof.
  intros Hle Hr Hw. unfold Impl_estimate in *.
  destruct (Z.ltb_spec (max_script_size l1)
              (Z.of_nat (length (unlocking ++ locking)))).
  { injection Hr as <-. discriminate. }
  destruct (Z.ltb_spec (max_script_size l2)
              (Z.of_nat (length (unlocking ++ locking)))).
  { destruct Hle as (? & _). lia. }
  destruct (u64_of_double _) as [p|]; [|discriminate].
  destruct (run M tx input_index l1 _ _ _) as [st| |] eqn:Hrun;
    try discriminate.
  injection Hr as <-.
  rewrite (run_limits_mono _ _ _ _ _ _ _ _ _ Hle Hrun Hw). reflexivity.
Qed.

Lemma warning_free_estimate_stable_under_looser_limits_witness :
  Impl_estimate default_Impl [x01; xaa] [x76] tx_simple 0 default_limits
  = Returned {|
      total_cycles := 112;
      breakdown := {| parsing := 2; dispatch := 10; stack_ops := 100;
                      byte_ops := 0; hashing := 0; signatures := 0;
                      control_flow := 0 |};
      peak_stack_bytes := 2;
      peak_stack_items := 2;
      signature_count := 0;
      opcode_count := 2;
      warnings := [] |}.
Proof.
  apply (warning_free_estimate_stable_under_looser_limits default_Impl
           [x01; xaa] [x76] tx_simple 0 limits_script_3 default_limits).
  - unfold limits_le. cbn. lia.
  - vm_compute. reflexivity.
  - reflexivity.
Defined.


(** ** What the transaction and the cost model reach *)

Lemma run_sighash_ext (M : Impl) (tx1 tx2 : Transaction) (i1 i2 : N)
    (limits : EstimatorLimits) (combined : Script) (fuel : nat)
    (st : ExecState) :
  calculate_sighash_size tx1 i1 SIGHASH_ALL
  = calculate_sighash_size tx2 i2 SIGHASH_ALL ->
  run M tx1 i1 limits combined fuel st = run M tx2 i2 limits combined fuel st.
Proof.
  intros Hsig. revert st.
  induction fuel as [|fuel IH]; intros st; cbn; [reflexivity|].
  destruct (combined !! pc st) as [op|]; [|reflexivity].
  destruct (_ <=? _); [reflexivity|].
  assert (execute_step M tx1 i1 limits combined op st
          = execute_step M tx2 i2 limits combined op st) as ->.
  { unfold execute_step, execute_opcode. rewrite Hsig. reflexivity. }
  destruct (execute_step M tx2 i2 limits combined op st) as [[[] st1]|];
    try reflexivity.
  apply IH.
Qed.

(** X14.  The transaction enters the estimate through its serialized size
    alone, and the input index not at all: two calls that differ in the
    transaction and the index end the same way when the two transactions
    serialize to the same size. *)
Theorem estimate_reads_only_the_serialized_size (M : Impl)
    (unlocking locking : Script) (tx1 tx2 : Transaction) (i1 i2 : N)
    (limits : EstimatorLimits) :
  serialize_size tx1 = serialize_size tx2 ->
  Impl_estimate M unlocking locking tx1 i1 limits
  = Impl_estimate M unlocking locking tx2 i2 limits.
Proof.
  intros Hsize. unfold Impl_estimate.
  destruct (_ <? _); [reflexivity|].
  destruct (u64_of_double _) as [p|]; [|reflexivity].
  rewrite (run_sighash_ext M tx1 tx2 i1 i2); [reflexivity|].
  rewrite !serialize_size_sum in Hsize.
  rewrite !calculate_sighash_size_unfold.
  change (anyone_can_pay SIGHASH_ALL) with false. cbv iota. f_equal.
  unfold inputs_section, outputs_section.
  change (anyone_can_pay SIGHASH_ALL) with false.
  change (base_type SIGHASH_ALL =? SIGHASH_SINGLE)%N with false.
  change (base_type SIGHASH_ALL =? SIGHASH_NONE)%N with false. cbv iota.
  revert Hsize.
  generalize (sum_bytes input_bytes (inputs tx1)),
             (sum_bytes output_bytes (outputs tx1)),
             (sum_bytes input_bytes (inputs tx2)),
             (sum_bytes output_bytes (outputs tx2)).
  intros. wrap64_solve.
Qed.

Lemma estimate_reads_only_the_serialized_size_witness :
  Impl_estimate default_Impl [x01; xaa] [xac] tx_simple 0 default_limits
  = Impl_estimate default_Impl [x01; xaa] [xac] tx_simple_v2 5 default_limits.
Proof.
  apply (estimate_reads_only_the_serialized_size default_Impl [x01; xaa]
           [xac] tx_simple tx_simple_v2 0 5 default_limits).
  vm_compute. reflexivity.
Defined.

(** One pass under two transactions and two models: the passes agree on
    everything no cost flows into. *)
Lemma execute_step_shape_tx (M1 M2 : Impl) (tx1 tx2 : Transaction)
    (i1 i2 : N) (limits : EstimatorLimits) (combined : Script)
    (op_byte : byte) (st1 st2 st1' st2' : ExecState) (brk1 brk2 : bool) :
  execute_step M1 tx1 i1 limits combined op_byte st1 = Some (brk1, st1') ->
  execute_step M2 tx2 i2 limits combined op_byte st2 = Some (brk2, st2') ->
  shape st1 = shape st2 ->
  brk1 = brk2 /\ shape st1' = shape st2'.
Proof.
  destruct st1 as [[t1 b1 pb1 pi1 sc1 oc1 w1] s1 c1 p1].
  destruct st2 as [[t2 b2 pb2 pi2 sc2 oc2 w2] s2 c2 p2].
  unfold shape. cbn. intros H1 H2 Heq. simplify_eq.
  split_step H1; inversion H1; subst; clear H1;
    split_step H2; inversion H2; subst; clear H2;
    split; reflexivity.
Qed.

Lemma run_shape_tx (M1 M2 : Impl) (tx1 tx2 : Transaction) (i1 i2 : N)
    (limits : EstimatorLimits) (combined : Script) (fuel : nat)
    (st1 st2 st1' st2' : ExecState) :
  run M1 tx1 i1 limits combined fuel st1 = Returned st1' ->
  run M2 tx2 i2 limits combined fuel st2 = Returned st2' ->
  shape st1 = shape st2 ->
  shape st1' = shape st2'.
Proof.
  revert st1 st2.
  induction fuel as [|fuel IH]; intros st1 st2 Hrun1 Hrun2 Hshape;
    cbn in Hrun1, Hrun2;
    assert (pc st1 = pc st2) as Hpc by (unfold shape in Hshape; congruence);
    assert (opcode_count (result st1) = opcode_count (result st2)) as Hoc
      by (unfold shape in Hshape; congruence);
    rewrite <- Hpc, <- Hoc in *;
    destruct (combined !! pc st1) as [b|];
    try (injection Hrun1 as <-; injection Hrun2 as <-; exact Hshape);
    destruct (max_opcode_count limits <=? opcode_count (result st1));
    try (injection Hrun1 as <-; injection Hrun2 as <-;
         unfold shape in *; cbn; congruence);
    try discriminate.
  destruct (execute_step M1 tx1 i1 limits combined b st1)
    as [[brk1 st1'']|] eqn:Hstep1; [|discriminate].
  destruct (execute_step M2 tx2 i2 limits combined b st2)
    as [[brk2 st2'']|] eqn:Hstep2; [|discriminate].
  destruct (execute_step_shape_tx _ _ _ _ _ _ _ _ _ _ _ _ _ _ _
              Hstep1 Hstep2 Hshape) as [<- Hshape'].
  destruct brk1.
  - injection Hrun1 as <-; injection Hrun2 as <-. exact Hshape'.
  - eapply IH; eassumption.
Qed.

(** X16.  The peaks, the counts and the warnings are a function of the
    scripts and the limits: neither the cost model nor the transaction
    changes them. *)
Theorem resource_usage_independent_of_model (M1 M2 : Impl)
    (unlocking locking : Script) (tx1 tx2 : Transaction) (i1 i2 : N)
    (limits : EstimatorLimits) (r1 r2 : CostEstimate) :
  Impl_estimate M1 unlocking locking tx1 i1 limits = Returned r1 ->
  Impl_estimate M2 unlocking locking tx2 i2 limits = Returned r2 ->
  peak_stack_bytes r1 = peak_stack_bytes r2 /\
  peak_stack_items r1 = peak_stack_items r2 /\
  signature_count r1 = signature_count r2 /\
  opcode_count r1 = opcode_count r2 /\
  warnings r1 = warnings r2.
Proof.
  intros H1 H2.
  apply Impl_estimate_returned in H1. apply Impl_estimate_returned in H2.
  destruct H1 as [[Hl1 ->]|(Hl1 & p1 & st1 & _ & Hrun1 & ->)];
    destruct H2 as [[Hl2 ->]|(Hl2 & p2 & st2 & _ & Hrun2 & ->)];
    try lia; [repeat split|].
  pose proof (run_shape_tx _ _ _ _ _ _ _ _ _ _ _ _ _ Hrun1 Hrun2 eq_refl)
    as Hshape.
  unfold shape in Hshape. simplify_eq. repeat split; assumption.
Qed.

Lemma resource_usage_independent_of_model_witness :
  peak_stack_bytes
    {| total_cycles := 112;
       breakdown := {| parsing := 2; dispatch := 10; stack_ops := 100;
                       byte_ops := 0; hashing := 0; signatures := 0;
                       control_flow := 0 |};
       peak_stack_bytes := 2; peak_stack_items := 2;
       signature_count := 0; opcode_count := 2; warnings := [] |}
  = peak_stack_bytes
      {| total_cycles := 17;
         breakdown := {| parsing := 2; dispatch := 10; stack_ops := 5;
                         byte_ops := 0; hashing := 0; signatures := 0;
                         control_flow := 0 |};
         peak_stack_bytes := 2; peak_stack_items := 2;
         signature_count := 0; opcode_count := 2; warnings := [] |}.
Proof.
  apply (resource_usage_independent_of_model default_Impl (model_dup d_0_8)
           [x01; xaa] [x76] tx_simple tx_simple_v2 0 5 default_limits).
  - vm_compute. reflexivity.
  - vm_compute. reflexivity.
Defined.


Lemma execute_step_same_but_signatures (M : Impl) (tx1 tx2 : Transaction)
    (i1 i2 : N) (limits : EstimatorLimits) (combined : Script)
    (op_byte : byte) (st1 st2 st1' st2' : ExecState) (brk1 brk2 : bool) :
  execute_step M tx1 i1 limits combined op_byte st1 = Some (brk1, st1') ->
  execute_step M tx2 i2 limits combined op_byte st2 = Some (brk2, st2') ->
  same_but_signatures st1 st2 ->
  brk1 = brk2 /\ same_but_signatures st1' st2'.
Proof.
  destruct st1 as [[t1 [a1 b1 c1 d1 e1 f1 g1] pb1 pi1 sc1 oc1 w1] s1 cs1 p1].
  destruct st2 as [[t2 [a2 b2 c2 d2 e2 f2 g2] pb2 pi2 sc2 oc2 w2] s2 cs2 p2].
  unfold same_but_signatures, without_signatures, with_breakdown. cbn.
  intros H1 H2 (Hr & Hs & Hc & Hp). injection Hr; intros; subst. clear Hr.
  split_step H1; inversion H1; subst; clear H1;
    split_step H2; inversion H2; subst; clear H2;
    cbn; repeat split; reflexivity.
Qed.

Lemma run_same_but_signatures (M : Impl) (tx1 tx2 : Transaction) (i1 i2 : N)
    (limits : EstimatorLimits) (combined : Script) (fuel : nat)
    (st1 st2 st1' st2' : ExecState) :
  run M tx1 i1 limits combined fuel st1 = Returned st1' ->
  run M tx2 i2 limits combined fuel st2 = Returned st2' ->
  same_but_signatures st1 st2 ->
  same_but_signatures st1' st2'.
Proof.
  revert st1 st2.
  induction fuel as [|fuel IH]; intros st1 st2 Hrun1 Hrun2 Hsame;
    cbn in Hrun1, Hrun2;
    assert (pc st1 = pc st2) as Hpc by apply Hsame;
    assert (opcode_count (result st1) = opcode_count (result st2)) as Hoc
      by (destruct Hsame as (Hr & _);
          apply (f_equal opcode_count) in Hr; exact Hr);
    rewrite <- Hpc, <- Hoc in *;
    destruct (combined !! pc st1) as [b|];
    try (injection Hrun1 as <-; injection Hrun2 as <-; exact Hsame);
    destruct (max_opcode_count limits <=? opcode_count (result st1));
    try (injection Hrun1 as <-; injection Hrun2 as <-;
         destruct Hsame as (Hr & Hs & Hc & Hp);
         repeat split; try assumption;
         unfold without_signatures, with_breakdown in *; cbn;
         injection Hr; intros; congruence);
    try discriminate.
  destruct (execute_step M tx1 i1 limits combined b st1)
    as [[brk1 st1'']|] eqn:Hstep1; [|discriminate].
  destruct (execute_step M tx2 i2 limits combined b st2)
    as [[brk2 st2'']|] eqn:Hstep2; [|discriminate].
  destruct (execute_step_same_but_signatures _ _ _ _ _ _ _ _ _ _ _ _ _ _
              Hstep1 Hstep2 Hsame) as [<- Hsame'].
  destruct brk1.
  - injection Hrun1 as <-; injection Hrun2 as <-. exact Hsame'.
  - eapply IH; eassumption.
Qed.

(** X15.  The transaction reaches one figure of the estimate, the
    [signatures] category.  [total_cycles] is charged for [OP_CHECKSIG]
    with an empty parameter list, so it is the same under every
    transaction, as is every other field. *)
Theorem transaction_changes_only_signatures (M : Impl)
    (unlocking locking : Script) (tx1 tx2 : Transaction) (i1 i2 : N)
    (limits : EstimatorLimits) (r1 r2 : CostEstimate) :
  Impl_estimate M unlocking locking tx1 i1 limits = Returned r1 ->
  Impl_estimate M unlocking locking tx2 i2 limits = Returned r2 ->
  total_cycles r1 = total_cycles r2 /\
  without_signatures r1 = without_signatures r2.
Proof.
  intros H1 H2.
  apply Impl_estimate_returned in H1. apply Impl_estimate_returned in H2.
  destruct H1 as [[Hl1 ->]|(Hl1 & p1 & st1 & Hp1 & Hrun1 & ->)];
    destruct H2 as [[Hl2 ->]|(Hl2 & p2 & st2 & Hp2 & Hrun2 & ->)];
    try lia; [split; reflexivity|].
  rewrite Hp1 in Hp2. injection Hp2 as <-.
  assert (same_but_signatures (initial_state p1) (initial_state p1)) as H0
    by (repeat split).
  destruct (run_same_but_signatures _ _ _ _ _ _ _ _ _ _ _ _ Hrun1 Hrun2 H0)
    as (Hr & _).
  split; [|exact Hr].
  apply (f_equal total_cycles) in Hr. exact Hr.
Qed.


Lemma transaction_changes_only_signatures_witness :
  total_cycles
    {| total_cycles := 87505;
       breakdown := {| parsing := 0; dispatch := 5; stack_ops := 0;
                       byte_ops := 0; hashing := 0; signatures := 85167;
                       control_flow := 0 |};
       peak_stack_bytes := 0; peak_stack_items := 0;
       signature_count := 1; opcode_count := 1; warnings := [] |}
  = total_cycles
      {| total_cycles := 87505;
         breakdown := {| parsing := 0; dispatch := 5; stack_ops := 0;
                         byte_ops := 0; hashing := 0; signatures := 85137;
                         control_flow := 0 |};
         peak_stack_bytes := 0; peak_stack_items := 0;
         signature_count := 1; opcode_count := 1; warnings := [] |}.
Proof.
  apply (transaction_changes_only_signatures model_checksig [] [xac]
           tx_simple tx_no_output 0 0 default_limits).
  - vm_compute. reflexivity.
  - vm_compute. reflexivity.
Defined.

(** ** Push payloads *)

Lemma run_combined_ext (M : Impl) (tx : Transaction) (input_index : N)
    (limits : EstimatorLimits) (c1 c2 : Script) (fuel : nat)
    (st : ExecState) :
  (forall k, (pc st <= k)%nat -> c1 !! k = c2 !! k) ->
  run M tx input_index limits c1 fuel st
  = run M tx input_index limits c2 fuel st.
Proof.
  revert st. induction fuel as [|fuel IH]; intros st Hagree; cbn;
    rewrite (Hagree (pc st) ltac:(lia)); [reflexivity|].
  destruct (c2 !! pc st) as [op|]; [|reflexivity].
  destruct (_ <=? _); [reflexivity|].
  assert (execute_step M tx input_index limits c1 op st
          = execute_step M tx input_index limits c2 op st) as Heq.
  { unfold execute_step. rewrite (Hagree (S (pc st)) ltac:(lia)).
    reflexivity. }
  rewrite Heq.
  destruct (execute_step M tx input_index limits c2 op st)
    as [[[] st1]|] eqn:Hstep; try reflexivity.
  apply IH. intros k Hk. apply Hagree.
  apply execute_step_pc in Hstep. lia.
Qed.

(** X17.  The payload of a leading direct push is skipped unread: two
    unlocking scripts that open with the same push opcode and differ in
    the payload bytes only end in the same outcome, also when the payload
    is shorter than the push announces. *)
Theorem push_payload_never_read (M : Impl) (b : byte)
    (payload payload' locking : Script) (tx : Transaction) (input_index : N)
    (limits : EstimatorLimits) :
  0 < byte_val b < 0x4c ->
  length payload = length payload' ->
  Z.of_nat (length payload) <= byte_val b ->
  Impl_estimate M (b :: payload) locking tx input_index limits
  = Impl_estimate M (b :: payload') locking tx input_index limits.
Proof.
  intros Hb Hlen Hfit. unfold Impl_estimate.
  assert (length ((b :: payload) ++ locking)
          = length ((b :: payload') ++ locking)) as Hl
    by (rewrite !length_app; cbn; lia).
  rewrite Hl.
  destruct (_ <? _); [reflexivity|].
  destruct (u64_of_double _) as [p|]; [|reflexivity].
  assert (run M tx input_index limits ((b :: payload) ++ locking)
              (length ((b :: payload') ++ locking)) (initial_state p)
          = run M tx input_index limits ((b :: payload') ++ locking)
              (length ((b :: payload') ++ locking)) (initial_state p)) as ->;
    [|reflexivity].
  cbn [length app run initial_state pc lookup list_lookup result].
  destruct (_ <=? _); [reflexivity|].
  assert (forall c,
            execute_step M tx input_index limits c b (initial_state p)
            = (d ← u64_of_double (c_dispatch M);
               Some (check_stack_limits limits
                   (with_result (track_peaks (wrap64 (0 + byte_val b)) 1)
                     (push_data (byte_val b) 1
                       (with_result
                          (fun r => add_total d (add_dispatch d r))
                          (with_result incr_opcode_count
                             (initial_state p)))))))) as Hstep.
  { intros c. rewrite execute_step_split. unfold pass_body.
    destruct (u64_of_double (c_dispatch M)) as [d|]; [|reflexivity].
    cbn [mbind option_bind].
    destruct (Z.ltb_spec 0 (byte_val b)); [|lia].
    destruct (Z.ltb_spec (byte_val b) 76); [|lia].
    reflexivity. }
  rewrite !Hstep.
  destruct (u64_of_double (c_dispatch M)) as [d|]; [|reflexivity].
  cbn [mbind option_bind].
  destruct (check_stack_limits limits _) as [[] st1] eqn:Hchk;
    [reflexivity|].
  apply run_combined_ext. intros k Hk.
  assert (pc st1 = (1 + Z.to_nat (byte_val b))%nat) as Hpc.
  { unfold check_stack_limits in Hchk.
    repeat match type of Hchk with
      | context [if ?c then _ else _] => destruct c
      end; inversion Hchk; reflexivity. }
  rewrite Hpc in Hk.
  destruct k as [|k]; [lia|]. cbn [app].
  change ((payload ++ locking) !! k = (payload' ++ locking) !! k).
  rewrite !lookup_app_r by lia. rewrite Hlen. reflexivity.
Qed.

Lemma push_payload_never_read_witness :
  Impl_estimate default_Impl [x02; xac; xac] [x76] tx_simple 0 default_limits
  = Impl_estimate default_Impl [x02; x00; x76] [x76] tx_simple 0
      default_limits.
Proof.
  apply (push_payload_never_read default_Impl x02 [xac; xac] [x00; x76] [x76]
           tx_simple 0 default_limits).
  - vm_compute. split; reflexivity.
  - reflexivity.
  - vm_compute. discriminate.
Defined.


(** ** Signature checks *)

Lemma run_signature_count (M : Impl) (tx : Transaction) (input_index : N)
    (limits : EstimatorLimits) (combined : Script) (fuel : nat)
    (st st' : ExecState) :
  max_opcode_count limits < 2 ^ 32 ->
  run M tx input_index limits combined fuel st = Returned st' ->
  counters_ok limits combined st ->
  signature_count (result st')
  = signature_count (result st)
    + Z.of_nat (length (List.filter (runs_checksig combined)
                          (executed M tx input_index limits combined fuel
                                    st))).
Proof.
  intros Hmax. revert st.
  induction fuel as [|fuel IH]; intros st Hrun Hok; cbn in Hrun |- *;
    destruct (combined !! pc st) as [b|] eqn:Hb;
    try (injection Hrun as <-; cbn; lia);
    destruct (Z.leb_spec (max_opcode_count limits) (opcode_count (result st)));
    try (injection Hrun as <-; cbn; lia);
    try discriminate.
  destruct (execute_step M tx input_index limits combined b st)
    as [[brk st1]|] eqn:Hstep; [|discriminate].
  destruct (counters_ok_step _ _ _ _ _ _ _ _ _ Hmax Hok Hb ltac:(lia) Hstep)
    as [Hok' Hoc'].
  pose proof (execute_step_counters _ _ _ _ _ _ _ _ _ Hstep)
    as (_ & _ & _ & _ & _ & Hsc & _).
  assert (signature_count (result st1)
          = signature_count (result st)
            + (if runs_checksig combined (b, st) then 1 else 0)) as Hsc'.
  { rewrite Hsc. destruct (runs_checksig combined (b, st)); [|lia].
    apply wrap32_small.
    destruct Hok as (? & _ & _ & _ & _ & ?). lia. }
  destruct brk.
  - injection Hrun as <-. cbn [List.filter].
    destruct (runs_checksig combined (b, st)); cbn [length]; lia.
  - rewrite (IH _ Hrun Hok'). cbn [List.filter].
    destruct (runs_checksig combined (b, st)); cbn [length]; lia.
Qed.

(** X7.  [signature_count] is the number of passes through the
    [OP_CHECKSIG] case: no other opcode ([OP_CHECKSIGVERIFY] and
    [OP_CHECKMULTISIG] included) is counted as a signature check. *)
Theorem signature_count_counts_checksig (M : Impl)
    (unlocking locking : Script) (tx : Transaction) (input_index : N)
    (limits : EstimatorLimits) (r : CostEstimate) :
  0 <= max_opcode_count limits < 2 ^ 32 ->
  Impl_estimate M unlocking locking tx input_index limits = Returned r ->
  signature_count r
  = Z.of_nat (length (checksig_passes M unlocking locking tx input_index
                        limits)).
Proof.
  intros Hmax Hr. unfold checksig_passes, executed_by.
  apply Impl_estimate_returned in Hr.
  destruct Hr as [[Hl ->]|(Hl & p & st & Hp & Hrun & ->)].
  - destruct (Z.ltb_spec (max_script_size limits)
                (Z.of_nat (length (unlocking ++ locking)))); [|lia].
    reflexivity.
  - destruct (Z.ltb_spec (max_script_size limits)
                (Z.of_nat (length (unlocking ++ locking)))); [lia|].
    rewrite Hp.
    rewrite (run_signature_count _ _ _ _ _ _ _ _ (proj2 Hmax) Hrun
               (counters_ok_initial _ _ _ (proj1 Hmax))).
    reflexivity.
Qed.

Lemma signature_count_counts_checksig_witness :
  signature_count
    {| total_cycles := 517;
       breakdown := {| parsing := 2; dispatch := 15; stack_ops := 0;
                       byte_ops := 0; hashing := 0; signatures := 100;
                       control_flow := 0 |};
       peak_stack_bytes := 0; peak_stack_items := 0;
       signature_count := 1; opcode_count := 3; warnings := [] |}
  = Z.of_nat (length (checksig_passes default_Impl [xac] [xad; xae]
                        tx_simple 0 default_limits)).
Proof.
  apply (signature_count_counts_checksig default_Impl [xac] [xad; xae]
           tx_simple 0 default_limits).
  - cbn. lia.
  - vm_compute. reflexivity.
Defined.

(** ** The running byte count of the stack *)

Lemma execute_step_stack_bytes (M : Impl) (tx : Transaction)
    (input_index : N) (limits : EstimatorLimits) (combined : Script)
    (op_byte : byte) (st st' : ExecState) (brk : bool) :
  execute_step M tx input_index limits combined op_byte st = Some (brk, st') ->
  runs_checksig combined (op_byte, st) = false ->
  current_stack_bytes st = wrap64 (sum_list (stack_sizes st)) ->
  current_stack_bytes st' = wrap64 (sum_list (stack_sizes st')).
Proof.
  unfold runs_checksig, takes_push_branch. cbn [fst snd].
  destruct st as [r s c p]. cbn [stack_sizes current_stack_bytes pc].
  intros H Hcs Hinv.
  split_step H; inversion H; subst; clear H;
    cbn;
    repeat match goal with
      | E : (_ <? _) = _ |- _ => clear E
      | E : u64_of_double _ = _ |- _ => clear E
      | E : calculate_opcode_cost _ _ _ = _ |- _ => clear E
      | E : calculate_sighash_size _ _ _ = _ |- _ => clear E
      end;
    try reflexivity;
    try (unfold sum_list; cbn [fold_right];
         generalize (fold_right Z.add 0 l); intros; wrap64_solve);
    try (unfold sum_list; cbn [fold_right]; wrap64_solve).
  all: try (exfalso; revert Hcs;
            repeat match goal with
              | E : _ = _ |- _ => rewrite E
              end;
            decide_opcode; cbn; discriminate).
Qed.

(** X18.  As long as no pass goes through the [OP_CHECKSIG] case, the loop
    keeps [current_stack_bytes] equal to the sum of the tracked item
    sizes, as a 64-bit value. *)
Theorem stack_bytes_track_item_sizes (M : Impl) (tx : Transaction)
    (input_index : N) (limits : EstimatorLimits) (combined : Script)
    (fuel : nat) (st st' : ExecState) :
  run M tx input_index limits combined fuel st = Returned st' ->
  forallb (fun e => negb (runs_checksig combined e))
          (executed M tx input_index limits combined fuel st) = true ->
  current_stack_bytes st = wrap64 (sum_list (stack_sizes st)) ->
  current_stack_bytes st' = wrap64 (sum_list (stack_sizes st')).
Proof.
  revert st.
  induction fuel as [|fuel IH]; intros st Hrun Hfree Hinv;
    cbn in Hrun, Hfree;
    destruct (combined !! pc st) as [b|];
    try (injection Hrun as <-; exact Hinv);
    destruct (max_opcode_count limits <=? opcode_count (result st));
    try (injection Hrun as <-; exact Hinv);
    try discriminate.
  destruct (execute_step M tx input_index limits combined b st)
    as [[brk st1]|] eqn:Hstep; [|discriminate].
  assert (runs_checksig combined (b, st) = false
          /\ (brk = false ->
              forallb (fun e => negb (runs_checksig combined e))
                (executed M tx input_index limits combined fuel st1) = true))
    as [Hb Hrest].
  { destruct brk; cbn in Hfree; apply andb_true_iff in Hfree;
      destruct Hfree as [H1 H2]; apply negb_true_iff in H1;
      (split; [exact H1|]); [discriminate|intros _; exact H2]. }
  pose proof (execute_step_stack_bytes _ _ _ _ _ _ _ _ _ Hstep Hb Hinv)
    as Hinv'.
  destruct brk.
  - injection Hrun as <-. exact Hinv'.
  - apply (IH st1 Hrun (Hrest eq_refl) Hinv').
Qed.

Lemma stack_bytes_track_item_sizes_witness :
  current_stack_bytes
    {| result :=
         {| total_cycles := 325;
            breakdown := {| parsing := 5; dispatch := 20; stack_ops := 100;
                            byte_ops := 100; hashing := 100;
                            signatures := 0; control_flow := 0 |};
            peak_stack_bytes := 32; peak_stack_items := 2;
            signature_count := 0; opcode_count := 4; warnings := [] |};
       stack_sizes := [32]; current_stack_bytes := 32; pc := 6 |}
  = wrap64 (sum_list [32]).
Proof.
  apply (stack_bytes_track_item_sizes default_Impl tx_simple 0 default_limits
           [x02; x00; x00; x76; x7e; xa8] 6 (initial_state 5)).
  - vm_compute. reflexivity.
  - vm_compute. reflexivity.
  - reflexivity.
Defined.

(** X19.  A pass through the [OP_CHECKSIG] case that finds two items
    replaces them by one item of size 1 and leaves [current_stack_bytes]
    as it was: from then on the byte count overstates the stack. *)
Theorem checksig_leaves_stack_bytes_stale (M : Impl) (tx : Transaction)
    (input_index : N) (limits : EstimatorLimits) (combined : Script)
    (st st' : ExecState) (brk : bool) (sig_size key_size : Z)
    (rest : list Z) :
  execute_step M tx input_index limits combined xac st = Some (brk, st') ->
  stack_sizes st = key_size :: sig_size :: rest ->
  stack_sizes st' = 1 :: rest /\
  current_stack_bytes st' = current_stack_bytes st.
Proof.
  destruct st as [r s c p]. cbn [stack_sizes current_stack_bytes].
  intros H ->.
  unfold execute_step, execute_opcode in H.
  change (byte_val xac) with 172 in H.
  cbn [Z.ltb Z.eqb Z.compare Pos.compare Pos.compare_cont andb orb
       OP_PUSHDATA1 OP_DUP OP_SWAP OP_CAT OP_SHA256 OP_HASH256 OP_CHECKSIG
       Pos.eqb] in H.
  split_step H; inversion H; subst; clear H; split; reflexivity.
Qed.

Lemma checksig_leaves_stack_bytes_stale_witness :
  exists st',
    execute_step default_Impl tx_simple 0 default_limits [xac] xac
                 state_sig_key = Some (false, st') /\
    stack_sizes st' = [1] /\
    current_stack_bytes st' = 104.
Proof.
  assert (execute_step default_Impl tx_simple 0 default_limits [xac] xac
                       state_sig_key
          = Some (false,
                  {| result :=
                       {| total_cycles := 105;
                          breakdown :=
                            {| parsing := 0; dispatch := 5; stack_ops := 0;
                               byte_ops := 0; hashing := 0;
                               signatures := 100; control_flow := 0 |};
                          peak_stack_bytes := 104; peak_stack_items := 1;
                          signature_count := 1; opcode_count := 1;
                          warnings := [] |};
                     stack_sizes := [1]; current_stack_bytes := 104;
                     pc := 1 |})) as H by (vm_compute; reflexivity).
  eexists. split; [exact H|].
  exact (checksig_leaves_stack_bytes_stale default_Impl tx_simple 0
           default_limits [xac] state_sig_key _ false 71 33 [] H eq_refl).
Defined.


(** ** Exact binary64 arithmetic *)

Lemma Zdigits2_le_53 (a : Z) : 0 < a < 2 ^ 53 -> Zdigits2 a <= 53.
Proof.
  intros Ha. pose proof (Zdigits2_bounds a ltac:(lia)) as [Hlo _].
  destruct (Z.le_gt_cases (Zdigits2 a) 53) as [H|H]; [assumption|].
  pose proof (pow2_le 53 (Zdigits2 a - 1) ltac:(lia)). lia.
Qed.

(** A number of at most 53 bits, scaled by a power of two above the least
    unit, rounds to itself. *)
Lemma W_exact (c a j : Z) :
  1074 <= c -> 0 < a < 2 ^ 53 -> c - 1074 <= j ->
  W c (a * 2 ^ j) = a * 2 ^ (j - c + 1074).
Proof.
  intros Hc Ha Hj.
  pose proof (Zdigits2_le_53 a Ha) as Hd.
  pose proof (Zdigits2_pos a ltac:(lia)) as Hdp.
  unfold W. rewrite Zdigits2_mul_pow2 by lia.
  set (t := fexp 53 1024 (Zdigits2 a + j - c)).
  assert (-1074 <= t /\ t + c <= j) as [Ht1 Ht2]
    by (subst t; rewrite fexp64_eq; lia).
  rewrite (pow2_split (t + c) j) by lia.
  rewrite (Z.mul_comm (2 ^ (t + c))), Z.mul_assoc.
  rewrite rne_exact by lia.
  rewrite <- Z.mul_assoc, <- Z.pow_add_r by lia.
  f_equal. f_equal. lia.
Qed.

Lemma rounds_to_exact (c a j : Z) (r : spec_float) :
  1074 <= c -> 0 <= a < 2 ^ 53 -> c - 1074 <= j <= c ->
  rounds_to c (a * 2 ^ j) r ->
  nnf r = true /\ V r = a * 2 ^ (j - c + 1074).
Proof.
  intros Hc Ha Hj Hr.
  destruct (Z.eq_dec a 0) as [->|Hne].
  - destruct Hr as [(_ & Hn & HV)|[(Hv & _)|(Hv & _)]]; [|lia|lia].
    split; [assumption|]. rewrite HV. lia.
  - assert (0 < 2 ^ j) by (apply pow2_pos; lia).
    assert (W c (a * 2 ^ j) = a * 2 ^ (j - c + 1074)) as HW
      by (apply W_exact; lia).
    assert (a * 2 ^ (j - c + 1074) < 2 ^ 2098) as Hlt.
    { assert (0 < 2 ^ (j - c + 1074)) by (apply pow2_pos; lia).
      pose proof (pow2_le (j - c + 1074) 1074 ltac:(lia)).
      replace (2 ^ 2098) with (2 ^ 53 * 2 ^ 2045)
        by (rewrite <- Z.pow_add_r by lia; reflexivity).
      pose proof (pow2_le 1074 2045 ltac:(lia)).
      assert (0 < 2 ^ 53) by (apply pow2_pos; lia). nia. }
    destruct Hr as [(Hv & _)|[(_ & _ & Hn & HV)|(_ & Hbig & _)]];
      [nia| |lia].
    split; [assumption|]. rewrite HV. exact HW.
Qed.

Lemma exactly_dyadic (a s : Z) :
  0 <= a < 2 ^ 53 -> 0 <= s <= 1074 -> exactly s (dyadic a s) a.
Proof.
  intros Ha Hs. unfold dyadic, exactly.
  destruct a as [|p|p]; [split; reflexivity| |lia].
  cbn [binary_normalize].
  rewrite (binary_round_exact p (- s) 1074) by lia.
  replace (1074 - s) with (- s + 1074 - 1074 + 1074) by lia.
  apply (rounds_to_exact 1074 (Z.pos p) (- s + 1074)); [lia|lia|lia|].
  apply round_pos_rounds_to; [lia|].
  assert (0 < 2 ^ (- s + 1074)) by (apply pow2_pos; lia). lia.
Qed.

Lemma exactly_of_u64 (n : Z) :
  0 <= n < 2 ^ 53 -> exactly 0 (double_of_u64 n) n.
Proof. intros Hn. apply (exactly_dyadic n 0); lia. Qed.

Lemma exactly_mul (s s' : Z) (x y : double) (a b : Z) :
  exactly s x a -> exactly s' y b ->
  0 <= a -> 0 <= b -> a * b < 2 ^ 53 ->
  0 <= s -> 0 <= s' -> s + s' <= 1074 ->
  exactly (s + s') (dmul x y) (a * b).
Proof.
  intros [Hx Vx] [Hy Vy] Ha Hb Hab Hs Hs' Hss.
  pose proof (SFmul_rounds_to x y Hx Hy) as Hr.
  rewrite Vx, Vy in Hr.
  replace (a * 2 ^ (1074 - s) * (b * 2 ^ (1074 - s')))
    with (a * b * 2 ^ (2148 - s - s')) in Hr.
  2:{ replace (2148 - s - s') with ((1074 - s) + (1074 - s')) by lia.
      rewrite Z.pow_add_r by lia. ring. }
  apply rounds_to_exact in Hr; [|lia|nia|lia].
  unfold exactly, dmul.
  replace (2148 - s - s' - 2148 + 1074) with (1074 - (s + s')) in Hr by lia.
  exact Hr.
Qed.

Lemma exactly_add (s : Z) (x y : double) (a b : Z) :
  exactly s x a -> exactly s y b ->
  0 <= a -> 0 <= b -> a + b < 2 ^ 53 -> 0 <= s <= 1074 ->
  exactly s (dadd x y) (a + b).
Proof.
  intros [Hx Vx] [Hy Vy] Ha Hb Hab Hs.
  pose proof (SFadd_rounds_to x y Hx Hy) as Hr.
  rewrite Vx, Vy in Hr.
  replace (a * 2 ^ (1074 - s) + b * 2 ^ (1074 - s))
    with ((a + b) * 2 ^ (1074 - s)) in Hr by ring.
  apply rounds_to_exact in Hr; [|lia|lia|lia].
  unfold exactly, dadd.
  replace (1074 - s - 1074 + 1074) with (1074 - s) in Hr by lia.
  exact Hr.
Qed.

(** The cast of a non-negative finite value truncates it. *)
Lemma u64_of_double_trunc (x : double) :
  nnf x = true -> V x / 2 ^ 1074 < 2 ^ 64 ->
  u64_of_double x = Some (V x / 2 ^ 1074).
Proof.
  intros Hx Hlt.
  destruct x as [s|s| |s m e]; try discriminate.
  - reflexivity.
  - destruct s; [discriminate|]. cbn [nnf] in Hx.
    pose proof (bounded_facts m e Hx) as (He & _).
    unfold u64_of_double. rewrite (shiftl_V m e) by lia.
    destruct (Z.ltb_spec (V (S754_finite false m e) / 2 ^ 1074) (2 ^ 64));
      [reflexivity|lia].
Qed.

Lemma exactly_cast (s : Z) (x : double) (a : Z) :
  exactly s x a -> 0 <= a < 2 ^ 53 -> 0 <= s <= 1074 ->
  u64_of_double x = Some (a / 2 ^ s).
Proof.
  intros [Hx Vx] Ha Hs.
  assert (V x / 2 ^ 1074 = a / 2 ^ s) as Hdiv.
  { rewrite Vx.
    replace (2 ^ 1074) with (2 ^ s * 2 ^ (1074 - s))
      by (symmetry; apply pow2_split; lia).
    rewrite Z.div_mul_cancel_r; [reflexivity| |].
    - pose proof (pow2_pos s ltac:(lia)). lia.
    - pose proof (pow2_pos (1074 - s) ltac:(lia)). lia. }
  rewrite <- Hdiv. apply u64_of_double_trunc; [assumption|].
  rewrite Hdiv.
  assert (a / 2 ^ s <= a).
  { apply Z.div_le_upper_bound; [apply pow2_pos; lia|].
    pose proof (pow2_pos s ltac:(lia)). nia. }
  pose proof (pow2_lt 53 64 ltac:(lia)). lia.
Qed.


(** ** The cost formulas *)

Lemma param_range (ps : list Z) (i : nat) (dflt : Z) :
  Forall (fun p => 0 <= p < 2 ^ 53) ps -> 0 <= dflt < 2 ^ 53 ->
  0 <= param ps i dflt < 2 ^ 53.
Proof.
  intros Hps Hd. unfold param.
  destruct (ps !! i) as [p|] eqn:Hp; simpl; [|assumption].
  exact (Forall_lookup_1 _ _ _ _ Hps Hp).
Qed.

(** X20.  Where binary64 is exact, [calculate_opcode_cost] is the formula
    of the model type, truncated: for coefficients [k / 2^s] with
    non-negative 53-bit numerators, parameters below [2^53] and a result
    numerator below [2^53], the cost is the integer quotient of the
    numerator formula by [2^s]. *)
Theorem calculate_opcode_cost_exact (M : Impl) (op : Z) (ty : ModelType)
    (s k0 k1 ke kp kk ks ka : Z) (params : list Z) :
  opcode_costs M !! op = Some (dyadic_model ty s k0 k1 ke kp kk ks ka) ->
  0 <= s <= 1074 ->
  Forall (fun k => 0 <= k < 2 ^ 53) [k0; k1; ke; kp; kk; ks; ka] ->
  Forall (fun p => 0 <= p < 2 ^ 53) params ->
  (ty = MULTISIG ->
   wrap64 (param params 1 3 - param params 0 1) < 2 ^ 53 /\
   ke + kp * param params 2 1000 < 2 ^ 53) ->
  cost_numerator ty k0 k1 ke kp kk ks ka params < 2 ^ 53 ->
  calculate_opcode_cost M op params
  = Some (cost_numerator ty k0 k1 ke kp kk ks ka params / 2 ^ s).
Proof.
  intros Hop Hs Hk Hps Hmulti Hfit.
  repeat match goal with
    | H : Forall _ (_ :: _) |- _ =>
        let Hk := fresh "Hk" in
        apply Forall_cons_1 in H; destruct H as [Hk H]
    end.
  unfold calculate_opcode_cost. rewrite Hop.
  cbn [type dyadic_model c0 c1 c_ecdsa c_preimage_per_byte c_keyscan c_setup
       c_alloc].
  pose proof (exactly_dyadic k0 s ltac:(lia) Hs) as E0.
  pose proof (exactly_dyadic k1 s ltac:(lia) Hs) as E1.
  pose proof (exactly_dyadic ke s ltac:(lia) Hs) as Ee.
  pose proof (exactly_dyadic kp s ltac:(lia) Hs) as Ep.
  pose proof (exactly_dyadic kk s ltac:(lia) Hs) as Ek.
  pose proof (exactly_dyadic ks s ltac:(lia) Hs) as Es.
  pose proof (exactly_dyadic ka s ltac:(lia) Hs) as Ea.
  assert (0 <= (1000 : Z) < 2 ^ 53) as H1000 by (split; [lia|reflexivity]).
  assert (0 <= (1 : Z) < 2 ^ 53) as Hone by (split; [lia|reflexivity]).
  assert (0 <= (3 : Z) < 2 ^ 53) as Hthree by (split; [lia|reflexivity]).
  assert (0 <= (0 : Z) < 2 ^ 53) as Hzero by (split; [lia|reflexivity]).
  destruct ty; cbn [cost_numerator] in Hfit |- *; cbv zeta in *.
  - apply (exactly_cast s _ k0 E0); lia.
  - pose proof (param_range params 0 0 Hps Hzero) as Hn.
    pose proof (exactly_of_u64 _ Hn) as En.
    assert (0 <= k1 * param params 0 0) by nia.
    pose proof (exactly_mul s 0 _ _ _ _ E1 En ltac:(lia) ltac:(lia)
                  ltac:(lia) ltac:(lia) ltac:(lia) ltac:(lia)) as Em.
    rewrite Z.add_0_r in Em.
    pose proof (exactly_add s _ _ _ _ E0 Em ltac:(lia) ltac:(lia)
                  ltac:(lia) Hs) as Es1.
    pose proof (exactly_add s _ _ _ _ Es1 Ea ltac:(lia) ltac:(lia)
                  ltac:(lia) Hs) as Es2.
    apply (exactly_cast s _ _ Es2); lia.
  - pose proof (param_range params 0 1000 Hps H1000) as Hn.
    pose proof (exactly_of_u64 _ Hn) as En.
    assert (0 <= kp * param params 0 1000) by nia.
    pose proof (exactly_mul s 0 _ _ _ _ Ep En ltac:(lia) ltac:(lia)
                  ltac:(lia) ltac:(lia) ltac:(lia) ltac:(lia)) as Em.
    rewrite Z.add_0_r in Em.
    pose proof (exactly_add s _ _ _ _ Ee Em ltac:(lia) ltac:(lia)
                  ltac:(lia) Hs) as Es1.
    apply (exactly_cast s _ _ Es1); lia.
  - destruct (Hmulti eq_refl) as [Hd Hin].
    pose proof (param_range params 0 1 Hps Hone) as Hm.
    pose proof (param_range params 1 3 Hps Hthree) as Hn.
    pose proof (param_range params 2 1000 Hps H1000) as Hp.
    pose proof (wrap64_range (param params 1 3 - param params 0 1)) as Hw.
    set (m := param params 0 1) in *.
    set (n := param params 1 3) in *.
    set (p := param params 2 1000) in *.
    set (d := wrap64 (n - m)) in *.
    pose proof (exactly_of_u64 _ Hm) as Em.
    pose proof (exactly_of_u64 _ Hp) as Epre.
    pose proof (exactly_of_u64 d ltac:(lia)) as Ed.
    assert (0 <= kp * p) by nia.
    assert (0 <= m * (ke + kp * p)) by nia.
    assert (0 <= d * kk) by nia.
    pose proof (exactly_mul s 0 _ _ _ _ Ep Epre ltac:(lia) ltac:(lia)
                  ltac:(lia) ltac:(lia) ltac:(lia) ltac:(lia)) as Ex1.
    rewrite Z.add_0_r in Ex1.
    pose proof (exactly_add s _ _ _ _ Ee Ex1 ltac:(lia) ltac:(lia)
                  ltac:(lia) Hs) as Ex2.
    pose proof (exactly_mul 0 s _ _ _ _ Em Ex2 ltac:(lia) ltac:(lia)
                  ltac:(lia) ltac:(lia) ltac:(lia) ltac:(lia)) as Ex3.
    pose proof (exactly_mul 0 s _ _ _ _ Ed Ek ltac:(lia) ltac:(lia)
                  ltac:(lia) ltac:(lia) ltac:(lia) ltac:(lia)) as Ex4.
    rewrite Z.add_0_l in Ex3, Ex4.
    pose proof (exactly_add s _ _ _ _ Ex3 Ex4 ltac:(lia) ltac:(lia)
                  ltac:(lia) Hs) as Ex5.
    pose proof (exactly_add s _ _ _ _ Ex5 Es ltac:(lia) ltac:(lia)
                  ltac:(lia) Hs) as Ex6.
    apply (exactly_cast s _ _ Ex6); lia.
Qed.

Lemma calculate_opcode_cost_exact_witness :
  calculate_opcode_cost model_checksig OP_CHECKSIG [67] = Some 85167.
Proof.
  apply (calculate_opcode_cost_exact model_checksig OP_CHECKSIG SIGNATURE
           1 0 0 170000 5 0 0 0 [67]).
  - vm_compute. reflexivity.
  - lia.
  - repeat constructor; vm_compute; discriminate.
  - repeat constructor; vm_compute; discriminate.
  - discriminate.
  - vm_compute. reflexivity.
Defined.


(** ** The empty script *)

(** X21.  With nothing to execute the estimate is all zeros with no
    warning, unless the parsing coefficient is infinite or not a number:
    its product with zero is then not a number and the cast of it is
    undefined. *)
Theorem empty_script_estimate (M : Impl) (tx : Transaction)
    (input_index : N) (limits : EstimatorLimits) :
  0 <= max_script_size limits ->
  Impl_estimate M [] [] tx input_index limits
  = match c_parse_per_byte M with
    | S754_infinity _ | S754_nan => Undefined
    | _ => Returned empty_estimate
    end.
Proof.
  intros Hmax. unfold Impl_estimate. cbn [app length].
  destruct (Z.ltb_spec (max_script_size limits) (Z.of_nat 0)); [lia|].
  change (double_of_u64 (Z.of_nat 0)) with (S754_zero false).
  destruct (c_parse_per_byte M) as [s|s| |s m e]; reflexivity.
Qed.

Lemma empty_script_estimate_witness :
  Impl_estimate default_Impl [] [] tx_simple 0 default_limits
  = Returned empty_estimate.
Proof.
  apply (empty_script_estimate default_Impl tx_simple 0 default_limits).
  cbn. lia.
Defined.

(** ** The default constants *)

(** [0.8 * n], truncated, is [4n / 5] in integer division: the rounding
    of [0.8] and of the product never reaches the next integer. *)
Lemma parse_default (n : Z) :
  0 <= n < 2 ^ 50 ->
  u64_of_double (dmul d_0_8 (double_of_u64 n)) = Some (4 * n / 5).
Proof.
  intros Hn.
  destruct (Z.eq_dec n 0) as [->|Hne]; [reflexivity|].
  assert (2 ^ 50 = 1125899906842624) as E50 by reflexivity.
  assert (2 ^ 53 = 9007199254740992) as E53 by reflexivity.
  destruct (exactly_of_u64 n ltac:(lia)) as [Hx Vx].
  rewrite Z.sub_0_r in Vx.
  pose proof (SFmul_rounds_to d_0_8 (double_of_u64 n) eq_refl Hx) as Hr.
  rewrite Vx in Hr.
  change (V d_0_8) with (7205759403792794 * 2 ^ 1021) in Hr.
  fold (dmul d_0_8 (double_of_u64 n)) in Hr.
  set (r := dmul d_0_8 (double_of_u64 n)) in *.
  set (k := 4 * n / 5).
  assert (5 * k <= 4 * n < 5 * k + 5) as Hk
    by (subst k; pose proof (Z.div_mod (4 * n) 5 ltac:(lia));
        pose proof (Z.mod_pos_bound (4 * n) 5 ltac:(lia)); lia).
  assert (0 <= k) as Hk0 by lia.
  set (Q := 2 ^ 2095).
  assert (0 < Q) as HQ by (apply pow2_pos; lia).
  assert (7205759403792794 * 2 ^ 1021 * (n * 2 ^ 1074)
          = 7205759403792794 * n * Q) as Ev.
  { subst Q. replace 2095 with (1021 + 1074) by lia.
    rewrite Z.pow_add_r by lia. ring. }
  rewrite Ev in Hr.
  set (v := 7205759403792794 * n * Q) in *.
  assert (0 < v) as Hv by (subst v; nia).
  (* above: at most k + 7/8 *)
  assert (v <= (8 * k + 7) * 2 ^ 2145) as Hup.
  { replace (2 ^ 2145) with (2 ^ 50 * Q)
      by (subst Q; rewrite <- Z.pow_add_r by lia; reflexivity).
    subst v. rewrite E50. nia. }
  pose proof (W_mono 2148 v _ ltac:(lia) (conj Hv Hup)) as HWup.
  rewrite (W_exact 2148 (8 * k + 7) 2145) in HWup by lia.
  replace (2145 - 2148 + 1074) with 1071 in HWup by lia.
  (* below: at least k *)
  assert (k * 2 ^ 1074 <= W 2148 v) as HWlo.
  { destruct (Z.eq_dec k 0) as [->|Hk1].
    - pose proof (W_nonneg 2148 v ltac:(lia) Hv). lia.
    - assert (k * 2 ^ 2148 <= v) as Hlo.
      { replace (2 ^ 2148) with (2 ^ 53 * Q)
          by (subst Q; rewrite <- Z.pow_add_r by lia; reflexivity).
        subst v. rewrite E53. nia. }
      assert (0 < k * 2 ^ 2148) as Hkp.
      { assert (0 < 2 ^ 2148) by (apply pow2_pos; lia). nia. }
      pose proof (W_mono 2148 _ v ltac:(lia) (conj Hkp Hlo)) as H.
      rewrite (W_exact 2148 k 2148) in H by lia.
      replace (2148 - 2148 + 1074) with 1074 in H by lia. exact H. }
  set (P := 2 ^ 1071) in *.
  assert (0 < P) as HP by (apply pow2_pos; lia).
  assert (2 ^ 1074 = 8 * P) as E1074
    by (subst P; replace 1074 with (3 + 1071) by lia;
        rewrite Z.pow_add_r by lia; reflexivity).
  assert (W 2148 v < 2 ^ 2098) as Hfin.
  { replace (2 ^ 2098) with (2 ^ 1027 * P)
      by (subst P; rewrite <- Z.pow_add_r by lia; reflexivity).
    assert (2 ^ 53 <= 2 ^ 1027) by (apply pow2_le; lia). nia. }
  destruct Hr as [(Hz & _)|[(_ & _ & Hnn & HV)|(_ & Hbig & _)]];
    [lia| |lia].
  assert (V r / 2 ^ 1074 = k) as Hdiv.
  { rewrite HV, E1074. symmetry.
    apply (Z.div_unique_pos _ _ k (W 2148 v - k * (8 * P))); lia. }
  rewrite <- Hdiv. apply u64_of_double_trunc; [exact Hnn|].
  rewrite Hdiv. assert (2 ^ 50 < 2 ^ 64) by (apply pow2_lt; lia). lia.
Qed.

Lemma calculate_opcode_cost_default (op : Z) (ps : list Z) :
  calculate_opcode_cost default_Impl op ps = Some 100.
Proof.
  unfold calculate_opcode_cost. cbn [opcode_costs default_Impl].
  rewrite lookup_empty. reflexivity.
Qed.

(** Under the default constants no cast of a pass is out of range. *)
Lemma execute_step_default_defined (tx : Transaction) (input_index : N)
    (limits : EstimatorLimits) (combined : Script) (op_byte : byte)
    (st : ExecState) :
  is_Some (execute_step default_Impl tx input_index limits combined op_byte
             st).
Proof.
  rewrite execute_step_split.
  assert (is_Some (pass_body default_Impl tx input_index combined op_byte
                     st)) as [st1 ->]; [|eexists; reflexivity].
  unfold pass_body, execute_opcode.
  change (u64_of_double (c_dispatch default_Impl)) with (Some 5).
  cbn [mbind option_bind].
  rewrite !calculate_opcode_cost_default.
  rewrite calculate_sighash_size_unfold.
  change (anyone_can_pay SIGHASH_ALL) with false. cbv iota.
  cbn [mbind option_bind].
  rewrite !calculate_opcode_cost_default.
  repeat match goal with
    | |- context [if ?c then _ else _] => destruct c
    | |- context [match ?l with [] => _ | _ :: _ => _ end] => destruct l
    | |- context [match ?o with Some _ => _ | None => _ end] => destruct o
    end;
    cbn [mbind option_bind]; eexists; reflexivity.
Qed.

Lemma run_default_defined (tx : Transaction) (input_index : N)
    (limits : EstimatorLimits) (combined : Script) (fuel : nat)
    (st : ExecState) :
  run default_Impl tx input_index limits combined fuel st <> Undefined.
Proof.
  revert st. induction fuel as [|fuel IH]; intros st; cbn [run];
    destruct (combined !! pc st) as [op|]; try discriminate;
    destruct (_ <=? _); try discriminate.
  destruct (execute_step_default_defined tx input_index limits combined op
              st) as [[[] st1] ->]; [discriminate|apply IH].
Qed.

(** X22.  Under the member initialisers (dispatch [5.0], parsing [0.8] per
    byte, no opcode loaded) no cast is out of range: every call on a
    combined script within [max_script_size] and shorter than [2^50]
    bytes returns, and the parsing charge is four fifths of the combined
    length, rounded down. *)
Theorem default_model_always_returns (unlocking locking : Script)
    (tx : Transaction) (input_index : N) (limits : EstimatorLimits) :
  Z.of_nat (length unlocking + length locking) < 2 ^ 50 ->
  Z.of_nat (length unlocking + length locking) <= max_script_size limits ->
  exists r,
    Impl_estimate default_Impl unlocking locking tx input_index limits
    = Returned r /\
    parsing (breakdown r)
    = 4 * Z.of_nat (length unlocking + length locking) / 5.
Proof.
  rewrite <- length_app. intros Hlen Hmax.
  pose proof (Impl_estimate_terminates default_Impl unlocking locking tx
                input_index limits) as Hterm.
  unfold Impl_estimate in *.
  destruct (Z.ltb_spec (max_script_size limits)
              (Z.of_nat (length (unlocking ++ locking)))); [lia|].
  cbn [c_parse_per_byte default_Impl] in *.
  rewrite parse_default in * by lia.
  pose proof (run_default_defined tx input_index limits
                (unlocking ++ locking) (length (unlocking ++ locking))
                (initial_state (4 * Z.of_nat (length (unlocking ++ locking))
                                / 5))) as Hdef.
  destruct (run default_Impl tx input_index limits _ _ _) as [st| |] eqn:Hrun;
    [|congruence|congruence].
  exists (result_of st). split; [reflexivity|].
  apply run_frame in Hrun. destruct Hrun as (_ & Hp & _).
  unfold result_of. rewrite Hp. reflexivity.
Qed.

Lemma default_model_always_returns_witness :
  exists r,
    Impl_estimate default_Impl [x01; xaa] [x76] tx_simple 0 default_limits
    = Returned r /\
    parsing (breakdown r) = 2.
Proof.
  apply (default_model_always_returns [x01; xaa] [x76] tx_simple 0
           default_limits).
  - vm_compute. reflexivity.
  - vm_compute. discriminate.
Defined.


Lemma dispatch_is_overhead_per_opcode_witness :
  dispatch (breakdown estimate_push_dup)
  = wrap64 (opcode_count estimate_push_dup
            * default 0 (u64_of_double (c_dispatch default_Impl))).
Proof.
  apply (dispatch_is_overhead_per_opcode default_Impl [x01; xaa] [x76]
           tx_simple 0 default_limits estimate_push_dup).
  - cbn. lia.
  - vm_compute. reflexivity.
Defined.

Lemma control_flow_never_charged_witness :
  control_flow (breakdown estimate_push_dup) = 0.
Proof.
  apply (control_flow_never_charged default_Impl [x01; xaa] [x76]
           tx_simple 0 default_limits estimate_push_dup).
  vm_compute. reflexivity.
Defined.

(** X11.  The item limit is checked after the push, so the peak reported
    can pass [max_stack_items], by one item at most. *)
Theorem peak_stack_items_overshoot (M : Impl) (unlocking locking : Script)
    (tx : Transaction) (input_index : N) (limits : EstimatorLimits)
    (r : CostEstimate) :
  0 <= max_stack_items limits ->
  Impl_estimate M unlocking locking tx input_index limits = Returned r ->
  peak_stack_items r <= max_stack_items limits + 1.
Proof.
  intros Hmax Hr.
  apply Impl_estimate_returned in Hr.
  destruct Hr as [[_ ->]|(_ & p & st & _ & Hrun & ->)]; [cbn; lia|].
  set (Q := fun st : ExecState =>
              peak_stack_items (result st) <= max_stack_items limits + 1).
  set (P := fun st : ExecState =>
              Z.of_nat (length (stack_sizes st)) <= max_stack_items limits /\
              Q st).
  assert (Q st) as H; [|exact H].
  refine (run_invariant P Q M tx input_index limits (unlocking ++ locking)
            _ _ _ _ _ _ Hrun _).
  - intros st0 (_ & H) _. exact H.
  - intros st0 op (_ & H) _ _. exact H.
  - intros st0 op brk st' (Hlen & Hpk) _ _ Hstep.
    apply execute_step_counters in Hstep.
    destruct Hstep as (_ & _ & Hlen' & _ & Hpi' & _ & Hbrk).
    pose proof (wrap32_le (Z.of_nat (length (stack_sizes st')))
                  ltac:(lia)) as Hw.
    assert (Q st') as HQ by (unfold Q in *; lia).
    destruct brk; [exact HQ|].
    destruct Hbrk as (_ & Hle & _). split; [exact Hle|exact HQ].
  - split; [cbn; lia|unfold Q; cbn; lia].
Qed.

Lemma peak_stack_items_overshoot_witness :
  exists r,
    Impl_estimate default_Impl [x01; xaa; x01; xbb] [] tx_simple 0
                  limits_one_item = Returned r /\
    peak_stack_items r = 2 /\
    peak_stack_items r <= max_stack_items limits_one_item + 1.
Proof.
  assert (Impl_estimate default_Impl [x01; xaa; x01; xbb] [] tx_simple 0
            limits_one_item
          = Returned {|
              total_cycles := 13;
              breakdown := {| parsing := 3; dispatch := 10; stack_ops := 0;
                              byte_ops := 0; hashing := 0; signatures := 0;
                              control_flow := 0 |};
              peak_stack_bytes := 2;
              peak_stack_items := 2;
              signature_count := 0;
              opcode_count := 2;
              warnings := ["Stack item count limit exceeded"] |}) as H
    by (vm_compute; reflexivity).
  eexists. split; [exact H|]. split; [reflexivity|].
  apply (peak_stack_items_overshoot default_Impl [x01; xaa; x01; xbb] []
           tx_simple 0 limits_one_item _ ltac:(cbn; lia) H).
Defined.


(** ** The model file *)

(** The binary64 constants written out above are the literals of the
    source: the integers and [2.5] exactly, [0.8] as the binary64 nearest
    to four fifths. *)
Lemma literals_of_the_source :
  d_0_0 = dyadic 0 0 /\ d_5_0 = dyadic 5 0 /\ d_2_5 = dyadic 5 1 /\
  d_85000_0 = dyadic 85000 0 /\ d_150_0 = dyadic 150 0 /\
  d_300_0 = dyadic 300 0 /\ d_0_8 = ddiv (dyadic 4 0) (dyadic 5 0).
Proof. repeat split; vm_compute; reflexivity. Qed.

Lemma opcode_of_name_loadable (name : string) (op : Z) :
  opcode_of_name name = Some op -> In op loadable_opcodes.
Proof.
  unfold opcode_of_name, loadable_opcodes.
  repeat (destruct (String.eqb name _);
          [intros [= <-]; cbn; tauto|]).
  discriminate.
Qed.

Lemma load_opcodes_keys (items : list (string * OpcodeEntry))
    (costs costs' : gmap Z OpcodeCostModel) (op : Z) :
  load_opcodes items costs = inr (Some costs') ->
  ~ In op loadable_opcodes ->
  costs' !! op = costs !! op.
Proof.
  revert costs. induction items as [|[name entry] items IH]; intros costs;
    cbn [load_opcodes].
  - intros [= <-] _. reflexivity.
  - destruct entry as [|d]; [discriminate|].
    destruct (read_cost_model d) as [cm|]; [|discriminate].
    destruct (opcode_of_name name) as [op'|] eqn:Hname; [|apply IH].
    destruct (store_cost_model cm) as [m|]; [|discriminate].
    intros Hload Hop. rewrite (IH _ Hload Hop).
    apply lookup_insert_ne. intros ->.
    apply Hop. eapply opcode_of_name_loadable. exact Hname.
Qed.

(** X23.  A model file sets the cost of eight opcodes at most ([OP_DUP],
    [OP_SWAP], [OP_CAT], [OP_SPLIT], [OP_SHA256], [OP_HASH256],
    [OP_CHECKSIG], [OP_CHECKMULTISIG]): whatever loads, every other opcode
    has no entry and is charged the fallback 100. *)
Theorem load_model_sets_eight_opcodes (file : ModelFile)
    (profile_id : string) (M : Impl) (op : Z) (params : list Z) :
  load_model file = Loaded profile_id M ->
  ~ In op loadable_opcodes ->
  opcode_costs M !! op = None /\
  calculate_opcode_cost M op params = Some 100.
Proof.
  intros Hload Hop.
  assert (opcode_costs M !! op = None) as Hnone.
  { unfold load_model in Hload.
    destruct file as [| |[|model]]; try discriminate.
    destruct (json_value (j_profile_id model) _) as [pid|]; [|discriminate].
    destruct (match j_constants model with
              | Absent => _ | Present _ => _ | Mistyped => _ end)
      as [[cd cp]|]; [|discriminate].
    destruct (j_opcodes model) as [items|].
    - destruct (load_opcodes items ∅) as [e|[costs|]] eqn:Hitems;
        try discriminate.
      injection Hload as _ <-. cbn [opcode_costs].
      rewrite (load_opcodes_keys _ _ _ _ Hitems Hop). apply lookup_empty.
    - injection Hload as _ <-. apply lookup_empty. }
  split; [exact Hnone|].
  unfold calculate_opcode_cost. rewrite Hnone. reflexivity.
Qed.

Lemma load_model_sets_eight_opcodes_witness :
  opcode_costs default_Impl !! 0x7b = None /\
  calculate_opcode_cost default_Impl 0x7b [] = Some 100.
Proof.
  apply (load_model_sets_eight_opcodes empty_document "unknown" default_Impl
           0x7b []).
  - reflexivity.
  - vm_compute. intuition discriminate.
Defined.

Lemma opcode_of_name_inj (n1 n2 : string) (op : Z) :
  opcode_of_name n1 = Some op -> opcode_of_name n2 = Some op -> n1 = n2.
Proof.
  unfold opcode_of_name.
  repeat match goal with
    | |- context [String.eqb ?a ?b] =>
        destruct (String.eqb_spec a b); [subst|]
    end;
    intros [= <-] H; try discriminate H; try reflexivity.
Qed.

Lemma load_opcodes_other (items : list (string * OpcodeEntry))
    (costs costs' : gmap Z OpcodeCostModel) (op : Z) :
  load_opcodes items costs = inr (Some costs') ->
  (forall name e, In (name, e) items -> opcode_of_name name <> Some op) ->
  costs' !! op = costs !! op.
Proof.
  revert costs. induction items as [|[name entry] items IH]; intros costs;
    cbn [load_opcodes].
  - intros [= <-] _. reflexivity.
  - destruct entry as [|d]; [discriminate|].
    destruct (read_cost_model d) as [cm|]; [|discriminate].
    destruct (opcode_of_name name) as [op'|] eqn:Hname.
    + destruct (store_cost_model cm) as [m|]; [|discriminate].
      intros Hload Hother.
      rewrite (IH _ Hload);
        [|intros n e Hin; apply (Hother n e); right; exact Hin].
      apply lookup_insert_ne. intros ->.
      apply (Hother name (EntryObject d)); [left; reflexivity|exact Hname].
    + intros Hload Hother. apply (IH _ Hload).
      intros n e Hin. apply (Hother n e). right. exact Hin.
Qed.

Lemma load_opcodes_round_trip (items : list (string * OpcodeEntry))
    (costs costs' : gmap Z OpcodeCostModel) (name : string)
    (d : OpcodeData) (op : Z) :
  load_opcodes items costs = inr (Some costs') ->
  NoDup (map fst items) ->
  In (name, EntryObject d) items ->
  opcode_of_name name = Some op ->
  exists cm m,
    read_cost_model d = Some cm /\ store_cost_model cm = Some m /\
    costs' !! op = Some m.
Proof.
  revert costs. induction items as [|[name' entry] items IH]; intros costs;
    cbn [load_opcodes map fst]; [intros _ _ []|].
  intros Hload Hnd Hin Hname.
  apply NoDup_cons in Hnd. destruct Hnd as [Hfresh Hnd].
  destruct Hin as [Heq|Hin]; [injection Heq as -> ->|].
  - rewrite Hname in Hload.
    destruct (read_cost_model d) as [cm|] eqn:Hcm; [|discriminate].
    destruct (store_cost_model cm) as [m|] eqn:Hm; [|discriminate].
    exists cm, m. split; [reflexivity|]. split; [exact Hm|].
    rewrite (load_opcodes_other _ _ _ op Hload).
    + apply lookup_insert_eq.
    + intros n e Hn Hop. apply Hfresh.
      rewrite (opcode_of_name_inj _ _ _ Hname Hop).
      apply list_elem_of_In. apply in_map_iff. exists (n, e).
      split; [reflexivity|exact Hn].
  - destruct entry as [|d']; [discriminate|].
    destruct (read_cost_model d') as [cm'|]; [|discriminate].
    destruct (opcode_of_name name') as [op'|].
    + destruct (store_cost_model cm') as [m'|]; [|discriminate].
      apply (IH _ Hload Hnd Hin Hname).
    + apply (IH _ Hload Hnd Hin Hname).
Qed.

(** X24.  What the file says under the name of a loadable opcode is what
    the estimator looks up for that opcode: when the item names are
    distinct, no other item overwrites it. *)
Theorem load_model_round_trip (model : ModelObject) (profile_id : string)
    (M : Impl) (items : list (string * OpcodeEntry)) (name : string)
    (d : OpcodeData) (op : Z) :
  load_model (Parsed (JObject model)) = Loaded profile_id M ->
  j_opcodes model = Some items ->
  NoDup (map fst items) ->
  In (name, EntryObject d) items ->
  opcode_of_name name = Some op ->
  exists cm m,
    read_cost_model d = Some cm /\ store_cost_model cm = Some m /\
    opcode_costs M !! op = Some m.
Proof.
  intros Hload Hitems Hnd Hin Hname.
  unfold load_model in Hload. rewrite Hitems in Hload.
  destruct (json_value (j_profile_id model) _) as [pid|]; [|discriminate].
  destruct (match j_constants model with
            | Absent => _ | Present _ => _ | Mistyped => _ end)
    as [[cd cp]|]; [|discriminate].
  destruct (load_opcodes items ∅) as [e|[costs|]] eqn:Hload';
    try discriminate.
  injection Hload as _ <-. cbn [opcode_costs].
  exact (load_opcodes_round_trip _ _ _ _ _ _ Hload' Hnd Hin Hname).
Qed.

Lemma load_model_round_trip_witness :
  load_model (Parsed (JObject checksig_document))
  = Loaded "unknown" model_checksig /\
  exists cm m,
    read_cost_model
      {| od_model := Present "signature"%string; od_c0 := Absent;
         od_c1 := Absent; od_c_alloc := Absent; od_c_ecdsa := Absent;
         od_c_preimage_per_byte := Absent; od_c_keyscan := Absent;
         od_c_setup := Absent |} = Some cm /\
    store_cost_model cm = Some m /\
    opcode_costs model_checksig !! OP_CHECKSIG = Some m.
Proof.
  assert (load_model (Parsed (JObject checksig_document))
          = Loaded "unknown" model_checksig) as H by reflexivity.
  split; [exact H|].
  apply (load_model_round_trip checksig_document "unknown" model_checksig
           checksig_items "OP_CHECKSIG" _ OP_CHECKSIG H eq_refl).
  - cbn.
    repeat (apply NoDup_cons_2;
            [rewrite list_elem_of_In; cbn; intuition discriminate|]).
    apply NoDup_nil_2.
  - right; left; reflexivity.
  - reflexivity.
Defined.


(** ** Scripts made of pushes *)

Lemma byte_val_len_byte (n : nat) :
  (n <= 255)%nat -> byte_val (len_byte n) = Z.of_nat n.
Proof.
  intros Hn. unfold len_byte, byte_val.
  destruct (Byte.of_N (N.of_nat n)) as [b|] eqn:Hb.
  - simpl. apply Byte.to_of_N in Hb. rewrite Hb. lia.
  - apply Byte.of_N_None_iff in Hb. lia.
Qed.

(** A pass over one well-formed push, with room under every limit. *)
Lemma execute_step_push (M : Impl) (tx : Transaction) (input_index : N)
    (limits : EstimatorLimits) (pre rest : Script) (p : PushOp)
    (st : ExecState) (d : Z) :
  u64_of_double (c_dispatch M) = Some d ->
  push_ok p ->
  pc st = length pre ->
  0 <= opcode_count (result st) < 2 ^ 32 - 1 ->
  0 <= current_stack_bytes st ->
  current_stack_bytes st + push_size p < 2 ^ 64 ->
  current_stack_bytes st + push_size p <= max_stack_item_size limits ->
  Z.of_nat (length (stack_sizes st)) + 1 < 2 ^ 32 ->
  Z.of_nat (length (stack_sizes st)) + 1 <= max_stack_items limits ->
  exists op,
    (pre ++ encode_push p ++ rest) !! pc st = Some op /\
    execute_step M tx input_index limits (pre ++ encode_push p ++ rest) op st
    = Some (false,
            {| result :=
                 track_peaks (current_stack_bytes st + push_size p)
                   (S (length (stack_sizes st)))
                   (add_total d
                      (add_dispatch d (incr_opcode_count (result st))));
               stack_sizes := push_size p :: stack_sizes st;
               current_stack_bytes := current_stack_bytes st + push_size p;
               pc := (pc st + length (encode_push p))%nat |}).
Proof.
  intros Hd Hok Hpc Hoc Hcsb Hfit Hmaxb Hlen Hmaxi.
  assert (forall sz st1,
            current_stack_bytes st1 = current_stack_bytes st + sz ->
            Z.of_nat (length (stack_sizes st1))
            = Z.of_nat (length (stack_sizes st)) + 1 ->
            sz = push_size p ->
            check_stack_limits limits st1 = (false, st1)) as Hchk.
  { intros sz st1 E1 E2 ->. unfold check_stack_limits.
    destruct (Z.ltb_spec (max_stack_item_size limits)
                (current_stack_bytes st1)); [lia|].
    destruct (Z.ltb_spec (max_stack_items limits)
                (Z.of_nat (length (stack_sizes st1)))); [lia|].
    reflexivity. }
  unfold push_size in *.
  destruct p as [data|data]; cbn [push_ok encode_push push_data_of] in *.
  - exists (len_byte (length data)). split.
    + rewrite Hpc. rewrite lookup_app_r by (clear; lia).
      rewrite Nat.sub_diag. reflexivity.
    + rewrite execute_step_split. unfold pass_body. rewrite Hd.
      cbn [mbind option_bind].
      rewrite byte_val_len_byte by lia.
      destruct (Z.ltb_spec 0 (Z.of_nat (length data))); [|lia].
      destruct (Z.ltb_spec (Z.of_nat (length data)) 76); [|lia].
      cbn [andb mbind option_bind]. 
      rewrite (Hchk (Z.of_nat (length data)));
        [| cbn; rewrite wrap64_small; lia
         | cbn [with_result push_data stack_sizes length]; lia
         | reflexivity].
      f_equal. f_equal. unfold push_data, with_result. cbn.
      rewrite wrap64_small by lia. f_equal. lia.
  - exists x4c. split.
    + rewrite Hpc. rewrite lookup_app_r by (clear; lia).
      rewrite Nat.sub_diag. reflexivity.
    + rewrite execute_step_split. unfold pass_body. rewrite Hd.
      cbn [mbind option_bind].
      change (byte_val x4c) with 76.
      change ((0 <? 76) && (76 <? 76)) with false.
      change (76 =? OP_PUSHDATA1) with true. cbv iota.
      replace ((pre ++ x4c :: len_byte (length data) :: data ++ rest)
                 !! S (pc st))
        with (Some (len_byte (length data))).
      2:{ rewrite Hpc. rewrite lookup_app_r by (clear; lia).
          replace (S (length pre) - length pre)%nat with 1%nat by lia.
          reflexivity. }
      cbn [mbind option_bind].
      rewrite byte_val_len_byte by lia.
      rewrite (Hchk (Z.of_nat (length data)));
        [| cbn; rewrite wrap64_small; lia
         | cbn [with_result push_data stack_sizes length]; lia
         | reflexivity].
      f_equal. f_equal. unfold push_data, with_result. cbn.
      rewrite wrap64_small by lia. f_equal. lia.
Qed.

Lemma push_size_nonneg (ps : list PushOp) :
  Forall (fun z => 0 <= z) (map push_size ps).
Proof.
  apply Forall_map, Forall_forall. intros p _. unfold push_size. lia.
Qed.

Lemma after_pushes_nil (d : Z) (st : ExecState) :
  wrap64 (total_cycles (result st)) = total_cycles (result st) ->
  wrap64 (dispatch (breakdown (result st)))
  = dispatch (breakdown (result st)) ->
  current_stack_bytes st <= peak_stack_bytes (result st) ->
  Z.of_nat (length (stack_sizes st)) <= peak_stack_items (result st) ->
  after_pushes d [] 0 st = st.
Proof.
  destruct st as [[t [a b c e f g h] pb pi sc oc w] s cs p].
  cbn. intros Ht Hb Hpb Hpi. unfold after_pushes. cbn.
  rewrite !Z.add_0_r, Ht, Hb, Nat.add_0_r.
  rewrite !Z.max_l by lia. reflexivity.
Qed.

Lemma after_pushes_cons (d sz : Z) (sizes : list Z) (n bytes : nat)
    (st : ExecState) :
  0 <= sz -> 0 <= sum_list sizes ->
  0 <= opcode_count (result st) < 2 ^ 32 - 1 ->
  Z.of_nat (length (stack_sizes st)) + 1 < 2 ^ 32 ->
  after_pushes d sizes bytes
    {| result :=
         track_peaks (current_stack_bytes st + sz)
           (S (length (stack_sizes st)))
           (add_total d (add_dispatch d (incr_opcode_count (result st))));
       stack_sizes := sz :: stack_sizes st;
       current_stack_bytes := current_stack_bytes st + sz;
       pc := (pc st + n)%nat |}
  = after_pushes d (sz :: sizes) (n + bytes) st.
Proof.
  destruct st as [[t [a b c e f g h] pb pi sc oc w] s cs p].
  cbn [result stack_sizes current_stack_bytes pc opcode_count].
  intros Hsz Hsum Hoc Hlen.
  unfold after_pushes, track_peaks, add_total, add_dispatch, with_total,
    with_breakdown, incr_opcode_count.
  cbn [result stack_sizes current_stack_bytes pc total_cycles breakdown
       parsing dispatch stack_ops byte_ops hashing signatures control_flow
       peak_stack_bytes peak_stack_items signature_count opcode_count
       warnings length rev].
  unfold sum_list in *. cbn [fold_right].
  rewrite (wrap32_small (oc + 1)) by lia.
  rewrite (wrap32_small (Z.of_nat (S (length s)))) by lia.
  rewrite !Nat2Z.inj_succ, !Z.mul_succ_l.
  rewrite <- app_assoc. cbn [app].
  f_equal; [|lia|lia].
  f_equal; [wrap64_solve| |lia|lia|lia].
  f_equal. wrap64_solve.
Qed.

Lemma run_succ (M : Impl) (tx : Transaction) (input_index : N)
    (limits : EstimatorLimits) (combined : list byte) (fuel : nat)
    (st : ExecState) :
  run M tx input_index limits combined (S fuel) st
  = match combined !! pc st with
    | None => Returned st
    | Some op_byte =>
        if max_opcode_count limits <=? opcode_count (result st) then
          Returned
            (with_result (push_warning "Opcode count limit exceeded") st)
        else
          match execute_step M tx input_index limits combined op_byte st
          with
          | None => Undefined
          | Some (true, st) => Returned st
          | Some (false, st) => run M tx input_index limits combined fuel st
          end
    end.
Proof. reflexivity. Qed.

(** The loop over a tail of the script made of well-formed pushes, with
    room under every limit. *)
Lemma run_pushes (M : Impl) (tx : Transaction) (input_index : N)
    (limits : EstimatorLimits) (d : Z) (ps : list PushOp) :
  u64_of_double (c_dispatch M) = Some d ->
  Forall push_ok ps ->
  forall (pre : Script) (st : ExecState),
    pc st = length pre ->
    wrap64 (total_cycles (result st)) = total_cycles (result st) ->
    wrap64 (dispatch (breakdown (result st)))
    = dispatch (breakdown (result st)) ->
    current_stack_bytes st <= peak_stack_bytes (result st) ->
    Z.of_nat (length (stack_sizes st)) <= peak_stack_items (result st) ->
    0 <= opcode_count (result st) ->
    opcode_count (result st) + Z.of_nat (length ps) < 2 ^ 32 ->
    opcode_count (result st) + Z.of_nat (length ps)
    <= max_opcode_count limits ->
    0 <= current_stack_bytes st ->
    current_stack_bytes st + sum_list (map push_size ps) < 2 ^ 64 ->
    current_stack_bytes st + sum_list (map push_size ps)
    <= max_stack_item_size limits ->
    Z.of_nat (length (stack_sizes st)) + Z.of_nat (length ps) < 2 ^ 32 ->
    Z.of_nat (length (stack_sizes st)) + Z.of_nat (length ps)
    <= max_stack_items limits ->
    run M tx input_index limits (pre ++ concat (map encode_push ps))
        (length ps) st
    = Returned (after_pushes d (map push_size ps)
                  (length (concat (map encode_push ps))) st).
Proof.
  intros Hd Hok. induction Hok as [|p ps Hp Hps IH];
    intros pre st Hpc Ht Hb Hpb Hpi Hoc0 Hoc Hmaxo Hcsb Hfit Hmaxb Hlen
      Hmaxi.
  - cbn [map concat length]. rewrite app_nil_r.
    change (run M tx input_index limits pre 0 st)
      with (match pre !! pc st with
            | None => Returned st
            | Some _ =>
                if max_opcode_count limits <=? opcode_count (result st)
                then Returned
                       (with_result
                          (push_warning "Opcode count limit exceeded") st)
                else OutOfFuel
            end).
    rewrite Hpc.
    destruct (pre !! length pre) as [b|] eqn:Hlk;
      [apply lookup_lt_Some in Hlk; clear -Hlk; lia|].
    rewrite after_pushes_nil by assumption. reflexivity.
  - cbn [map concat length] in *.
    pose proof (push_size_nonneg ps) as Hnn.
    apply sum_list_nonneg in Hnn.
    assert (0 <= push_size p) as Hsz by (unfold push_size; lia).
    unfold sum_list in Hfit, Hmaxb. cbn [fold_right] in Hfit, Hmaxb.
    fold (sum_list (map push_size ps)) in Hfit, Hmaxb.
    rewrite Nat2Z.inj_succ in *.
    destruct (execute_step_push M tx input_index limits pre
                (concat (map encode_push ps)) p st d Hd Hp Hpc
                ltac:(lia) Hcsb ltac:(lia) ltac:(lia) ltac:(lia) ltac:(lia))
      as (op & Hop & Hstep).
    rewrite run_succ, Hop.
    destruct (Z.leb_spec (max_opcode_count limits) (opcode_count (result st)));
      [lia|].
    rewrite Hstep.
    rewrite (app_assoc pre).
    rewrite (IH (pre ++ encode_push p)).
    + f_equal. rewrite length_app.
      apply after_pushes_cons; lia.
    + cbn [pc]. rewrite length_app. lia.
    + cbn. apply wrap64_idem.
    + cbn. apply wrap64_idem.
    + cbn. lia.
    + cbn [result stack_sizes track_peaks peak_stack_items length].
      rewrite wrap32_small by lia. lia.
    + cbn. rewrite wrap32_small by lia. lia.
    + cbn [result track_peaks add_total with_total add_dispatch
           with_breakdown incr_opcode_count opcode_count].
      rewrite wrap32_small by lia. lia.
    + cbn [result track_peaks add_total with_total add_dispatch
           with_breakdown incr_opcode_count opcode_count].
      rewrite wrap32_small by lia. lia.
    + cbn. lia.
    + cbn [current_stack_bytes]. lia.
    + cbn [current_stack_bytes]. lia.
    + cbn [stack_sizes length]. lia.
    + cbn [stack_sizes length]. lia.
Qed.

(** X25.  A script made of well-formed pushes (direct pushes of 1 to 75
    bytes, [OP_PUSHDATA1] pushes of 0 to 255 bytes), with room under every
    limit, is decoded push by push: one opcode is counted and one item
    stacked for each, of the size it announces; the total is the parsing
    charge plus the dispatch overhead once per push; no warning is
    raised. *)
Theorem push_only_script (M : Impl) (ps : list PushOp) (tx : Transaction)
    (input_index : N) (limits : EstimatorLimits) (d p : Z) :
  let script := concat (map encode_push ps) in
  let n := Z.of_nat (length ps) in
  let bytes := sum_list (map push_size ps) in
  Forall push_ok ps ->
  u64_of_double (c_dispatch M) = Some d ->
  u64_of_double
    (dmul (c_parse_per_byte M) (double_of_u64 (Z.of_nat (length script))))
  = Some p ->
  Z.of_nat (length script) <= max_script_size limits ->
  n < 2 ^ 32 -> n <= max_opcode_count limits ->
  n <= max_stack_items limits ->
  bytes < 2 ^ 64 -> bytes <= max_stack_item_size limits ->
  Impl_estimate M script [] tx input_index limits
  = Returned {|
      total_cycles := wrap64 (p + n * d);
      breakdown := {| parsing := p; dispatch := wrap64 (n * d);
                      stack_ops := 0; byte_ops := 0; hashing := 0;
                      signatures := 0; control_flow := 0 |};
      peak_stack_bytes := bytes;
      peak_stack_items := n;
      signature_count := 0;
      opcode_count := n;
      warnings := [] |}.
Proof.
  intros script n bytes Hok Hd Hp Hsize Hn Hmaxo Hmaxi Hbytes Hmaxb.
  pose proof (u64_of_double_range _ _ Hp) as Hprange.
  pose proof (sum_list_nonneg _ (push_size_nonneg ps)) as Hnn.
  fold bytes in Hnn.
  unfold Impl_estimate. rewrite app_nil_r.
  destruct (Z.ltb_spec (max_script_size limits) (Z.of_nat (length script)));
    [lia|].
  rewrite Hp.
  assert (length ps <= length script)%nat as Hfuel.
  { subst script. clear. induction ps as [|q ps IH]; cbn [map concat length].
    - lia.
    - rewrite length_app. destruct q; cbn [encode_push length]; lia. }
  pose proof (run_pushes M tx input_index limits d ps Hd Hok []
                (initial_state p) eq_refl) as Hrun.
  cbn [app] in Hrun. fold script in Hrun.
  rewrite (run_fuel_mono _ _ _ _ _ _ _ _ _
             (Hrun ltac:(cbn; apply wrap64_idem) ltac:(reflexivity)
                   ltac:(cbn; lia) ltac:(cbn; lia) ltac:(cbn; lia)
                   ltac:(cbn; lia) ltac:(cbn; lia) ltac:(cbn; lia)
                   ltac:(cbn; lia) ltac:(cbn; lia) ltac:(cbn; lia)
                   ltac:(cbn; lia))
             Hfuel).
  f_equal. unfold result_of, after_pushes, initial_state.
  cbn [result add_total with_total set_parsing with_breakdown empty_estimate
       total_cycles breakdown parsing dispatch stack_ops byte_ops hashing
       signatures control_flow peak_stack_bytes peak_stack_items
       signature_count opcode_count warnings stack_sizes current_stack_bytes
       length].
  rewrite length_map. fold n. fold bytes.
  rewrite (wrap64_small (0 + p)) by lia.
  rewrite !Z.add_0_l. rewrite !Z.max_r by lia. reflexivity.
Qed.

Lemma push_only_script_witness :
  Impl_estimate default_Impl (concat (map encode_push pushes_sig_key)) []
                tx_simple 0 default_limits
  = Returned {|
      total_cycles := 95;
      breakdown := {| parsing := 85; dispatch := 10;
                      stack_ops := 0; byte_ops := 0; hashing := 0;
                      signatures := 0; control_flow := 0 |};
      peak_stack_bytes := 104;
      peak_stack_items := 2;
      signature_count := 0;
      opcode_count := 2;
      warnings := [] |}.
Proof.
  apply (push_only_script default_Impl pushes_sig_key tx_simple 0
           default_limits 5 85).
  - repeat constructor; cbn; lia.
  - reflexivity.
  - vm_compute. reflexivity.
  - vm_compute. discriminate.
  - vm_compute. reflexivity.
  - vm_compute. discriminate.
  - vm_compute. discriminate.
  - vm_compute. reflexivity.
  - vm_compute. discriminate.
Defined.

(** ** The size limit *)






